(** * mondrian_utils: interval partitioning, cell classification,
      contamination detection, group merging and run metadata

    A shallow embedding of the functions of
    [mondrianutils/variant_calling/utils.py] and
    [mondrianutils/alignment/utils.py] that shard a reference genome and
    triage per-cell alignment files, together with the properties the
    specification states about them.

    Python integers are unbounded and are modelled by [Z]; Python sets of
    strings by [gset string]; Python dictionaries, whose iteration order is
    the insertion order, by association lists updated in place. *)

From Stdlib Require Import ZArith Ascii String Numbers.Cyclic.Int63.Uint63.
From Stdlib Require Import Floats.PrimFloat Floats.SpecFloat Floats.FloatOps Floats.FloatAxioms.
From stdpp Require Import base tactics numbers list list_numbers gmap sets strings sorting pretty.

Local Open Scope Z_scope.

(** ** Exceptions *)

(** The exceptions the embedded functions raise. *)
Inductive exn :=
  | ZeroDivisionError
  | OverflowError
  | ValueError
  | AssertionError
  | KeyError (key : string)
  | Exception (msg : string).

Global Instance exn_eq_dec : EqDecision exn.
Proof. solve_decision. Defined.

(** Sequencing of computations that may raise. *)
Definition bind {A B : Type} (m : exn + A) (k : A → exn + B) : exn + B :=
  match m with
  | inl e => inl e
  | inr a => k a
  end.

Notation "x ←! m ; k" := (bind m (λ x, k))
  (at level 20, m at level 100, k at level 200, only parsing).

(** * Binary64 numbers *)

(** Python's [float] and the float64 of pandas are IEEE 754 binary64
    numbers, as the primitive floats are. *)
Module Binary64.

(** The conversion of an integer to binary64 (round to nearest, ties to
    even), for the integers of an int64 column; below [2^53] in absolute
    value it is exact. *)
Definition to_float (z : Z) : float :=
  if bool_decide (0 <= z) then of_uint63 (Uint63.of_Z z)
  else if bool_decide (z = - 2 ^ 63) then
    PrimFloat.opp (PrimFloat.mul (of_uint63 (Uint63.of_Z (2 ^ 62)))
                                 (of_uint63 (Uint63.of_Z 2)))
  else PrimFloat.opp (of_uint63 (Uint63.of_Z (- z))).

(** [int(f)]: truncation toward zero; it raises on infinities and NaN. *)
Definition trunc (f : float) : option Z :=
  match Prim2SF f with
  | S754_zero _ => Some 0
  | S754_finite s m e =>
      let v := if bool_decide (0 <= e) then Z.pos m * 2 ^ e
               else Z.pos m `div` 2 ^ (- e) in
      Some (if s then - v else v)
  | _ => None
  end.

(** [math.ceil(f)] *)
Definition ceil (f : float) : option Z :=
  match Prim2SF f with
  | S754_zero _ => Some 0
  | S754_finite s m e =>
      if bool_decide (0 <= e) then
        Some (if s then - (Z.pos m * 2 ^ e) else Z.pos m * 2 ^ e)
      else if s then Some (- (Z.pos m `div` 2 ^ (- e)))
      else Some (- ((- Z.pos m) `div` 2 ^ (- e)))
  | _ => None
  end.

End Binary64.

(** * Python floats *)

(** Python's [float] is a binary64 number: the numbers of [SpecFloat] at
    53 bits of precision and maximal exponent 1024, on which the
    operations round to nearest, ties to even.  The operations below are
    those of the interpreter on [int] and [float] operands, with the
    exceptions they raise; integers are unbounded. *)
Module PyFloat.

Definition prec : Z := 53.
Definition emax : Z := 1024.

(** [float(z)]: the nearest float; [OverflowError] when it is past the
    largest one. *)
Definition of_int (z : Z) : exn + spec_float :=
  match binary_normalize prec emax z 0 false with
  | S754_infinity _ => inl OverflowError
  | f => inr f
  end.

(** [a / b] for two integers: the float nearest to the exact quotient. *)
Definition true_divide (a b : Z) : exn + spec_float :=
  if bool_decide (b = 0) then inl ZeroDivisionError
  else if bool_decide (a = 0) then inr (S754_zero (bool_decide (b < 0)))
  else
    match SFdiv prec emax
            (S754_finite (bool_decide (a < 0)) (Z.to_pos (Z.abs a)) 0)
            (S754_finite (bool_decide (b < 0)) (Z.to_pos (Z.abs b)) 0) with
    | S754_infinity _ => inl OverflowError
    | f => inr f
    end.

(** [x / n] for a float and an integer: the integer is converted
    first. *)
Definition div_int (x : spec_float) (n : Z) : exn + spec_float :=
  y ←! of_int n;
  match y with
  | S754_zero _ => inl ZeroDivisionError
  | _ => inr (SFdiv prec emax x y)
  end.

(** [x + n] for a float and an integer. *)
Definition add_int (x : spec_float) (n : Z) : exn + spec_float :=
  y ←! of_int n; inr (SFadd prec emax x y).

(** [int(x)]: truncation toward zero. *)
Definition to_int (x : spec_float) : exn + Z :=
  match x with
  | S754_zero _ => inr 0
  | S754_finite s m e =>
      let v := if bool_decide (0 <= e) then Z.pos m * 2 ^ e
               else Z.pos m `div` 2 ^ (- e) in
      inr (if s then - v else v)
  | S754_infinity _ => inl OverflowError
  | S754_nan => inl ValueError
  end.

(** [math.ceil(x)] *)
Definition ceil (x : spec_float) : exn + Z :=
  match x with
  | S754_zero _ => inr 0
  | S754_finite s m e =>
      if bool_decide (0 <= e) then
        inr (if s then - (Z.pos m * 2 ^ e) else Z.pos m * 2 ^ e)
      else if s then inr (- (Z.pos m `div` 2 ^ (- e)))
      else inr (- ((- Z.pos m) `div` 2 ^ (- e)))
  | S754_infinity _ => inl OverflowError
  | S754_nan => inl ValueError
  end.

(** *** Rounding, in integers *)

(** The integer nearest to [N / D], ties to even. *)
Definition rne (N D : Z) : Z :=
  let q := N `div` D in
  match (2 * (N `mod` D)) ?= D with
  | Lt => q
  | Gt => q + 1
  | Eq => if Z.even q then q else q + 1
  end.

(** Where [N / D] lies between [N `div` D] and the next integer. *)
Definition loc (N D : Z) : location :=
  if (N `mod` D) =? 0 then loc_Exact else loc_Inexact (2 * (N `mod` D) ?= D).

(** The shifted mantissa [mrs] stands for the rational [N / D]. *)
Definition repr (mrs : shr_record) (N D : Z) : Prop :=
  shr_m mrs = N `div` D ∧ loc_of_shr_record mrs = loc N D.

(** [f] is the float nearest to [a / n], of sign [s]: its value is
    [M / 2^K] for the integer [M] nearest to [a * 2^K / n], where [K] is
    such that [M] has 53 bits. *)
Definition quotient_of (f : spec_float) (s : bool) (a n : Z) : Prop :=
  ∃ m e K, f = S754_finite s m e ∧ 0 <= K ∧ 0 <= e + K
    ∧ Z.pos m * 2 ^ (e + K) = rne (a * 2 ^ K) n
    ∧ 2 ^ 52 * n <= a * 2 ^ K < 2 ^ 53 * n.

End PyFloat.

(** * Interval partitioner ([variant_calling/utils.py]) *)

Module Intervals.

(** One printed token [name:start-end]. *)
Record interval := Interval { chrom : string; istart : Z; iend : Z }.

Global Instance interval_eq_dec : EqDecision interval.
Proof. solve_decision. Defined.

(** [int((length / size) + 1)]: [length / size] is the true division of
    two integers, which gives a float; one is added to it and [int]
    truncates the sum toward zero. *)
Definition range_bound (length size : Z) : exn + Z :=
  q ←! PyFloat.true_divide length size;
  y ←! PyFloat.add_int q 1;
  PyFloat.to_int y.

(** The body of the inner loop, for one value of [i]:
    [start = int(i * size) + 1], [end = min(int((i + 1) * size), length)];
    [i] and [size] are integers, and so are their products. *)
Definition chunk (name : string) (length size i : Z) : interval :=
  Interval name (i * size + 1) (Z.min ((i + 1) * size) length).

(** [for i in range(n): print(...)] for one sequence.  [range n] is empty
    for [n <= 0], as [seqZ 0 n] is. *)
Definition chunks (name : string) (length size n : Z) : list interval :=
  chunk name length size <$> seqZ 0 n.

(** [generate_intervals ref chromosomes size], from the point where the
    names and lengths of the reference have been read.  The result is the
    list of printed intervals, in order, and the exception that ended the
    run, if any: the bound of the inner loop raises [ZeroDivisionError]
    when [size] is zero and [OverflowError] when the quotient is past the
    floats, at the first sequence that is not skipped. *)
Fixpoint generate_loop (pairs : list (string * Z)) (chromosomes : list string)
    (size : Z) : list interval * option exn :=
  match pairs with
  | [] => ([], None)
  | (name, length) :: rest =>
      if bool_decide (name ∈ chromosomes) then
        match range_bound length size with
        | inl e => ([], Some e)
        | inr n =>
            let '(out, e) := generate_loop rest chromosomes size in
            (chunks name length size n ++ out, e)
        end
      else generate_loop rest chromosomes size
  end.

Definition generate_intervals (names : list string) (lengths : list Z)
    (chromosomes : list string) (size : Z) : list interval * option exn :=
  generate_loop (zip names lengths) chromosomes size.

(** [ceil(a / n)] for [n >= 1] as the specification writes it: the
    ceiling of the exact quotient. *)
Definition ceil_div (a n : Z) : Z := - ((- a) / n).

(** [intervalsize = int(math.ceil(float(end - start) / num_splits))]:
    the difference is converted to a float, divided by the number of
    splits, and [math.ceil] gives an integer. *)
Definition intervalsize (start end_ num_splits : Z) : exn + Z :=
  x ←! PyFloat.of_int (end_ - start);
  q ←! PyFloat.div_int x num_splits;
  PyFloat.ceil q.

(** The loop of [split_interval]: one call per iteration of
    [for i in range(num_splits)], [iters] being the iterations left. *)
Fixpoint split_loop (iters : nat) (chrom : string)
    (currpos intervalsize end_ : Z) : list interval :=
  match iters with
  | O => []
  | S iters' =>
      let interval_start := currpos in
      let interval_end := currpos + intervalsize in
      if bool_decide (interval_end >= end_) then
        [Interval chrom interval_start end_]
      else
        Interval chrom interval_start interval_end
          :: split_loop iters' chrom (interval_end + 1) intervalsize end_
  end.

(** [split_interval interval num_splits], from the point where the
    interval has been parsed into [chrom], [start] and [end]. *)
Definition split_interval (chrom : string) (start end_ num_splits : Z)
    : exn + list interval :=
  isz ←! intervalsize start end_ num_splits;
  inr (split_loop (Z.to_nat num_splits) chrom start isz end_).

(** The sequence lengths and chunk sizes on which the loop bound is
    computed without rounding error: all those of at most 51 bits. *)
Definition in_float_range (size length : Z) : Prop :=
  0 <= length ∧ length + 2 * size <= 2 ^ 52.

(** [name + ":" + start + "-" + end], the printed form. *)
Definition format_interval (iv : interval) : string :=
  chrom iv +:+ ":" +:+ pretty (istart iv) +:+ "-" +:+ pretty (iend iv).

(** *** Tilings *)

(** [tiles lo hi l]: the intervals of [l] are non-empty ([start <= end]),
    the first starts at [lo], each next one starts one past the end of the
    previous one, and the last ends at [hi]. *)
Fixpoint tiles (lo hi : Z) (l : list interval) : bool :=
  match l with
  | [] => false
  | iv :: rest =>
      bool_decide (istart iv = lo) && bool_decide (istart iv <= iend iv) &&
      match rest with
      | [] => bool_decide (iend iv = hi)
      | _ => tiles (iend iv + 1) hi rest
      end
  end.

(** Consecutive intervals are contiguous, whatever their own shape. *)
Fixpoint contiguous (l : list interval) : bool :=
  match l with
  | iv :: ((iv' :: _) as rest) =>
      bool_decide (istart iv' = iend iv + 1) && contiguous rest
  | _ => true
  end.

(** Every piece but the last spans [intervalsize] positions past its
    start. *)
Definition nominal (intervalsize : Z) (l : list interval) : Prop :=
  ∀ (i : nat) iv, l !! i = Some iv → (S i < length l)%nat →
    iend iv - istart iv = intervalsize.

End Intervals.

(** * Dictionaries *)

(** A Python [dict] with string keys: the items in insertion order.
    Assigning to a key that is present replaces its value in place; a new
    key goes to the end. *)
Module Dict.
Section dict.
Context {V : Type}.

Fixpoint get (k : string) (d : list (string * V)) : option V :=
  match d with
  | [] => None
  | (k', v) :: d' => if decide (k = k') then Some v else get k d'
  end.

Fixpoint set (k : string) (v : V) (d : list (string * V)) : list (string * V) :=
  match d with
  | [] => [(k, v)]
  | (k', v') :: d' =>
      if decide (k = k') then (k, v) :: d' else (k', v') :: set k v d'
  end.

Definition keys (d : list (string * V)) : list string := d.*1.
Definition values (d : list (string * V)) : list V := d.*2.

(** [{k: v for k, v in items if cond(k)}] *)
Definition comprehension (cond : string → bool) (items : list (string * V))
    : list (string * V) :=
  foldl (λ d kv, if cond kv.1 then set kv.1 kv.2 d else d) [] items.
End dict.
End Dict.

(** * Cell classifier ([alignment/utils.py]) *)

Module Classifier.

(** A row of the metrics table, with the three columns the classifier
    reads. *)
Record metrics_row := MetricsRow {
  cell_id : string;
  is_control : bool;
  is_contaminated : bool
}.

(** [set(list(rows['cell_id']))] *)
Definition cell_id_set (rows : list metrics_row) : gset string :=
  list_to_set (cell_id <$> rows).

(** [get_pass_files infiles cell_ids metrics], [metrics] being the table
    that [csverve.read_csv] returned. *)
Definition get_pass_files (infiles cell_ids : list string)
    (metrics : list metrics_row) : exn + list (string * string) :=
  if bool_decide (list_to_set cell_ids = cell_id_set metrics) then
    let cells_to_skip := cell_id_set (filter (λ r, is_contaminated r) metrics) in
    let infiles :=
      Dict.comprehension (λ cell, bool_decide (cell ∉ cells_to_skip))
        (zip cell_ids infiles) in
    let cells_to_skip := cell_id_set (filter (λ r, is_control r) metrics) in
    let infiles :=
      Dict.comprehension (λ cell, bool_decide (cell ∉ cells_to_skip)) infiles in
    inr infiles
  else inl AssertionError.

Definition get_control_files (infiles cell_ids : list string)
    (metrics : list metrics_row) : exn + list (string * string) :=
  if bool_decide (list_to_set cell_ids = cell_id_set metrics) then
    let control_cells := cell_id_set (filter (λ r, is_control r) metrics) in
    let infiles :=
      Dict.comprehension (λ cell, bool_decide (cell ∈ control_cells))
        (zip cell_ids infiles) in
    inr infiles
  else inl AssertionError.

Definition get_contaminated_files (infiles cell_ids : list string)
    (metrics : list metrics_row) : exn + list (string * string) :=
  if bool_decide (list_to_set cell_ids = cell_id_set metrics) then
    let cells_to_skip := cell_id_set (filter (λ r, is_control r) metrics) in
    let infiles :=
      Dict.comprehension (λ cell, bool_decide (cell ∉ cells_to_skip))
        (zip cell_ids infiles) in
    let contaminated_cells :=
      cell_id_set (filter (λ r, is_contaminated r) metrics) in
    let infiles :=
      Dict.comprehension (λ cell, bool_decide (cell ∈ contaminated_cells)) infiles in
    inr infiles
  else inl AssertionError.

(** Some row of [cell] carries the flag [f]. *)
Definition flagged (f : metrics_row → bool) (metrics : list metrics_row)
    (cell : string) : Prop :=
  ∃ r, r ∈ metrics ∧ cell_id r = cell ∧ f r = true.

(** The artifact that positional pairing leaves for [cell]: the one at the
    last position that holds [cell] and has an artifact. *)
Definition last_paired (cell_ids infiles : list string) (cell file : string)
    : Prop :=
  ∃ i : nat, cell_ids !! i = Some cell ∧ infiles !! i = Some file ∧
    ∀ j : nat, (i < j)%nat → cell_ids !! j = Some cell → infiles !! j = None.

(** The key set of a returned mapping. *)
Definition key_set (d : list (string * string)) : gset string :=
  list_to_set (Dict.keys d).

(** What C3 says of one call of the three functions on the same input. *)
Definition partitions (infiles cell_ids : list string)
    (metrics : list metrics_row) : Prop :=
  ∃ control contaminated pass,
    get_control_files infiles cell_ids metrics = inr control
    ∧ get_contaminated_files infiles cell_ids metrics = inr contaminated
    ∧ get_pass_files infiles cell_ids metrics = inr pass
    ∧ key_set control ## key_set contaminated
    ∧ key_set control ## key_set pass
    ∧ key_set contaminated ## key_set pass
    ∧ key_set control ∪ key_set contaminated ∪ key_set pass = cell_id_set metrics
    ∧ ∀ cell, cell ∈ cell_id_set metrics →
        (flagged is_control metrics cell → cell ∈ key_set control)
        ∧ (¬ flagged is_control metrics cell →
           flagged is_contaminated metrics cell → cell ∈ key_set contaminated)
        ∧ (¬ flagged is_control metrics cell →
           ¬ flagged is_contaminated metrics cell → cell ∈ key_set pass).

(** Three cells, one of each kind, as in the example of the
    specification. *)
Definition abc_metrics : list metrics_row :=
  [MetricsRow "A" true true; MetricsRow "B" false true; MetricsRow "C" false false].

End Classifier.

(** * Contamination detector ([alignment/utils.py]) *)

Module Contamination.
Import Binary64.

(** [s.split(sep)] for a one-character separator. *)
Fixpoint split (sep : Ascii.ascii) (s : string) : list string :=
  match s with
  | EmptyString => [EmptyString]
  | String c s' =>
      if decide (c = sep) then EmptyString :: split sep s'
      else
        match split sep s' with
        | [] => [String c EmptyString]
        | w :: ws => String c w :: ws
        end
  end.

(** [sorted(set(l))] on strings; Python orders strings by code point,
    which on UTF-8 bytes is the byte-wise lexicographic order. *)
Definition sorted_set (l : list string) : list string :=
  merge_sort String.le (elements (list_to_set l : gset string)).

(** The metrics table as a data frame: the names of all its columns, in
    order, the [cell_id] column, and the data of its integer (int64)
    columns, which by [dtypes()] include [fastqscreen_<genome>],
    [fastqscreen_<genome>_multihit] and [fastqscreen_total_reads]. *)
Record dataframe := DataFrame {
  columns : list string;
  cell_id : list string;
  int_data : gmap string (list Z)
}.

(** [df[name]] for an integer column. *)
Definition get_column (df : dataframe) (name : string) : exn + list Z :=
  match int_data df !! name with
  | Some col => inr col
  | None => inl (KeyError name)
  end.

(** Arithmetic on int64 wraps around. *)
Definition wrap64 (z : Z) : Z := (z + 2 ^ 63) `mod` 2 ^ 64 - 2 ^ 63.

(** [df['fastqscreen_{}'] - df['fastqscreen_{}_multihit']] *)
Definition _get_col_data (df : dataframe) (organism : string) : exn + list Z :=
  mapped ←! get_column df ("fastqscreen_" +:+ organism);
  multihit ←! get_column df ("fastqscreen_" +:+ organism +:+ "_multihit");
  inr (zip_with (λ a b, wrap64 (a - b)) mapped multihit).

(** The organisms named by the [fastqscreen_] columns.  [split('_')[1]]
    exists for every name that starts with [fastqscreen_] (lemma
    [split_field1] below), so the default is never taken. *)
Definition organisms (df : dataframe) : list string :=
  let organisms := filter (λ v, String.prefix "fastqscreen_" v = true) (columns df) in
  let organisms := sorted_set ((λ v, default EmptyString (split "_"%char v !! 1%nat)) <$> organisms) in
  filter (λ v, v ∉ ["nohit"; "total"]) organisms.

(** [perc_alt] for one alternative organism. *)
Definition unique_ratio (df : dataframe) (altcol : string) : exn + list float :=
  num ←! _get_col_data df altcol;
  den ←! get_column df "fastqscreen_total_reads";
  inr (zip_with (λ a b, PrimFloat.div (to_float a) (to_float b)) num den).

(** [data.loc[perc_alt > threshold, 'is_contaminated'] = True] *)
Definition set_true_where (mask flags : list bool) : list bool :=
  zip_with orb flags mask.

(** The loop over [alts]. *)
Fixpoint flag_loop (df : dataframe) (alts : list string) (threshold : float)
    (flags : list bool) : exn + list bool :=
  match alts with
  | [] => inr flags
  | altcol :: rest =>
      perc_alt ←! unique_ratio df altcol;
      flag_loop df rest threshold
        (set_true_where ((λ p, PrimFloat.ltb threshold p) <$> perc_alt) flags)
  end.

(** What [write_dataframe_to_csv_and_yaml] is given: the table, its new
    [is_contaminated] column, and the genomes of the schema. *)
Record written := Written {
  w_data : dataframe;
  w_is_contaminated : list bool;
  w_genomes : list string
}.

(** [add_contamination_status infile outfile reference threshold], from
    the table that was read to the table that is written; an exception
    means that nothing is written. *)
Definition add_contamination_status (data : dataframe) (reference : string)
    (threshold : float) : exn + written :=
  let organisms := organisms data in
  if bool_decide (reference ∉ organisms) then
    inl (Exception "Could not find the fastq screen counts")
  else
    let alts := filter (λ col, ¬ col = reference) organisms in
    let is_contaminated := replicate (length (cell_id data)) false in
    is_contaminated ←! flag_loop data alts threshold is_contaminated;
    inr (Written data is_contaminated organisms).

(** The default of the [threshold] argument. *)
Definition default_threshold : float := 0x1.999999999999ap-5%float.

(** Column [col] names organism [organism]: it is [fastqscreen_<organism>]
    or starts with [fastqscreen_<organism>_]. *)
Definition names_organism (organism col : string) : bool :=
  bool_decide (col = "fastqscreen_" +:+ organism) ||
  String.prefix ("fastqscreen_" +:+ organism +:+ "_") col.

(** The schema of [dtypes()]: the three count columns the loop reads are
    integer columns with one value per row. *)
Definition has_counts (df : dataframe) (organism : string) : Prop :=
  ∃ mapped multihit total,
    int_data df !! ("fastqscreen_" +:+ organism) = Some mapped ∧
    int_data df !! ("fastqscreen_" +:+ organism +:+ "_multihit") = Some multihit ∧
    int_data df !! "fastqscreen_total_reads" = Some total ∧
    length mapped = length (cell_id df) ∧
    length multihit = length (cell_id df) ∧
    length total = length (cell_id df).

(** The ratio [(mapped − multihit) / total_reads] of row [i] for
    [organism], as the code computes it. *)
Definition ratio_at (df : dataframe) (organism : string) (i : nat) : option float :=
  mapped ← int_data df !! ("fastqscreen_" +:+ organism);
  multihit ← int_data df !! ("fastqscreen_" +:+ organism +:+ "_multihit");
  total ← int_data df !! "fastqscreen_total_reads";
  a ← mapped !! i; b ← multihit !! i; t ← total !! i;
  Some (PrimFloat.div (to_float (wrap64 (a - b))) (to_float t)).

(** [w] has no occurrence of [sep]. *)
Fixpoint free_of (sep : Ascii.ascii) (w : string) : bool :=
  match w with
  | EmptyString => true
  | String c w' => bool_decide (c ≠ sep) && free_of sep w'
  end.

(** The [fastqscreen_] columns that [dtypes(fastqscreen_genomes=genomes)]
    declares for the metrics table. *)
Definition schema_columns (genomes : list string) : list string :=
  ["fastqscreen_nohit"; "fastqscreen_total_reads"; "fastqscreen_nohit_ratio"]
  ++ (genomes ≫= λ genome, ["fastqscreen_" +:+ genome;
                            "fastqscreen_" +:+ genome +:+ "_multihit";
                            "fastqscreen_" +:+ genome +:+ "_ratio"]).

(** The table holds the screen of [genomes]: its [fastqscreen_] columns
    are columns of that schema, each genome has its column of mapped
    reads in the table, and no genome has an underscore in its name or
    is called [nohit] or [total]. *)
Definition screened (df : dataframe) (genomes : list string) : Prop :=
  (∀ col, col ∈ columns df → String.prefix "fastqscreen_" col = true →
     col ∈ schema_columns genomes)
  ∧ ∀ genome, genome ∈ genomes →
      "fastqscreen_" +:+ genome ∈ columns df
      ∧ free_of "_" genome = true
      ∧ genome ∉ ["nohit"; "total"].

(** A table with the counts of two organisms for three cells; the
    unique mouse reads of the cells are 5, 6 and 7 of 100. *)
Definition sample_table : dataframe :=
  DataFrame
    ["cell_id"; "fastqscreen_grch37"; "fastqscreen_grch37_multihit";
     "fastqscreen_mm10"; "fastqscreen_mm10_multihit"; "fastqscreen_nohit";
     "fastqscreen_total_reads"]
    ["A"; "B"; "C"]
    (list_to_map
       [("fastqscreen_grch37", [90; 80; 70]);
        ("fastqscreen_grch37_multihit", [0; 0; 0]);
        ("fastqscreen_mm10", [6; 7; 8]);
        ("fastqscreen_mm10_multihit", [1; 1; 1]);
        ("fastqscreen_nohit", [5; 14; 23]);
        ("fastqscreen_total_reads", [100; 100; 100])]).

End Contamination.

(** * Group merger ([alignment/utils.py]) *)

Module Merger.

(** The calls [merge_cells] makes to the outside, in program order.  None
    of them returns a value that the function looks at, so a run is the
    list of its calls; a call that raises ends the run there. *)
Inductive action :=
  (** [pysam.AlignmentFile(path, "wb", header=header).close()]: a file
      made of the header alone. *)
  | WriteHeaderOnlyBam (path : string) (header : list string)
  (** [helpers.merge_bams(inputs, output, tempdir, ncores)] *)
  | MergeBams (inputs : list string) (output tempdir : string) (ncores : Z)
  (** [get_new_header(cells, bamfile, new_header)] *)
  | GetNewHeader (cells : list string) (bamfile new_header : string)
  (** [reheader(infile, new_header, outfile)] *)
  | Reheader (infile new_header outfile : string)
  (** [helpers.run_cmd(cmd)] *)
  | RunCmd (cmd : list string).

Global Instance action_eq_dec : EqDecision action.
Proof. solve_decision. Defined.

(** [os.path.join(a, b)] for a relative [b]. *)
Definition path_join (a b : string) : string :=
  if bool_decide (a = EmptyString) then b
  else if String.prefix "/" (String.rev a) then a +:+ b
  else a +:+ "/" +:+ b.

Definition samtools_index (infile : string) : list action :=
  [RunCmd ["samtools"; "index"; infile]].

Definition igvtools_count (infile reference : string) : list action :=
  [RunCmd ["igvtools"; "count"; infile; infile +:+ ".tdf"; reference]].

Definition merge_cells (infiles : list (string * string)) (tempdir : string)
    (ncores : Z) (outfile reference : string) (empty_bam_content : list string)
    : list action :=
  (if bool_decide (length (Dict.values infiles) = 0%nat) then
     [WriteHeaderOnlyBam outfile empty_bam_content]
   else
     let final_merge_output := path_join tempdir "merged_all.bam" in
     let new_header := path_join tempdir "header.sam" in
     [MergeBams (Dict.values infiles) final_merge_output tempdir ncores;
      GetNewHeader (Dict.keys infiles) final_merge_output new_header;
      Reheader final_merge_output new_header outfile])
  ++ samtools_index outfile
  ++ igvtools_count outfile reference.

(** Running a list of calls in a world [W] whose external capabilities
    are [exec]: the first call that raises ends the run. *)
Section run.
Context {W : Type} (exec : action → W → exn + W).

Fixpoint run (prog : list action) (w : W) : exn + W :=
  match prog with
  | [] => inr w
  | a :: rest => w' ←! exec a w; run rest w'
  end.
End run.

(** Modelled from the spec: [helpers.run_cmd] and the tools it starts,
    which are not among the sources.  A file system in which they do what
    the specification says of them: the header-only writer creates an
    alignment file with no records, [samtools index] produces the
    random-access index of an alignment file, [igvtools count] produces
    its coverage-count file; both fail without their input. *)
Inductive file :=
  | BamFile (header : list string) (records : list string)
  | IndexFile (source : string)
  | CountFile (source reference : string).

Definition exec_fs (a : action) (fs : gmap string file) : exn + gmap string file :=
  match a with
  | WriteHeaderOnlyBam path header => inr (<[path := BamFile header []]> fs)
  | RunCmd ["samtools"; "index"; infile] =>
      match fs !! infile with
      | Some (BamFile _ _) => inr (<[infile +:+ ".bai" := IndexFile infile]> fs)
      | _ => inl (Exception "samtools index failed")
      end
  | RunCmd ["igvtools"; "count"; infile; out; reference] =>
      match fs !! infile with
      | Some (BamFile _ _) => inr (<[out := CountFile infile reference]> fs)
      | _ => inl (Exception "igvtools count failed")
      end
  | _ => inl (Exception "not modelled")
  end.

End Merger.

(** * Metadata assembler ([alignment/utils.py]) *)

Module Metadata.

(** The fields of a cell in [data['meta']['cells']] that are read. *)
Record cell_info := CellInfo { sample_id : string; library_id : string }.

(** The [meta] block of the output; [lane_ids] is copied from the input. *)
Record meta_block (L : Type) := MetaBlock {
  type_ : string;
  version : string;
  sample_ids : list string;
  library_ids : list string;
  cell_ids : list string;
  lane_ids : L
}.
Arguments MetaBlock {L}.
Arguments type_ {L}.
Arguments version {L}.
Arguments sample_ids {L}.
Arguments library_ids {L}.
Arguments cell_ids {L}.
Arguments lane_ids {L}.

(** [sorted(l)] on strings. *)
Definition sorted (l : list string) : list string := merge_sort String.le l.

(** The loop over [data['meta']['cells']]: the list of cells and the sets
    of sample and library ids. *)
Definition collect (cells_dict : list (string * cell_info))
    : gset string * gset string * list string :=
  foldl (λ '(samples, libraries, cells) '(cell, info),
           (samples ∪ {[sample_id info]}, libraries ∪ {[library_id info]},
            cells ++ [cell]))
        (∅, ∅, []) cells_dict.

(** [generate_metadata], as far as the [meta] block goes: [cells_dict] is
    [data['meta']['cells']], a dictionary, [lane_data] is
    [data['meta']['lanes']] and [__version__] the package version.  The
    [files] block does not depend on the cells. *)
Definition generate_metadata {L : Type} (cells_dict : list (string * cell_info))
    (lane_data : L) (__version__ : string) : meta_block L :=
  let '(samples, libraries, cells) := collect cells_dict in
  MetaBlock "alignment" __version__
    (sorted (elements samples)) (sorted (elements libraries)) (sorted cells)
    lane_data.

(** The three identifier lists of the [meta] block. *)
Definition identifier_lists {L : Type} (m : meta_block L)
    : list string * list string * list string :=
  (sample_ids m, library_ids m, cell_ids m).

(** Three cells of two samples and two libraries. *)
Definition sample_cells : list (string * cell_info) :=
  [("c2", CellInfo "s1" "l1"); ("c1", CellInfo "s1" "l2");
   ("c10", CellInfo "s0" "l1")].

End Metadata.

(** * Genome size ([variant_calling/utils.py]) *)

Module Genome.
Import Intervals.

(** [get_genome_size ref chromosomes], from the point where the names and
    lengths of the reference have been read: the printed number. *)
Definition get_genome_size (names : list string) (lengths : list Z)
    (chromosomes : list string) : Z :=
  foldl (λ genome_size '(name, length),
           if bool_decide (name ∉ chromosomes) then genome_size
           else genome_size + length)
        0 (zip names lengths).

(** The number of positions of [start..end], both inclusive. *)
Definition width (iv : interval) : Z := iend iv - istart iv + 1.

Definition total_width (l : list interval) : Z :=
  foldr (λ iv acc, width iv + acc) 0 l.

(** The sequences of the reference that are targets, in reference order. *)
Definition targets (names : list string) (lengths : list Z)
    (chromosomes : list string) : list (string * Z) :=
  filter (λ p, p.1 ∈ chromosomes) (zip names lengths).

End Genome.

(** * More exceptions *)

(** The scalars of the metadata that the checks below look at: strings
    and booleans. *)
Inductive value :=
  | VStr (s : string)
  | VBool (b : bool).

Global Instance value_eq_dec : EqDecision value.
Proof. solve_decision. Defined.

Global Instance value_countable : Countable value.
Proof.
  refine (inj_countable'
            (λ v, match v with VStr s => inl s | VBool b => inr b end)
            (λ x, match x with inl s => VStr s | inr b => VBool b end) _).
  by intros [].
Defined.

(** The exceptions of the functions below: those above, [IndexError],
    [TypeError], and the two classes that [alignment/utils.py] defines.
    Where the source formats a list into the message, the list itself is
    kept. *)
Inductive error :=
  | Raised (e : exn)
  | IndexError
  | TypeError
  | MissingField (msg : string)
  | MultipleSamplesPerRun (found : list value).

Global Instance error_eq_dec : EqDecision error.
Proof. solve_decision. Defined.

(** Sequencing of computations that may raise one of these. *)
Definition ebind {A B : Type} (m : error + A) (k : A → error + B) : error + B :=
  match m with
  | inl e => inl e
  | inr a => k a
  end.

Notation "x ←? m ; k" := (ebind m (λ x, k))
  (at level 20, m at level 100, k at level 200, only parsing).

(** * The three merges of a run ([alignment/utils.py]) *)

Module Pipeline.
Import Classifier Merger.

(** The calls of [generate_bams] to the outside: those of [merge_cells]
    and [helpers.makedirs]. *)
Inductive step :=
  | MakeDirs (path : string)
  | Call (a : action).

(** What [generate_bams] does for one group: the directory and then the
    calls of [merge_cells]. *)
Definition group_steps (bams : list (string * string)) (tempdir : string)
    (ncores : Z) (outfile reference : string) (header : list string)
    : list step :=
  MakeDirs tempdir
  :: (Call <$> merge_cells bams tempdir ncores outfile reference header).

Section world.
(** The outside: a state [W] and what a call does to it.  Any call may
    raise, and the exception ends the run. *)
Context {W : Type} (exec : step → W → error + W).

(** Making calls in order: the calls made, the one that raised included,
    and the exception raised or the state reached. *)
Fixpoint run_steps (prog : list step) (w : W) : list step * (error + W) :=
  match prog with
  | [] => ([], inr w)
  | s :: rest =>
      match exec s w with
      | inl e => ([s], inl e)
      | inr w' => let '(made, r) := run_steps rest w' in (s :: made, r)
      end
  end.

(** The calls made and the exception that ended the run, if any. *)
Definition outcome (prog : list step) (w : W) : list step * option error :=
  let '(made, r) := run_steps prog w in
  (made, match r with inl e => Some e | inr _ => None end).

(** [generate_bams]: the calls made, in order, and the exception that
    ended the run, if any.  [get_bam_header] reads the header of a file
    through pysam; what it returns is handed on to [merge_cells] and
    never looked at, so it is a parameter here. *)
Definition generate_bams (get_bam_header : string → list string)
    (infiles : list string) (reference : string) (cell_ids : list string)
    (metrics : list metrics_row)
    (control_outfile contaminated_outfile pass_outfile tempdir : string)
    (ncores : Z) (w : W) : list step * option error :=
  match infiles with
  | [] => ([], Some IndexError)
  | first :: _ =>
      let header := get_bam_header first in
      match get_control_files infiles cell_ids metrics with
      | inl e => ([], Some (Raised e))
      | inr control_bams =>
          let control_tempdir := path_join tempdir "control" in
          match run_steps (group_steps control_bams control_tempdir ncores
                             control_outfile reference header) w with
          | (made_control, inl e) => (made_control, Some e)
          | (made_control, inr w) =>
              match get_contaminated_files infiles cell_ids metrics with
              | inl e => (made_control, Some (Raised e))
              | inr contaminated_bams =>
                  let contaminated_tempdir := path_join tempdir "contaminated" in
                  match run_steps (group_steps contaminated_bams
                                     contaminated_tempdir ncores
                                     contaminated_outfile reference header) w with
                  | (made_contaminated, inl e) =>
                      (made_control ++ made_contaminated, Some e)
                  | (made_contaminated, inr w) =>
                      match get_pass_files infiles cell_ids metrics with
                      | inl e =>
                          (made_control ++ made_contaminated, Some (Raised e))
                      | inr pass_bams =>
                          let pass_tempdir := path_join tempdir "pass" in
                          match run_steps (group_steps pass_bams pass_tempdir
                                             ncores pass_outfile reference
                                             header) w with
                          | (made_pass, inl e) =>
                              (made_control ++ made_contaminated ++ made_pass,
                               Some e)
                          | (made_pass, inr _) =>
                              (made_control ++ made_contaminated ++ made_pass,
                               None)
                          end
                      end
                  end
              end
          end
      end
  end.
End world.

(** An outside in which every call returns and nothing is recorded. *)
Definition exec_ok (s : step) (w : unit) : error + unit := inr w.

(** An outside in which [igvtools] is missing: its command raises, every
    other call returns; the state counts the calls that returned. *)
Definition exec_no_igvtools (s : step) (w : nat) : error + nat :=
  match s with
  | Call (RunCmd ("igvtools" :: _)) => inl (Raised (Exception "igvtools: not found"))
  | _ => inr (S w)
  end.

(** The artifacts handed to [helpers.merge_bams], over all calls. *)
Definition merged_inputs (steps : list step) : list string :=
  concat (omap (λ s, match s with
                     | Call (MergeBams inputs _ _ _) => Some inputs
                     | _ => None
                     end) steps).

(** The output files that are written, by a merge and reheader or as a
    header alone. *)
Definition written_outputs (steps : list step) : list string :=
  omap (λ s, match s with
             | Call (Reheader _ _ outfile) => Some outfile
             | Call (WriteHeaderOnlyBam outfile _) => Some outfile
             | _ => None
             end) steps.

(** The commands run through [helpers.run_cmd]. *)
Definition commands (steps : list step) : list (list string) :=
  omap (λ s, match s with Call (RunCmd cmd) => Some cmd | _ => None end) steps.

End Pipeline.

(** * Text files of variant calls ([variant_calling/utils.py]) *)

(** A text file is the list of its lines, each with its line end, as
    iterating over the file gives them. *)
Module VariantFiles.

(** [line.startswith('#')] *)
Definition is_comment (line : string) : bool := String.prefix "#" line.

(** [get_header infile]: the lines before the first one that does not
    start with [#]. *)
Fixpoint get_header (lines : list string) : list string :=
  match lines with
  | [] => []
  | line :: rest =>
      if is_comment line then line :: get_header rest else []
  end.

(** [merge_vcf_files infiles outfile]: what is written to [outfile]. *)
Definition merge_vcf_files (infiles : list (list string)) : exn + list string :=
  match infiles with
  | [] => inl AssertionError
  | first :: _ =>
      inr (foldl (λ written infile,
                    written ++ filter (λ line, is_comment line = false) infile)
                 (get_header first) infiles)
  end.

(** [reader.readline()] for the [n]-th line: the empty string at the end
    of the file. *)
Definition readline (lines : list string) (n : nat) : string :=
  default EmptyString (lines !! n).

(** [line.startswith('#version') or line.startswith('Hugo_Symbol')] *)
Definition is_maf_header (line : string) : bool :=
  String.prefix "#version" line || String.prefix "Hugo_Symbol" line.

(** [merge_mafs infiles output]: what is written to [output]. *)
Definition merge_mafs (infiles : list (list string)) : exn + list string :=
  match infiles with
  | [] => inl AssertionError
  | first :: _ =>
      let header1 := readline first 0 in
      let header2 := readline first 1 in
      if negb (String.prefix "#version" header1) then inl AssertionError
      else if negb (String.prefix "Hugo_Symbol" header2) then inl AssertionError
      else
        inr (foldl (λ written infile,
                      written ++ filter (λ line, is_maf_header line = false) infile)
                   [header1; header2] infiles)
  end.

(** [outfile.write(s)] adds a line, unless [s] is empty. *)
Definition write (written : list string) (s : string) : list string :=
  if bool_decide (s = EmptyString) then written else written ++ [s].

(** [concatenate_csv inputs output]: what is written to [output]. *)
Definition concatenate_csv (inputs : list (list string)) : error + list string :=
  match inputs with
  | [] => inl IndexError
  | first :: _ =>
      let header := readline first 0 in
      inr (foldl (λ written inputfile,
                    written
                    ++ filter (λ line, String.prefix "chrom" line = false) inputfile)
                 (write [] header) inputs)
  end.

(** [infer_type files], from the parsed list [files] of JSON objects with
    string values. *)
Definition infer_type (files : list (list (string * string))) : exn + string :=
  lefts ←! foldr (λ v acc,
                    match Dict.get "left" v with
                    | None => inl (KeyError "left")
                    | Some filetype => rest ←! acc; inr (filetype :: rest)
                    end) (inr []) files;
  let filetypes := Contamination.sorted_set lefts in
  if bool_decide ("consensus_maf" ∈ filetypes) then inr "variant_calling"
  else if bool_decide ("sample_consensus_vcf" ∈ filetypes) then inr "variant_consensus"
  else if bool_decide ("mutect_vcf" ∈ filetypes) then inr "variant_mutect"
  else if bool_decide ("museq_vcf" ∈ filetypes) then inr "variant_museq"
  else if bool_decide ("strelka_indel" ∈ filetypes) then inr "variant_strelka"
  else inl (Exception EmptyString).

(** [_get_sample_id bamfile], from the read groups [bam.header['RG']] of
    the file. *)
Definition _get_sample_id (readgroups : list (list (string * string)))
    : exn + string :=
  samples ←! foldl (λ acc readgroup,
                      samples ←! acc;
                      match Dict.get "SM" readgroup with
                      | None => inl (KeyError "SM")
                      | Some sample => inr (samples ∪ {[sample]})
                      end) (inr (∅ : gset string)) readgroups;
  match elements samples with
  | [sample] => inr sample
  | _ => inl AssertionError
  end.

End VariantFiles.

(** * More tables for the contamination detector *)

Module ContaminationSamples.
Import Contamination.

(** The table [sample_table] with other counts for the reference
    [grch37]. *)
Definition sample_table_other_reference : dataframe :=
  DataFrame (columns sample_table) (cell_id sample_table)
    (<["fastqscreen_grch37" := [1; 2; 3]]>
       (<["fastqscreen_grch37_multihit" := [1; 1; 1]]> (int_data sample_table))).

(** A table with a genome whose name has an underscore. *)
Definition underscore_table : dataframe :=
  DataFrame
    ["cell_id"; "fastqscreen_grch37"; "fastqscreen_grch37_multihit";
     "fastqscreen_homo_sapiens"; "fastqscreen_homo_sapiens_multihit";
     "fastqscreen_total_reads"]
    ["A"]
    (list_to_map
       [("fastqscreen_grch37", [90]);
        ("fastqscreen_grch37_multihit", [0]);
        ("fastqscreen_homo_sapiens", [6]);
        ("fastqscreen_homo_sapiens_multihit", [1]);
        ("fastqscreen_total_reads", [100])]).

End ContaminationSamples.

(** * Validation of the inputs of a run ([alignment/utils.py]) *)

Module Validation.

(** The [meta] section of the metadata: [cells] maps a cell id to the
    fields of the cell, [lanes] maps a flowcell id to its lanes and a
    lane id to the fields of the lane. *)
Record meta_data := MetaData {
  cells : list (string * list (string * value));
  lanes : list (string * list (string * list (string * value)))
}.

(** A lane of a sample in the input JSON, and a sample with its lanes. *)
Record lane_ref := LaneRef { flowcell_id : string; lane_id : string }.
Record sample_input := SampleInput { in_lanes : list lane_ref }.

(** [v == False] *)
Definition is_false (v : value) : bool :=
  match v with
  | VBool false => true
  | _ => false
  end.

(** [[v['sample_id'] for k, v in cells.items() if v['is_control'] == False]] *)
Fixpoint non_control_samples (cells : list (string * list (string * value)))
    : error + list value :=
  match cells with
  | [] => inr []
  | (_, v) :: rest =>
      match Dict.get "is_control" v with
      | None => inl (Raised (KeyError "is_control"))
      | Some c =>
          if is_false c then
            match Dict.get "sample_id" v with
            | None => inl (Raised (KeyError "sample_id"))
            | Some sample => found ←? non_control_samples rest; inr (sample :: found)
            end
          else non_control_samples rest
      end
  end.

Definition is_str (v : value) : bool :=
  match v with VStr _ => true | VBool _ => false end.
Definition get_str (v : value) : option string :=
  match v with VStr s => Some s | VBool _ => None end.
Definition get_bool (v : value) : option bool :=
  match v with VBool b => Some b | VStr _ => None end.

(** [False <= True] *)
Definition bool_le (a b : bool) : Prop := implb a b.

(** [sorted(X)] for a set of scalars: strings sort among themselves and
    booleans among themselves; two elements of different kinds cannot be
    compared, which is a [TypeError]. *)
Definition sorted_values (X : gset value) : error + list value :=
  let l := elements X in
  if bool_decide (length l <= 1)%nat then inr l
  else if forallb is_str l then
    inr (VStr <$> merge_sort String.le (omap get_str l))
  else if forallb (λ v, negb (is_str v)) l then
    inr (VBool <$> merge_sort bool_le (omap get_bool l))
  else inl TypeError.

Definition _check_sample_id_uniqueness (meta : meta_data) : error + unit :=
  found ←? non_control_samples (cells meta);
  non_control_samples ←? sorted_values (list_to_set found);
  if negb (bool_decide (length non_control_samples <= 1)%nat) then
    inl (MultipleSamplesPerRun non_control_samples)
  else inr ().

(** [[v[field_name] for k, v in cells.items()]], a [KeyError] becoming
    [MissingField]. *)
Definition _check_metadata_required_field (meta : meta_data) (field_name : string)
    : error + unit :=
  if forallb (λ kv, bool_decide (is_Some (Dict.get field_name kv.2))) (cells meta)
  then inr ()
  else inl (MissingField
              (field_name +:+ " is required for each cell in meta section of metadata input yaml")).

(** [lane_data[lane['flowcell_id']].add(lane['lane_id'])] on a
    [defaultdict(set)] *)
Definition add_lane (lane_data : list (string * gset string)) (lane : lane_ref)
    : list (string * gset string) :=
  Dict.set (flowcell_id lane)
    (default ∅ (Dict.get (flowcell_id lane) lane_data) ∪ {[lane_id lane]})
    lane_data.

Section set_order.
(** The order in which a set of lane ids is iterated; Python leaves it
    open. *)
Context (set_order : gset string → list string).

(** The first lane of [lanes] that the flowcell of the metadata lacks. *)
Definition check_lanes (meta_lanes : list (string * list (string * value)))
    (flowcell : string) (lanes : list string) : error + unit :=
  match list_find (λ lane_id, Dict.get lane_id meta_lanes = None) lanes with
  | Some (_, lane_id) =>
      inl (MissingField ("missing lane " +:+ lane_id +:+ " for flowcell "
                         +:+ flowcell +:+ " in metadata yaml"))
  | None => inr ()
  end.

Fixpoint check_flowcells (meta : meta_data)
    (lane_data : list (string * gset string)) : error + unit :=
  match lane_data with
  | [] => inr ()
  | (flowcell, lanes_) :: rest =>
      match Dict.get flowcell (lanes meta) with
      | None =>
          inl (MissingField ("missing flowcell " +:+ flowcell +:+ " in metadata yaml"))
      | Some meta_lanes =>
          _ ←? check_lanes meta_lanes flowcell (set_order lanes_);
          check_flowcells meta rest
      end
  end.

Definition _check_lanes_and_flowcells (meta : meta_data)
    (input_data : list sample_input) : error + unit :=
  let lane_data :=
    foldl (λ lane_data val, foldl add_lane lane_data (in_lanes val)) [] input_data in
  check_flowcells meta lane_data.

(** The loop at the end of [input_validation]: the first lane of the
    metadata without a sequencing centre. *)
Definition check_sequencing_centre (meta : meta_data) : error + unit :=
  match list_find (λ fl : string * (string * list (string * value)),
                     Dict.get "sequencing_centre" fl.2.2 = None)
          (flat_map (λ fc, pair fc.1 <$> fc.2) (lanes meta)) with
  | Some (_, (flowcell_id, (lane_id, _))) =>
      inl (MissingField ("sequencing centre missing for flowcell "
                         +:+ flowcell_id +:+ " lane " +:+ lane_id))
  | None => inr ()
  end.

(** [input_validation], from the parsed metadata and input data. *)
Definition input_validation (meta : meta_data) (input_data : list sample_input)
    : error + unit :=
  _ ←? _check_metadata_required_field meta "is_control";
  _ ←? _check_metadata_required_field meta "library_id";
  _ ←? _check_metadata_required_field meta "sample_id";
  _ ←? _check_metadata_required_field meta "pick_met";
  _ ←? _check_metadata_required_field meta "condition";
  _ ←? _check_sample_id_uniqueness meta;
  _ ←? _check_lanes_and_flowcells meta input_data;
  check_sequencing_centre meta.
End set_order.

(** Some metadata: two cells of one sample and a control, one flowcell
    with two lanes. *)
Definition sample_meta : meta_data :=
  MetaData
    [("c1", [("is_control", VBool false); ("library_id", VStr "L1");
             ("sample_id", VStr "S1"); ("pick_met", VStr "C1");
             ("condition", VStr "A")]);
     ("c2", [("is_control", VBool false); ("library_id", VStr "L1");
             ("sample_id", VStr "S1"); ("pick_met", VStr "C1");
             ("condition", VStr "A")]);
     ("c3", [("is_control", VBool true); ("library_id", VStr "L1");
             ("sample_id", VStr "CTRL"); ("pick_met", VStr "C1");
             ("condition", VStr "A")])]
    [("FC1", [("L001", [("sequencing_centre", VStr "BCCRC")]);
              ("L002", [("sequencing_centre", VStr "BCCRC")])])].

Definition sample_input_data : list sample_input :=
  [SampleInput [LaneRef "FC1" "L001"; LaneRef "FC1" "L002"];
   SampleInput [LaneRef "FC1" "L001"]].

(** Metadata with cells of two samples. *)
Definition two_samples : meta_data :=
  MetaData
    [("c1", [("is_control", VBool false); ("sample_id", VStr "S2")]);
     ("c2", [("is_control", VBool true); ("sample_id", VStr "S9")]);
     ("c3", [("is_control", VBool false); ("sample_id", VStr "S1")]);
     ("c4", [("is_control", VBool false); ("sample_id", VStr "S2")])]
    [].

(** The cells that have both fields the uniqueness check reads. *)
Definition has_sample_fields (kv : string * list (string * value)) : Prop :=
  is_Some (Dict.get "is_control" kv.2) ∧ is_Some (Dict.get "sample_id" kv.2).

(** The cell with these fields is not a control. *)
Definition non_control (fields : list (string * value)) : Prop :=
  Dict.get "is_control" fields = Some (VBool false).

(** What the [defaultdict] holds after the lanes [refs] were added. *)
Definition covers (lane_data : list (string * gset string)) (refs : list lane_ref) : Prop :=
  NoDup (Dict.keys lane_data)
  ∧ (∀ flowcell lanes_, Dict.get flowcell lane_data = Some lanes_ →
       lanes_ ≠ ∅ ∧ ∀ lane, lane ∈ lanes_ → LaneRef flowcell lane ∈ refs)
  ∧ (∀ r, r ∈ refs → ∃ lanes_, Dict.get (flowcell_id r) lane_data = Some lanes_
                               ∧ lane_id r ∈ lanes_).

End Validation.

(** * Properties of the float operations *)

(** The rounding that [SpecFloat] performs on mantissas, bit by bit, is
    the rounding of a rational to the nearest integer; from this, the
    float quotient of two integers of at most 53 bits has the ceiling of
    the exact quotient, and the loop bound of [generate_intervals] is the
    exact one for lengths and sizes of at most 51 bits. *)
Module PyFloatProps.
Import PyFloat Intervals.

Lemma new_location_loc (D r : Z) :
  0 < D → 0 <= r < D →
  new_location D r = if r =? 0 then loc_Exact else loc_Inexact (2 * r ?= D).
Proof.
  intros HD Hr. unfold new_location, new_location_even, new_location_odd.
  destruct (Z.even D) eqn:Hev; [done|].
  destruct (r =? 0) eqn:Hr0; [done|]. f_equal.
  assert (Z.odd D = true) as Hodd by (rewrite <- Z.negb_even, Hev; done).
  apply Z.odd_spec in Hodd as [c Hc].
  destruct (Z.compare_spec (2 * r + 1) D) as [Hcmp|Hcmp|Hcmp].
  - symmetry. apply Z.compare_lt_iff. lia.
  - symmetry. apply Z.compare_lt_iff. lia.
  - symmetry. apply Z.compare_gt_iff. lia.
Qed.

Lemma shr_record_of_loc_repr (N D : Z) :
  repr (shr_record_of_loc (N `div` D) (loc N D)) N D.
Proof.
  unfold repr, loc. destruct (_ =? 0); [done|].
  by destruct (_ ?= _).
Qed.

Lemma div_2D (N D : Z) :
  0 <= N → 0 < D →
  N `div` (2 * D) = (N `div` D) `div` 2
  ∧ N `mod` (2 * D) = ((N `div` D) `mod` 2) * D + N `mod` D.
Proof.
  intros HN HD.
  pose proof (Z.div_mod N D ltac:(lia)) as H1.
  pose proof (Z.mod_pos_bound N D ltac:(lia)) as H2.
  pose proof (Z.div_mod (N `div` D) 2 ltac:(lia)) as H3.
  pose proof (Z.mod_pos_bound (N `div` D) 2 ltac:(lia)) as H4.
  assert (N = (N `div` D) `div` 2 * (2 * D) + ((N `div` D) `mod` 2 * D + N `mod` D)) as Heq by nia.
  assert (0 <= (N `div` D) `mod` 2 * D + N `mod` D < 2 * D) as Hb by nia.
  split.
  - symmetry. apply (Z.div_unique N (2 * D) _ ((N `div` D) `mod` 2 * D + N `mod` D)); [lia|lia].
  - symmetry. apply (Z.mod_unique N (2 * D) ((N `div` D) `div` 2)); [lia|lia].
Qed.

Lemma shr_1_repr (mrs : shr_record) (N D : Z) :
  0 <= N → 0 < D → repr mrs N D → repr (shr_1 mrs) N (2 * D).
Proof.
  intros HN HD [Hm Hl].
  destruct (div_2D N D HN HD) as [Hq Hr].
  pose proof (Z.mod_pos_bound N D ltac:(lia)) as Hb.
  pose proof (Z.div_pos N D ltac:(lia) ltac:(lia)) as Hq0.
  set (q := N `div` D) in *. set (r := N `mod` D) in *.
  assert (shr_r mrs || shr_s mrs = negb (r =? 0)) as Hs.
  { destruct mrs as [m [] []]; cbn in Hl |- *; unfold loc in Hl; fold r in Hl;
      destruct (r =? 0); try done; destruct (_ ?= _); done. }
  assert (shr_1 mrs = Build_shr_record (q `div` 2) (Z.odd q) (negb (r =? 0))) as ->.
  { destruct mrs as [m rr ss]. cbn in Hm, Hs. subst m. cbn [shr_1]. rewrite Hs.
    destruct q as [|[p|p|]|p]; try done; try lia.
    - cbn [Z.odd]. f_equal. rewrite Pos2Z.inj_xI.
      apply (Z.div_unique _ 2 _ 1); lia.
    - cbn [Z.odd]. f_equal. rewrite Pos2Z.inj_xO.
      apply (Z.div_unique _ 2 _ 0); lia. }
  split; [cbn; lia|].
  unfold loc. rewrite Hr. cbn [loc_of_shr_record].
  pose proof (Z.mod_pos_bound q 2 ltac:(lia)) as Hq2.
  rewrite Zmod_odd in *.
  destruct (Z.odd q); destruct (r =? 0) eqn:Hr0; cbn [negb].
  - apply Z.eqb_eq in Hr0. rewrite Hr0.
    replace (1 * D + 0 =? 0) with false by (symmetry; apply Z.eqb_neq; lia).
    f_equal. symmetry. apply Z.compare_eq_iff. lia.
  - apply Z.eqb_neq in Hr0.
    replace (1 * D + r =? 0) with false by (symmetry; apply Z.eqb_neq; lia).
    f_equal. symmetry. apply Z.compare_gt_iff. lia.
  - apply Z.eqb_eq in Hr0. rewrite Hr0. done.
  - apply Z.eqb_neq in Hr0.
    replace (0 * D + r =? 0) with false by (symmetry; apply Z.eqb_neq; lia).
    f_equal. symmetry. apply Z.compare_lt_iff. lia.
Qed.

Lemma iter_pos_shr_repr (p : positive) : ∀ (mrs : shr_record) (N D : Z),
  0 <= N → 0 < D → repr mrs N D → repr (SpecFloat.iter_pos shr_1 p mrs) N (2 ^ Z.pos p * D).
Proof.
  induction p as [p IH|p IH|]; intros mrs N D HN HD Hr; cbn [SpecFloat.iter_pos].
  - replace (2 ^ Z.pos p~1 * D) with (2 ^ Z.pos p * (2 ^ Z.pos p * (2 * D))).
    2:{ replace (Z.pos p~1) with (Z.pos p + Z.pos p + 1) by lia.
        rewrite !Z.pow_add_r by lia. ring. }
    apply IH; [lia|lia|]. apply IH; [lia|lia|]. by apply shr_1_repr.
  - replace (2 ^ Z.pos p~0 * D) with (2 ^ Z.pos p * (2 ^ Z.pos p * D)).
    2:{ replace (Z.pos p~0) with (Z.pos p + Z.pos p) by lia.
        rewrite !Z.pow_add_r by lia. ring. }
    apply IH; [lia|lia|]. by apply IH.
  - change (2 ^ 1 * D) with (2 * D). by apply shr_1_repr.
Qed.

Lemma round_repr (mrs : shr_record) (N D : Z) :
  0 < D → repr mrs N D →
  round_nearest_even (shr_m mrs) (loc_of_shr_record mrs) = rne N D.
Proof.
  intros HD [Hm Hl]. rewrite Hm, Hl. unfold loc, rne, round_nearest_even.
  pose proof (Z.mod_pos_bound N D ltac:(lia)) as Hb.
  destruct (N `mod` D =? 0) eqn:Hr0.
  - apply Z.eqb_eq in Hr0. rewrite Hr0.
    destruct (Z.compare_spec (2 * 0) D); [lia|done|lia].
  - by destruct (_ ?= _).
Qed.

Lemma digits2_bounds (p : positive) :
  2 ^ (Z.pos (digits2_pos p) - 1) <= Z.pos p < 2 ^ Z.pos (digits2_pos p).
Proof.
  induction p as [p IH|p IH|]; cbn [digits2_pos].
  - rewrite Pos2Z.inj_succ, Pos2Z.inj_xI.
    replace (Z.succ (Z.pos (digits2_pos p)) - 1) with (Z.succ (Z.pos (digits2_pos p) - 1)) by lia.
    rewrite !Z.pow_succ_r by lia.
    revert IH. generalize (2 ^ (Z.pos (digits2_pos p) - 1)) (2 ^ Z.pos (digits2_pos p)). intros. lia.
  - rewrite Pos2Z.inj_succ. change (Z.pos p~0) with (2 * Z.pos p).
    replace (Z.succ (Z.pos (digits2_pos p)) - 1) with (Z.succ (Z.pos (digits2_pos p) - 1)) by lia.
    rewrite !Z.pow_succ_r by lia.
    revert IH. generalize (2 ^ (Z.pos (digits2_pos p) - 1)) (2 ^ Z.pos (digits2_pos p)). intros. lia.
  - done.
Qed.

Lemma Zdigits2_bounds (m : Z) :
  0 < m → 0 < Zdigits2 m ∧ 2 ^ (Zdigits2 m - 1) <= m < 2 ^ Zdigits2 m.
Proof.
  destruct m as [|p|p]; [lia| |lia]. intros _. cbn [Zdigits2].
  split; [lia|]. apply digits2_bounds.
Qed.

Lemma Zdigits2_unique (m d : Z) :
  2 ^ (d - 1) <= m < 2 ^ d → 0 < d → Zdigits2 m = d.
Proof.
  intros Hm Hd.
  assert (0 < m) as Hpos.
  { pose proof (Z.pow_pos_nonneg 2 (d - 1) ltac:(lia) ltac:(lia)). lia. }
  destruct (Zdigits2_bounds m Hpos) as [Hd' Hb].
  destruct (Z.lt_trichotomy (Zdigits2 m) d) as [Hlt|[Heq|Hgt]]; [|done|].
  - pose proof (Z.pow_le_mono_r 2 (Zdigits2 m) (d - 1) ltac:(lia) ltac:(lia)). lia.
  - pose proof (Z.pow_le_mono_r 2 d (Zdigits2 m - 1) ltac:(lia) ltac:(lia)). lia.
Qed.

Lemma loc_exact (M : Z) : loc M 1 = loc_Exact.
Proof. unfold loc. by rewrite Z.mod_1_r. Qed.

Lemma shr_fexp_repr (m e : Z) (l : location) (N D k : Z) :
  0 <= N → 0 < D → m = N `div` D → l = loc N D →
  k = fexp prec emax (Zdigits2 m + e) - e →
  ∃ mrs, shr_fexp prec emax m e l = (mrs, e + Z.max k 0)
         ∧ repr mrs N (2 ^ Z.max k 0 * D).
Proof.
  intros HN HD -> -> Hk. unfold shr_fexp. rewrite <- Hk.
  pose proof (shr_record_of_loc_repr N D) as Hr.
  destruct k as [|p|p]; cbn [shr].
  - eexists. split; [by rewrite Z.add_0_r|]. cbn. by rewrite Z.mul_1_l.
  - eexists. split; [done|]. rewrite Z.max_l by lia. by apply iter_pos_shr_repr.
  - eexists. split; [by rewrite Z.max_r, Z.add_0_r by lia|].
    rewrite Z.max_r by lia. cbn. by rewrite Z.mul_1_l.
Qed.

Lemma rne_floor (N D : Z) :
  0 < D → N `div` D <= rne N D <= N `div` D + 1.
Proof.
  intros HD. unfold rne. destruct (_ ?= _); [destruct (Z.even _)| |]; lia.
Qed.

(** Rounding a location in the normal range. *)
Lemma round_aux_normal (sx : bool) (N D ex : Z) :
  0 <= N → 0 < D → 2 ^ 52 <= N `div` D →
  - 1074 <= Zdigits2 (N `div` D) + ex - 53 →
  Zdigits2 (N `div` D) + ex - 53 + 1 <= 971 →
  let k1 := Zdigits2 (N `div` D) - 53 in
  let M := rne N (2 ^ k1 * D) in
  ∃ m e j, binary_round_aux prec emax sx (N `div` D) ex (loc N D) = S754_finite sx m e
    ∧ (j = 0 ∨ j = 1) ∧ e = ex + k1 + j ∧ Z.pos m * 2 ^ j = M
    ∧ 0 <= k1 ∧ 2 ^ 52 <= N `div` (2 ^ k1 * D) < 2 ^ 53
    ∧ 2 ^ 52 <= Z.pos m < 2 ^ 53.
Proof.
  intros HN HD Hq Hlo Hhi k1 M.
  destruct (Zdigits2_bounds (N `div` D) ltac:(lia)) as [Hd Hdb].
  set (d := Zdigits2 (N `div` D)) in *.
  assert (53 <= d) as Hd53.
  { destruct (Z.le_gt_cases 53 d) as [?|Hlt]; [done|].
    pose proof (Z.pow_le_mono_r 2 d 52 ltac:(lia) ltac:(lia)). lia. }
  assert (0 <= k1) as Hk1 by (unfold k1; lia).
  assert (0 < 2 ^ k1) as Hpk by (apply Z.pow_pos_nonneg; lia).
  assert (2 ^ 52 <= N `div` (2 ^ k1 * D) < 2 ^ 53) as Hq'.
  { rewrite (Z.mul_comm (2 ^ k1) D), <- Z.div_div by lia.
    assert (2 ^ (d - 1) = 2 ^ 52 * 2 ^ k1) as E1.
    { rewrite <- Z.pow_add_r by lia. f_equal. unfold k1. lia. }
    assert (2 ^ d = 2 ^ 53 * 2 ^ k1) as E2.
    { rewrite <- Z.pow_add_r by lia. f_equal. unfold k1. lia. }
    split.
    - apply Z.div_le_lower_bound; lia.
    - apply Z.div_lt_upper_bound; lia. }
  unfold binary_round_aux.
  destruct (shr_fexp_repr (N `div` D) ex (loc N D) N D k1 HN HD eq_refl eq_refl)
    as (mrs' & -> & Hr').
  { unfold fexp, emin, prec, emax. fold d. unfold k1. lia. }
  rewrite Z.max_l in Hr' |- * by lia.
  rewrite (round_repr mrs' N (2 ^ k1 * D)) by (lia || done). fold M.
  pose proof (rne_floor N (2 ^ k1 * D) ltac:(lia)) as HM. fold M in HM.
  assert (2 ^ 52 <= M <= 2 ^ 53) as HMb by lia.
  destruct (decide (M = 2 ^ 53)) as [HM53|HMne].
  - destruct (shr_fexp_repr M (ex + k1) loc_Exact M 1 1) as (mrs'' & -> & [Hm'' _]).
    { lia. } { lia. } { by rewrite Z.div_1_r. } { by rewrite loc_exact. }
    { rewrite HM53. unfold fexp, emin, prec, emax.
      change (Zdigits2 (2 ^ 53)) with 54. unfold k1. lia. }
    rewrite Hm''. change (2 ^ Z.max 1 0 * 1) with 2. rewrite HM53.
    change (2 ^ 53 `div` 2) with (Z.pos (2 ^ 52)%positive).
    cbn match. rewrite (proj2 (Z.leb_le _ _)) by (unfold emax, prec, k1; lia).
    exists (2 ^ 52)%positive, (ex + k1 + 1), 1. split_and!; try done; try lia; try (by right).
  - assert (Zdigits2 M = 53) as HdM by (apply Zdigits2_unique; lia).
    destruct (shr_fexp_repr M (ex + k1) loc_Exact M 1 0) as (mrs'' & -> & [Hm'' _]).
    { lia. } { lia. } { by rewrite Z.div_1_r. } { by rewrite loc_exact. }
    { rewrite HdM. unfold fexp, emin, prec, emax. unfold k1. lia. }
    rewrite Hm''. change (2 ^ Z.max 0 0 * 1) with 1. rewrite Z.div_1_r.
    destruct M as [|pm|pm] eqn:HMeq; [lia| |lia].
    cbn match. rewrite (proj2 (Z.leb_le _ _)) by (unfold emax, prec, k1; lia).
    exists pm, (ex + k1 + 0), 0. split_and!; try done; try lia; try (by left).
Qed.

Lemma div_eucl_div_mod (a b : Z) : Z.div_eucl a b = (a `div` b, a `mod` b).
Proof. unfold Z.div, Z.modulo. by destruct (Z.div_eucl a b). Qed.

Lemma loc_new_location (N D : Z) :
  0 < D → new_location D (N `mod` D) = loc N D.
Proof.
  intros HD. rewrite new_location_loc; [done|lia|]. apply Z.mod_pos_bound. lia.
Qed.

(** Division of two positive finite numbers whose quotient is a normal
    number. *)
Lemma SFdiv_normal (sx sy : bool) (mx my : positive) (ex ey : Z) :
  let x := Z.pos (digits2_pos mx) + ex - (Z.pos (digits2_pos my) + ey) in
  - 1021 <= x → x <= 1022 →
  ∃ m e j s k1,
    SFdiv prec emax (S754_finite sx mx ex) (S754_finite sy my ey)
    = S754_finite (xorb sx sy) m e
    ∧ (j = 0 ∨ j = 1) ∧ 0 <= s ∧ 0 <= k1
    ∧ e = ex - ey - s + k1 + j
    ∧ Z.pos m * 2 ^ j = rne (Z.pos mx * 2 ^ s) (2 ^ k1 * Z.pos my)
    ∧ 2 ^ 52 <= (Z.pos mx * 2 ^ s) `div` (2 ^ k1 * Z.pos my) < 2 ^ 53
    ∧ 2 ^ 52 <= Z.pos m < 2 ^ 53.
Proof.
  intros x Hlo Hhi.
  pose proof (digits2_bounds mx) as Hd1. pose proof (digits2_bounds my) as Hd2.
  set (d1 := Z.pos (digits2_pos mx)) in *. set (d2 := Z.pos (digits2_pos my)) in *.
  assert (0 < d1) as Hd1p by (unfold d1; lia).
  assert (0 < d2) as Hd2p by (unfold d2; lia).
  cbn [SFdiv]. unfold SFdiv_core_binary. cbn [Zdigits2]. fold d1 d2. fold x.
  assert (fexp prec emax x = x - 53) as -> by (unfold fexp, emin, prec, emax; lia).
  set (e' := Z.min (x - 53) (ex - ey)).
  set (s := ex - ey - e').
  assert (0 <= s) as Hs by (unfold s, e'; lia).
  assert (53 + d2 - d1 <= s) as Hs' by (unfold s, e', x; lia).
  assert (match s with
          | 0 => Z.pos mx
          | Z.pos _ => Z.shiftl (Z.pos mx) s
          | Z.neg _ => 0
          end = Z.pos mx * 2 ^ s) as ->.
  { destruct s as [|p|p] eqn:Hseq; [lia| |lia]. by rewrite Z.shiftl_mul_pow2. }
  rewrite div_eucl_div_mod.
  set (N := Z.pos mx * 2 ^ s). set (D := Z.pos my).
  assert (0 < 2 ^ s) as Hps by (apply Z.pow_pos_nonneg; lia).
  rewrite (loc_new_location N D) by (unfold D; lia).
  (* bounds on the quotient *)
  assert (2 ^ (d1 + s - d2 - 1) <= N `div` D < 2 ^ (d1 + s - d2 + 1)) as Hq.
  { assert (2 ^ (d1 + s - d2 - 1) * 2 ^ d2 = 2 ^ (d1 - 1) * 2 ^ s) as E1.
    { rewrite <- !Z.pow_add_r by lia. f_equal. lia. }
    assert (2 ^ (d1 + s - d2 + 1) * 2 ^ (d2 - 1) = 2 ^ d1 * 2 ^ s) as E2.
    { rewrite <- !Z.pow_add_r by lia. f_equal. lia. }
    assert (0 < 2 ^ (d1 + s - d2 - 1)) by (apply Z.pow_pos_nonneg; lia).
    assert (0 < 2 ^ (d1 + s - d2 + 1)) by (apply Z.pow_pos_nonneg; lia).
    split.
    - apply Z.div_le_lower_bound; [unfold D; lia|]. unfold N, D. nia.
    - apply Z.div_lt_upper_bound; [unfold D; lia|]. unfold N, D. nia. }
  assert (2 ^ 52 <= N `div` D) as Hq52.
  { pose proof (Z.pow_le_mono_r 2 52 (d1 + s - d2 - 1) ltac:(lia) ltac:(lia)). lia. }
  assert (Zdigits2 (N `div` D) = d1 + s - d2 ∨ Zdigits2 (N `div` D) = d1 + s - d2 + 1)
    as Hdq.
  { destruct (decide (N `div` D < 2 ^ (d1 + s - d2))) as [Hlt|Hge].
    - left. apply Zdigits2_unique; lia.
    - right. apply Zdigits2_unique; [|lia].
      replace (d1 + s - d2 + 1 - 1) with (d1 + s - d2) by lia. lia. }
  assert (e' <= x - 53) as He' by (unfold e'; lia).
  assert (d1 + s - d2 + e' = x) as Hx by (unfold s, x; lia).
  destruct (round_aux_normal (xorb sx sy) N D e') as (m & e & j & Hr & Hj & He & HM & Hk1 & Hfl & Hm).
  { unfold N. lia. } { unfold D. lia. } { done. } { lia. } { lia. }
  exists m, e, j, s, (Zdigits2 (N `div` D) - 53).
  split_and!; try done; try (unfold s in He |- *; lia); apply Hfl.
Qed.

(** ** Nearest integers *)

Lemma rne_scale (c N D : Z) : 0 < c → 0 < D → rne (c * N) (c * D) = rne N D.
Proof.
  intros Hc HD. unfold rne.
  rewrite Z.div_mul_cancel_l, Z.mul_mod_distr_l by lia.
  replace (2 * (c * (N `mod` D))) with (c * (2 * (N `mod` D))) by lia.
  by rewrite <- Zmult_compare_compat_l by lia.
Qed.

Lemma rne_le (N D c : Z) : 0 < D → N <= c * D → rne N D <= c.
Proof.
  intros HD Hc. unfold rne.
  pose proof (Z.div_mod N D ltac:(lia)) as Hdm.
  pose proof (Z.mod_pos_bound N D ltac:(lia)) as Hb.
  assert (N `div` D <= c) as Hq by (apply Z.div_le_upper_bound; lia).
  destruct (Z.compare_spec (2 * (N `mod` D)) D) as [H|H|H];
    [destruct (Z.even _)|..]; try lia; nia.
Qed.

Lemma rne_ge (N D c : Z) : 0 < D → c * D <= N → c <= rne N D.
Proof.
  intros HD Hc. unfold rne.
  assert (c <= N `div` D) as Hq by (apply Z.div_le_lower_bound; lia).
  destruct (_ ?= _); [destruct (Z.even _)|..]; lia.
Qed.

Lemma rne_near (N D : Z) :
  0 < D → 2 * N - D <= 2 * D * rne N D <= 2 * N + D.
Proof.
  intros HD. unfold rne.
  pose proof (Z.div_mod N D ltac:(lia)) as Hdm.
  pose proof (Z.mod_pos_bound N D ltac:(lia)) as Hb.
  destruct (Z.compare_spec (2 * (N `mod` D)) D) as [H|H|H];
    [destruct (Z.even _)|..]; nia.
Qed.

Lemma pos_iter_xO (m p : positive) :
  Z.pos (Pos.iter xO m p) = Z.pos m * 2 ^ Z.pos p.
Proof.
  induction p as [|p IH] using Pos.peano_ind.
  - cbn [Pos.iter]. lia.
  - rewrite Pos.iter_succ, Pos2Z.inj_succ, Z.pow_succ_r by lia.
    change (Z.pos (Pos.iter xO m p)~0) with (2 * Z.pos (Pos.iter xO m p)).
    rewrite IH. ring.
Qed.

(** [float(a)] for [0 < a < 2^53] holds [a] itself, on 53 bits. *)
Lemma binary_normalize_small (a : Z) (s : bool) :
  0 < a < 2 ^ 53 →
  ∃ m e, binary_normalize prec emax (if s then - a else a) 0 false = S754_finite s m e
    ∧ - 52 <= e <= 0 ∧ Z.pos m = a * 2 ^ (- e) ∧ Z.pos (digits2_pos m) = 53.
Proof.
  intros Ha. destruct a as [|pa|pa]; [lia| |lia].
  assert (binary_normalize prec emax (if s then - Z.pos pa else Z.pos pa) 0 false
          = binary_round prec emax s pa 0) as -> by by destruct s.
  unfold binary_round.
  pose proof (digits2_bounds pa) as Hd. set (d := Z.pos (digits2_pos pa)) in *.
  assert (0 < d <= 53) as Hd53.
  { split; [unfold d; lia|].
    destruct (Z.le_gt_cases d 53) as [?|Hgt]; [done|].
    pose proof (Z.pow_le_mono_r 2 53 (d - 1) ltac:(lia) ltac:(lia)). lia. }
  rewrite Z.add_0_r.
  assert (fexp prec emax d = d - 53) as -> by (unfold fexp, emin, prec, emax; lia).
  assert (∃ mz, shl_align pa 0 (d - 53) = (mz, d - 53)
                ∧ Z.pos mz = Z.pos pa * 2 ^ (53 - d)) as (mz & -> & Hmz).
  { unfold shl_align. rewrite Z.sub_0_r.
    destruct (d - 53) as [|p|p] eqn:Hdp; [|lia|].
    - exists pa. split; [done|]. replace (53 - d) with 0 by lia. lia.
    - exists (Pos.iter xO pa p). split; [done|].
      rewrite pos_iter_xO. do 2 f_equal. lia. }
  assert (2 ^ 52 <= Z.pos mz < 2 ^ 53) as Hmzb.
  { rewrite Hmz.
    assert (2 ^ (d - 1) * 2 ^ (53 - d) = 2 ^ 52) as E1
      by (rewrite <- Z.pow_add_r by lia; f_equal; lia).
    assert (2 ^ d * 2 ^ (53 - d) = 2 ^ 53) as E2
      by (rewrite <- Z.pow_add_r by lia; f_equal; lia).
    assert (0 < 2 ^ (53 - d)) by (apply Z.pow_pos_nonneg; lia). nia. }
  assert (Zdigits2 (Z.pos mz) = 53) as Hdz by (apply Zdigits2_unique; lia).
  destruct (round_aux_normal s (Z.pos mz) 1 (d - 53))
    as (m & e & j & Hr & Hj & He & HM & Hk1 & Hfl & Hm).
  { lia. } { lia. } { rewrite Z.div_1_r. lia. }
  { rewrite Z.div_1_r, Hdz. lia. } { rewrite Z.div_1_r, Hdz. lia. }
  rewrite Z.div_1_r, loc_exact in Hr. rewrite Hr.
  rewrite Z.div_1_r, Hdz in He, HM. 
  change (2 ^ (53 - 53) * 1) with 1 in HM.
  assert (rne (Z.pos mz) 1 = Z.pos mz) as HM1.
  { unfold rne. rewrite Z.mod_1_r, Z.div_1_r. done. }
  rewrite HM1 in HM.
  assert (j = 0) as -> by (destruct Hj as [->| ->]; [done|lia]).
  exists m, e. split; [done|]. rewrite Z.mul_1_r in HM.
  assert (e = d - 53) as -> by lia.
  split_and!; [lia|lia| |].
  - rewrite HM, Hmz. do 2 f_equal. lia.
  - change (Z.pos (digits2_pos m)) with (Zdigits2 (Z.pos m)). by rewrite HM.
Qed.


(** ** The quotient of two integers, as a float *)

Lemma div_floats_quotient (sa sn : bool) (a n : Z) (ma mn : positive) (ea en : Z) :
  0 < a < 2 ^ 53 → 0 < n →
  ea <= 0 → Z.pos ma = a * 2 ^ (- ea) →
  en <= 0 → Z.pos mn = n * 2 ^ (- en) →
  - 1021 <= Z.pos (digits2_pos ma) + ea - (Z.pos (digits2_pos mn) + en) <= 1022 →
  quotient_of (SFdiv prec emax (S754_finite sa ma ea) (S754_finite sn mn en))
    (xorb sa sn) a n.
Proof.
  intros Ha Hn Hea Hma Hen Hmn Hrange.
  destruct (SFdiv_normal sa sn ma mn ea en)
    as (m & e & j & s & k1 & Hdiv & Hj & Hs & Hk1 & He & HM & Hfl & Hm).
  { lia. } { lia. }
  set (P := s - ea). set (Q := k1 - en).
  assert (0 < 2 ^ (- ea)) by (apply Z.pow_pos_nonneg; lia).
  assert (0 < 2 ^ (- en)) by (apply Z.pow_pos_nonneg; lia).
  assert (0 < 2 ^ s) by (apply Z.pow_pos_nonneg; lia).
  assert (0 < 2 ^ k1) by (apply Z.pow_pos_nonneg; lia).
  assert (Z.pos ma * 2 ^ s = a * 2 ^ P) as EN.
  { rewrite Hma. unfold P. replace (s - ea) with (- ea + s) by lia.
    rewrite Z.pow_add_r by lia. ring. }
  assert (2 ^ k1 * Z.pos mn = n * 2 ^ Q) as ED.
  { rewrite Hmn. unfold Q. replace (k1 - en) with (k1 + - en) by lia.
    rewrite Z.pow_add_r by lia. ring. }
  rewrite EN, ED in HM, Hfl.
  assert (0 < 2 ^ P) by (apply Z.pow_pos_nonneg; unfold P; lia).
  assert (0 < 2 ^ Q) by (apply Z.pow_pos_nonneg; unfold Q; lia).
  assert (2 ^ 52 * (n * 2 ^ Q) <= a * 2 ^ P < 2 ^ 53 * (n * 2 ^ Q)) as Hlow.
  { pose proof (Z.div_mod (a * 2 ^ P) (n * 2 ^ Q) ltac:(nia)) as Hdm.
    pose proof (Z.mod_pos_bound (a * 2 ^ P) (n * 2 ^ Q) ltac:(nia)) as Hb.
    nia. }
  assert (Q <= P) as HQP.
  { destruct (Z.le_gt_cases Q P) as [?|Hgt]; [done|].
    pose proof (Z.pow_le_mono_r 2 (P + 1) Q ltac:(lia) ltac:(lia)) as Hp.
    rewrite Z.pow_add_r in Hp by (unfold P; lia). nia. }
  assert (2 ^ P = 2 ^ Q * 2 ^ (P - Q)) as EP.
  { rewrite <- Z.pow_add_r by (unfold Q; lia). f_equal. lia. }
  exists m, e, (P - Q). rewrite Hdiv. split; [done|].
  assert (e + (P - Q) = j) as Hej by (unfold P, Q; lia).
  rewrite Hej. split_and!; [lia|lia| |rewrite EP in Hlow; nia..].
  rewrite HM, EP.
  replace (a * (2 ^ Q * 2 ^ (P - Q))) with (2 ^ Q * (a * 2 ^ (P - Q))) by ring.
  replace (n * 2 ^ Q) with (2 ^ Q * n) by ring.
  by rewrite rne_scale by lia.
Qed.

Lemma ceil_scaled (m : positive) (e K M : Z) :
  0 <= K → 0 <= e + K → Z.pos m * 2 ^ (e + K) = M →
  ceil (S754_finite false m e) = inr (- ((- M) `div` 2 ^ K))
  ∧ ceil (S754_finite true m e) = inr (- (M `div` 2 ^ K)).
Proof.
  intros HK HeK HM. cbn [ceil]. case_bool_decide as He.
  - assert (M = Z.pos m * 2 ^ e * 2 ^ K) as ->.
    { rewrite <- HM, Z.pow_add_r by lia. ring. }
    assert (0 < 2 ^ K) by (apply Z.pow_pos_nonneg; lia).
    rewrite <- Z.mul_opp_l, !Z.div_mul by lia. split; f_equal; lia.
  - assert (2 ^ K = 2 ^ (- e) * 2 ^ (e + K)) as ->.
    { rewrite <- Z.pow_add_r by lia. f_equal. lia. }
    assert (0 < 2 ^ (e + K)) by (apply Z.pow_pos_nonneg; lia).
    assert (0 < 2 ^ (- e)) by (apply Z.pow_pos_nonneg; lia).
    rewrite <- HM, <- Z.mul_opp_l, !Z.div_mul_cancel_r by lia. done.
Qed.

(** The ceiling of the rounded quotient is the ceiling of the exact
    one. *)
Lemma quotient_ceil (f : spec_float) (s : bool) (a n : Z) :
  quotient_of f s a n → 0 < a < 2 ^ 53 → 0 < n →
  ceil f = inr (if s then - (a `div` n) else ceil_div a n).
Proof.
  intros (m & e & K & -> & HK & HeK & HM & Hlow) Ha Hn.
  destruct (ceil_scaled m e K _ HK HeK HM) as [Hpos Hneg].
  assert (0 < 2 ^ K) as HpK by (apply Z.pow_pos_nonneg; lia).
  assert (n < 2 * 2 ^ K) as HnK by nia.
  pose proof (rne_near (a * 2 ^ K) n Hn) as Hnear.
  set (M := rne (a * 2 ^ K) n) in *.
  destruct s.
  - rewrite Hneg. do 2 f_equal.
    pose proof (Z.div_mod a n ltac:(lia)) as Hdm.
    pose proof (Z.mod_pos_bound a n ltac:(lia)) as Hb.
    set (k := a `div` n) in *.
    assert (k * 2 ^ K <= M) as H1 by (apply rne_ge; [done|]; nia).
    assert (M < (k + 1) * 2 ^ K) as H2 by nia.
    symmetry. apply (Z.div_unique M (2 ^ K) k (M - k * 2 ^ K)); lia.
  - rewrite Hpos. unfold ceil_div. do 2 f_equal.
    pose proof (Z.div_mod (- a) n ltac:(lia)) as Hdm.
    pose proof (Z.mod_pos_bound (- a) n ltac:(lia)) as Hb.
    set (k := (- a) `div` n) in *.
    assert (M <= (- k) * 2 ^ K) as H1 by (apply rne_le; [done|]; nia).
    assert ((- k - 1) * 2 ^ K < M) as H2 by nia.
    symmetry. apply (Z.div_unique (- M) (2 ^ K) k (- M - k * 2 ^ K)); lia.
Qed.

Lemma of_int_small (a : Z) :
  0 < Z.abs a < 2 ^ 53 →
  ∃ m e, of_int a = inr (S754_finite (bool_decide (a < 0)) m e)
    ∧ - 52 <= e <= 0 ∧ Z.pos m = Z.abs a * 2 ^ (- e) ∧ Z.pos (digits2_pos m) = 53.
Proof.
  intros Ha. unfold of_int.
  destruct (binary_normalize_small (Z.abs a) (bool_decide (a < 0)) Ha)
    as (m & e & Hn & He & Hm & Hd).
  assert ((if bool_decide (a < 0) then - Z.abs a else Z.abs a) = a) as Heq
    by (case_bool_decide; lia).
  rewrite Heq in Hn. rewrite Hn. by exists m, e.
Qed.

(** Within 53 bits the computed interval size is the ceiling of the
    exact quotient. *)
Lemma intervalsize_exact (start end_ num_splits : Z) :
  Z.abs (end_ - start) < 2 ^ 53 → 1 <= num_splits < 2 ^ 53 →
  intervalsize start end_ num_splits = inr (ceil_div (end_ - start) num_splits).
Proof.
  intros Ha Hn. unfold intervalsize.
  destruct (of_int_small num_splits ltac:(lia)) as (mn & en & Hofn & Hen & Hmn & Hdn).
  rewrite bool_decide_eq_false_2 in Hofn by lia.
  rewrite Z.abs_eq in Hmn by lia.
  destruct (decide (end_ - start = 0)) as [->|Hne].
  - unfold div_int. rewrite Hofn. done.
  - destruct (of_int_small (end_ - start) ltac:(lia)) as (ma & ea & Hofa & Hea & Hma & Hda).
    rewrite Hofa. cbn [bind]. unfold div_int. rewrite Hofn. cbn [bind].
    pose proof (div_floats_quotient (bool_decide (end_ - start < 0)) false
                  (Z.abs (end_ - start)) num_splits ma mn ea en
                  ltac:(lia) ltac:(lia) ltac:(lia) Hma ltac:(lia) Hmn ltac:(lia)) as Hq.
    rewrite (quotient_ceil _ _ _ _ Hq) by lia. f_equal.
    rewrite xorb_false_r. case_bool_decide as Hneg.
    + unfold ceil_div. rewrite Z.abs_neq by lia. done.
    + by rewrite Z.abs_eq by lia.
Qed.

(** ** Addition *)

Lemma shl_align_fst (m : positive) (e ez : Z) :
  ez <= e → Z.pos (shl_align m e ez).1 = Z.pos m * 2 ^ (e - ez).
Proof.
  intros He. unfold shl_align.
  destruct (ez - e) as [|p|p] eqn:Hd; cbn [fst]; [|lia|].
  - replace (e - ez) with 0 by lia. lia.
  - rewrite pos_iter_xO. do 2 f_equal. lia.
Qed.

Lemma pow2_lt_inv (x y : Z) : 0 <= y → 2 ^ x < 2 ^ y → x < y.
Proof.
  intros Hy Hlt. destruct (Z.lt_ge_cases x y) as [?|Hge]; [done|].
  pose proof (Z.pow_le_mono_r 2 y x ltac:(lia) ltac:(lia)). lia.
Qed.

(** The sum of two positive finite numbers, when it is a normal
    number. *)
Lemma SFadd_normal (m1 m2 : positive) (e1 e2 : Z) :
  let ez := Z.min e1 e2 in
  let S := Z.pos m1 * 2 ^ (e1 - ez) + Z.pos m2 * 2 ^ (e2 - ez) in
  2 ^ 52 <= S → - 1074 <= ez → Zdigits2 S + ez <= 1023 →
  ∃ m e j k1,
    SFadd prec emax (S754_finite false m1 e1) (S754_finite false m2 e2)
    = S754_finite false m e
    ∧ 0 <= j ∧ 0 <= k1 ∧ e = ez + k1 + j
    ∧ Z.pos m * 2 ^ j = rne S (2 ^ k1)
    ∧ 2 ^ 52 * 2 ^ k1 <= S < 2 ^ 53 * 2 ^ k1.
Proof.
  intros ez S HS Hlo Hhi. cbn [SFadd cond_Zopp]. fold ez.
  rewrite !shl_align_fst by (unfold ez; lia). fold S.
  destruct S as [|pS|pS] eqn:HSeq; [lia| |lia]. cbn [binary_normalize].
  unfold binary_round.
  destruct (Zdigits2_bounds (Z.pos pS) ltac:(lia)) as [Hd Hdb].
  cbn [Zdigits2] in Hd, Hdb, Hhi. set (d := Z.pos (digits2_pos pS)) in *.
  assert (53 <= d) as Hd53.
  { destruct (Z.le_gt_cases 53 d) as [?|Hlt]; [done|].
    pose proof (Z.pow_le_mono_r 2 d 52 ltac:(lia) ltac:(lia)). lia. }
  assert (fexp prec emax (d + ez) = d + ez - 53) as ->
    by (unfold fexp, emin, prec, emax; lia).
  assert (shl_align pS ez (d + ez - 53) = (pS, ez)) as ->.
  { unfold shl_align. destruct (d + ez - 53 - ez) eqn:Hx; try done. lia. }
  destruct (round_aux_normal false (Z.pos pS) 1 ez)
    as (m & e & j & Hr & Hj & He & HM & Hk1 & Hfl & Hm).
  { lia. } { lia. } { rewrite Z.div_1_r. lia. }
  { rewrite Z.div_1_r. cbn [Zdigits2]. fold d. lia. }
  { rewrite Z.div_1_r. cbn [Zdigits2]. fold d. lia. }
  rewrite Z.div_1_r, loc_exact in Hr. rewrite Hr.
  rewrite Z.div_1_r in He, HM, Hk1, Hfl. cbn [Zdigits2] in He, HM, Hk1, Hfl.
  fold d in He, HM, Hk1, Hfl. rewrite Z.mul_1_r in HM, Hfl.
  exists m, e, j, (d - 53). split_and!; try done; try lia.
  - pose proof (Z.div_mod (Z.pos pS) (2 ^ (d - 53))) as Hdm.
    assert (0 < 2 ^ (d - 53)) by (apply Z.pow_pos_nonneg; lia).
    pose proof (Z.mod_pos_bound (Z.pos pS) (2 ^ (d - 53)) ltac:(lia)). nia.
  - pose proof (Z.div_mod (Z.pos pS) (2 ^ (d - 53))) as Hdm.
    assert (0 < 2 ^ (d - 53)) by (apply Z.pow_pos_nonneg; lia).
    pose proof (Z.mod_pos_bound (Z.pos pS) (2 ^ (d - 53)) ltac:(lia)). nia.
Qed.

Lemma to_int_scaled (m : positive) (e K M : Z) :
  0 <= K → 0 <= e + K → Z.pos m * 2 ^ (e + K) = M →
  to_int (S754_finite false m e) = inr (M `div` 2 ^ K).
Proof.
  intros HK HeK HM. cbn [to_int]. f_equal. case_bool_decide as He.
  - assert (M = Z.pos m * 2 ^ e * 2 ^ K) as ->.
    { rewrite <- HM, Z.pow_add_r by lia. ring. }
    assert (0 < 2 ^ K) by (apply Z.pow_pos_nonneg; lia).
    by rewrite Z.div_mul by lia.
  - assert (2 ^ K = 2 ^ (- e) * 2 ^ (e + K)) as ->.
    { rewrite <- Z.pow_add_r by lia. f_equal. lia. }
    assert (0 < 2 ^ (e + K)) by (apply Z.pow_pos_nonneg; lia).
    assert (0 < 2 ^ (- e)) by (apply Z.pow_pos_nonneg; lia).
    by rewrite <- HM, Z.div_mul_cancel_r by lia.
Qed.

Lemma digits2_le (p : positive) (w : Z) :
  Z.pos p < 2 ^ w → Z.pos (digits2_pos p) <= w.
Proof.
  intros Hp. pose proof (digits2_bounds p) as Hd.
  destruct (Z.le_gt_cases (Z.pos (digits2_pos p)) w) as [?|Hgt]; [done|].
  destruct (Z.le_gt_cases 0 w) as [Hw|Hw].
  - pose proof (Z.pow_le_mono_r 2 w (Z.pos (digits2_pos p) - 1) ltac:(lia) ltac:(lia)). lia.
  - rewrite Z.pow_neg_r in Hp by lia. lia.
Qed.

Lemma true_divide_quotient (a n : Z) :
  0 < a < 2 ^ 53 → 0 < n < 2 ^ 53 →
  ∃ f, true_divide a n = inr f ∧ quotient_of f false a n.
Proof.
  intros Ha Hn. unfold true_divide.
  rewrite !bool_decide_eq_false_2 by lia.
  destruct a as [|pa|pa]; [lia| |lia]. destruct n as [|pn|pn]; [lia| |lia].
  change (Z.to_pos (Z.abs (Z.pos pa))) with pa.
  change (Z.to_pos (Z.abs (Z.pos pn))) with pn.
  pose proof (digits2_le pa 53 ltac:(lia)). pose proof (digits2_le pn 53 ltac:(lia)).
  pose proof (div_floats_quotient false false (Z.pos pa) (Z.pos pn) pa pn 0 0
                ltac:(lia) ltac:(lia) ltac:(lia) ltac:(cbn; lia) ltac:(lia)
                ltac:(cbn; lia) ltac:(lia)) as Hq.
  destruct Hq as (m & e & K & Hdiv & Hrest). rewrite Hdiv.
  eexists. split; [done|]. by exists m, e, K.
Qed.

(** Well inside 52 bits the computed loop bound is the exact one. *)
Lemma range_bound_exact (length size : Z) :
  0 <= length → 1 <= size → length + 2 * size <= 2 ^ 52 →
  range_bound length size = inr (length `div` size + 1).
Proof.
  intros HL Hn Hbound. unfold range_bound.
  destruct (decide (length = 0)) as [->|HL0].
  { unfold true_divide. rewrite bool_decide_eq_false_2 by lia.
    rewrite bool_decide_eq_true_2 by done. cbn [bind].
    rewrite bool_decide_eq_false_2 by lia. by rewrite Z.div_0_l by lia. }
  destruct (true_divide_quotient length size ltac:(lia) ltac:(lia))
    as (f & -> & m1 & e1 & K1 & -> & HK1 & He1 & HM1 & Hlow1 & Hup1).
  cbn [bind]. unfold add_int.
  change (of_int 1) with (inr (S754_finite false (2 ^ 52)%positive (- 52)) : exn + spec_float).
  cbn [bind].
  pose proof (Z.div_mod length size ltac:(lia)) as Hdm.
  pose proof (Z.mod_pos_bound length size ltac:(lia)) as Hmb.
  pose proof (Z.div_pos length size ltac:(lia) ltac:(lia)) as Hk0.
  set (k := length `div` size) in *.
  set (ez := Z.min e1 (- 52)).
  set (A := 2 ^ (- ez)). set (B := 2 ^ K1) in *.
  set (M1 := rne (length * B) size) in *.
  set (a1 := Z.pos m1 * 2 ^ (e1 - ez)).
  assert (0 < A) as HA by (apply Z.pow_pos_nonneg; unfold ez; lia).
  assert (0 < B) as HB by (apply Z.pow_pos_nonneg; lia).
  assert (a1 * B = M1 * A) as Ha1.
  { unfold a1, A, B. rewrite <- HM1.
    rewrite <- !Z.mul_assoc, <- !Z.pow_add_r by (unfold ez; lia).
    do 2 f_equal. lia. }
  assert (Z.pos (2 ^ 52) * 2 ^ (- 52 - ez) = A) as Hone.
  { unfold A. change (Z.pos (2 ^ 52)) with (2 ^ 52).
    rewrite <- Z.pow_add_r by (unfold ez; lia). f_equal. lia. }
  pose proof (rne_near (length * B) size ltac:(lia)) as Hnear. fold M1 in Hnear.
  assert (k * B <= M1) as HM1lo by (apply rne_ge; [lia|]; nia).
  assert (size < B) as HsB by nia.
  assert (M1 < (k + 1) * B) as HM1up by nia.
  assert ((k + 1) * A <= a1 + A < (k + 2) * A) as HS by nia.
  assert (- 105 <= - K1) as HK1b.
  { assert (2 ^ K1 < 2 ^ 105) as Hp.
    { fold B. change (2 ^ 105) with (2 ^ 53 * 2 ^ 52). nia. }
    apply pow2_lt_inv in Hp; lia. }
  assert (k + 2 <= 2 ^ 52) as Hk2 by nia.
  assert (Zdigits2 (a1 + A) <= 52 - ez) as HdS.
  { assert (0 < a1 + A) as Hpos by nia.
    destruct (a1 + A) as [|pS|pS] eqn:HSeq; [lia| |lia]. cbn [Zdigits2].
    apply digits2_le. replace (52 - ez) with (52 + - ez) by lia.
    rewrite Z.pow_add_r by (unfold ez; lia). fold A. nia. }
  destruct (SFadd_normal m1 (2 ^ 52)%positive e1 (- 52))
    as (m & e & j & k1 & Hadd & Hj & Hk1 & He & HM & HSb).
  { fold ez. rewrite Hone. fold a1. unfold A in HS |- *.
    assert (2 ^ 52 <= 2 ^ (- ez)) by (apply Z.pow_le_mono_r; unfold ez; lia). nia. }
  { fold ez. unfold ez. lia. }
  { fold ez. rewrite Hone. fold a1. lia. }
  fold ez in Hadd, He, HM, HSb. rewrite Hone in HM, HSb. fold a1 in HM, HSb.
  rewrite Hadd.
  set (S := a1 + A) in *. set (C := 2 ^ k1) in *.
  assert (0 < C) as HC by (apply Z.pow_pos_nonneg; lia).
  assert (k1 < - ez) as Hk1ez.
  { apply pow2_lt_inv; [unfold ez; lia|]. fold A C. nia. }
  set (G := - ez - k1). set (Gp := 2 ^ G).
  assert (0 < Gp) as HGp by (apply Z.pow_pos_nonneg; unfold G; lia).
  assert (A = Gp * C) as HAG.
  { unfold A, Gp, C, G. rewrite <- Z.pow_add_r by lia. f_equal. lia. }
  assert (size < Gp) as HsG by nia.
  assert (G <= K1) as HGK.
  { assert (2 ^ G < 2 ^ (K1 + 1)) as Hp.
    { fold Gp. rewrite Z.pow_add_r by lia. fold B. change (2 ^ 1) with 2.
      assert (Gp * (k + 1) < 2 ^ 53) as Hx1.
      { apply (Z.mul_lt_mono_pos_r C); [lia|]. rewrite HAG in HS. lia. }
      assert (length < (k + 1) * size) as Hx2 by lia.
      assert (Gp * ((k + 1) * size) < (B * 2) * ((k + 1) * size)) as Hx3.
      { assert (Gp * (k + 1) * size < 2 ^ 53 * size) as Hx4
          by (apply Z.mul_lt_mono_pos_r; lia).
        assert (length * B < (k + 1) * size * B) as Hx5
          by (apply Z.mul_lt_mono_pos_r; lia).
        lia. }
      apply (Z.mul_lt_mono_pos_r ((k + 1) * size)); [lia|done]. }
    apply pow2_lt_inv in Hp; lia. }
  set (H := 2 ^ (K1 - G)).
  assert (0 < H) as HH by (apply Z.pow_pos_nonneg; lia).
  assert (B = Gp * H) as HBG.
  { unfold B, Gp, H. rewrite <- Z.pow_add_r by (unfold G; lia). f_equal. lia. }
  assert (M1 <= (k + 1) * B - H) as HM1up'.
  { apply rne_le; [lia|].
    assert (length * B <= ((k + 1) * size - 1) * B) as Hx1
      by (apply Z.mul_le_mono_nonneg_r; lia).
    assert (H * size <= H * Gp) as Hx2 by (apply Z.mul_le_mono_nonneg_l; lia).
    rewrite HBG in Hx1 |- *. lia. }
  assert (S <= ((k + 2) * Gp - 1) * C) as HSup.
  { assert (M1 * A <= ((k + 1) * B - H) * A) as Hx1
      by (apply Z.mul_le_mono_nonneg_r; lia).
    assert (a1 <= (k + 1) * A - C) as Hx2.
    { apply (Z.mul_le_mono_pos_r _ _ B); [lia|]. rewrite Ha1.
      etrans; [exact Hx1|]. rewrite HAG, HBG. lia. }
    unfold S. rewrite HAG in Hx2 |- *. lia. }
  assert ((k + 1) * Gp <= rne S C) as HM2lo.
  { apply rne_ge; [lia|]. rewrite HAG in HS. lia. }
  assert (rne S C <= (k + 2) * Gp - 1) as HM2up by (apply rne_le; [lia|done]).
  rewrite (to_int_scaled m e G (rne S C)).
  - f_equal. fold Gp. symmetry.
    apply (Z.div_unique _ Gp (k + 1) (rne S C - (k + 1) * Gp)); lia.
  - unfold G. lia.
  - unfold G. lia.
  - rewrite <- HM. do 2 f_equal. unfold G. lia.
Qed.

End PyFloatProps.

(** * Properties of the interval partitioner *)

Module IntervalProps.
Import Intervals.

(** For a sequence and a chunk size within [in_float_range] the loop runs
    [length / size + 1] times, the quotient being that of integers. *)
Lemma range_bound_in_range (length size : Z) :
  1 <= size → in_float_range size length →
  range_bound length size = inr (length `div` size + 1).
Proof. intros Hs [Hl Hb]. by apply PyFloatProps.range_bound_exact. Qed.

Lemma ceil_div_exact (a n : Z) :
  1 <= n → a `mod` n = 0 → ceil_div a n = a `div` n.
Proof.
  intros Hn Hm. unfold ceil_div.
  pose proof (Z.div_mod a n ltac:(lia)) as Ha.
  assert (- a = (- (a `div` n)) * n) as -> by lia.
  rewrite Z.div_mul by lia. lia.
Qed.

Lemma ceil_div_inexact (a n : Z) :
  1 <= n → a `mod` n ≠ 0 → ceil_div a n = a `div` n + 1.
Proof.
  intros Hn Hm. unfold ceil_div.
  pose proof (Z.div_mod a n ltac:(lia)) as Ha.
  pose proof (Z.mod_pos_bound a n ltac:(lia)) as Hb.
  assert (- a = (n - a `mod` n) + (- (a `div` n) - 1) * n) as -> by lia.
  rewrite Z.div_add by lia.
  rewrite Z.div_small by lia. lia.
Qed.

Lemma ceil_div_step (a n : Z) :
  1 <= n → ceil_div a n = 1 + ceil_div (a - n) n.
Proof.
  intros Hn. unfold ceil_div.
  replace (- (a - n)) with (- a + 1 * n) by lia.
  rewrite Z.div_add by lia. lia.
Qed.

Lemma ceil_div_bounds (a n : Z) :
  1 <= n → a <= ceil_div a n * n < a + n.
Proof.
  intros Hn. unfold ceil_div.
  pose proof (Z.div_mod (- a) n ltac:(lia)) as Ha.
  pose proof (Z.mod_pos_bound (- a) n ltac:(lia)) as Hb.
  nia.
Qed.

Lemma chunks_length (name : string) (length_ size n : Z) :
  length (chunks name length_ size n) = Z.to_nat n.
Proof. unfold chunks. by rewrite length_fmap, length_seqZ. Qed.

(** The [i]-th printed interval of a sequence is [chunk i]. *)
Lemma chunks_lookup (name : string) (length_ size n : Z) (i : nat) :
  Z.of_nat i < n →
  chunks name length_ size n !! i
  = Some (Interval name (Z.of_nat i * size + 1)
            (Z.min ((Z.of_nat i + 1) * size) length_)).
Proof.
  intros Hi. unfold chunks.
  rewrite list_lookup_fmap, lookup_seqZ_lt by lia.
  simpl. unfold chunk. do 3 f_equal; lia.
Qed.

(** A sequence among the targets contributes its chunks and nothing
    else. *)
Lemma generate_intervals_single (name : string) (length_ size : Z)
    (chromosomes : list string) :
  name ∈ chromosomes → 1 <= size → in_float_range size length_ →
  generate_intervals [name] [length_] chromosomes size
  = (chunks name length_ size (length_ `div` size + 1), None).
Proof.
  intros Hin Hs Hr. unfold generate_intervals. cbn [zip zip_with generate_loop].
  rewrite bool_decide_eq_true_2 by done.
  rewrite range_bound_in_range by done.
  by rewrite app_nil_r.
Qed.

(** A sequence that is not among the targets is skipped. *)
Lemma generate_intervals_skip (name : string) (length_ size : Z)
    (chromosomes : list string) :
  name ∉ chromosomes →
  generate_intervals [name] [length_] chromosomes size = ([], None).
Proof.
  intros Hin. unfold generate_intervals. simpl.
  by rewrite bool_decide_eq_false_2 by done.
Qed.

(** When the run of chunks [k, k + n] tiles [[k * size + 1, length]]. *)
Lemma tiles_chunk_run (name : string) (length_ size : Z) (n : nat) (k : Z) :
  1 <= size → 0 <= k →
  tiles (k * size + 1) length_
    (chunk name length_ size <$> seqZ k (Z.of_nat (S n))) = true
  ↔ (k + Z.of_nat n) * size + 1 <= length_
    ∧ length_ <= (k + Z.of_nat n + 1) * size.
Proof.
  intros Hs. revert k. induction n as [|n IH]; intros k Hk.
  - change (seqZ k (Z.of_nat 1)) with [k]. simpl.
    rewrite !andb_true_iff, !bool_decide_eq_true. lia.
  - rewrite seqZ_cons by lia.
    replace (Z.pred (Z.of_nat (S (S n)))) with (Z.of_nat (S n)) by lia.
    rewrite fmap_cons.
    assert (∃ iv rest,
      chunk name length_ size <$> seqZ (Z.succ k) (Z.of_nat (S n)) = iv :: rest
      ∧ istart iv = (k + 1) * size + 1) as (iv & rest & Heq & Hiv).
    { rewrite seqZ_cons by lia. rewrite fmap_cons.
      eexists _, _. split; [done|]. simpl. lia. }
    cbn [tiles]. rewrite Heq. rewrite <- Heq.
    rewrite !andb_true_iff, !bool_decide_eq_true. cbn [chunk istart iend].
    destruct (decide ((k + 1) * size <= length_)) as [Hle|Hgt].
    + rewrite Z.min_l by lia.
      replace ((k + 1) * size + 1) with (Z.succ k * size + 1) by lia.
      rewrite IH by lia. nia.
    + rewrite Z.min_r by lia. split.
      * intros [_ Ht]. rewrite Heq in Ht. cbn [tiles] in Ht.
        rewrite !andb_true_iff, !bool_decide_eq_true in Ht. lia.
      * intros [H1 _]. nia.
Qed.

(** The chunks of a sequence tile [[1, length]] exactly when the chunk
    size does not divide the length. *)
Lemma chunks_tiles_iff (name : string) (length_ size : Z) :
  1 <= length_ → 1 <= size →
  tiles 1 length_ (chunks name length_ size (length_ `div` size + 1)) = true
  ↔ length_ `mod` size ≠ 0.
Proof.
  intros Hl Hs. unfold chunks.
  pose proof (Z.div_pos length_ size ltac:(lia) ltac:(lia)) as Hq.
  pose proof (Z.div_mod length_ size ltac:(lia)) as Hdm.
  pose proof (Z.mod_pos_bound length_ size ltac:(lia)) as Hb.
  replace (length_ `div` size + 1)
    with (Z.of_nat (S (Z.to_nat (length_ `div` size)))) by lia.
  change 1 with (0 * size + 1) at 1.
  rewrite tiles_chunk_run by lia.
  rewrite Z2Nat.id by lia. nia.
Qed.

(** Whatever the lengths, consecutive chunks are contiguous. *)
Lemma contiguous_chunk_run (name : string) (length_ size : Z) (n : nat) (k : Z) :
  (k + Z.of_nat n) * size <= length_ → 1 <= size →
  contiguous (chunk name length_ size <$> seqZ k (Z.of_nat (S n))) = true.
Proof.
  intros Hk Hs. revert k Hk. induction n as [|n IH]; intros k Hk; [done|].
  rewrite seqZ_cons by lia.
  replace (Z.pred (Z.of_nat (S (S n)))) with (Z.of_nat (S n)) by lia.
  rewrite fmap_cons.
  specialize (IH (Z.succ k) ltac:(lia)).
  rewrite seqZ_cons in IH |- * by lia. rewrite fmap_cons in IH |- *.
  cbn [contiguous] in IH |- *. rewrite IH, andb_true_r.
  apply bool_decide_eq_true. cbn [chunk istart iend].
  rewrite Z.min_l by nia. lia.
Qed.

(** When the chunk size divides the length, one interval too many is
    printed, and it runs backwards: from [length + 1] to [length]. *)
Lemma chunks_exact_multiple_last (name : string) (length_ size : Z) :
  1 <= length_ → 1 <= size → length_ `mod` size = 0 →
  last (chunks name length_ size (length_ `div` size + 1))
  = Some (Interval name (length_ + 1) length_).
Proof.
  intros Hl Hs Hm. unfold chunks.
  pose proof (Z.div_pos length_ size ltac:(lia) ltac:(lia)) as Hq.
  pose proof (Z.div_mod length_ size ltac:(lia)) as Hdm.
  replace (length_ `div` size + 1)
    with (Z.of_nat (S (Z.to_nat (length_ `div` size)))) by lia.
  rewrite seqZ_S, fmap_app. cbn [fmap list_fmap]. rewrite last_snoc. unfold chunk.
  rewrite Z2Nat.id by lia. do 2 f_equal; [lia|]. apply Z.min_r. nia.
Qed.

(** The loop bound and the interval size on the inputs of the examples
    below, and on inputs past 53 bits, where the floats round: a length
    of [2^53 - 1] in chunks of [2^53] gives two rounds of the loop, and a
    span of [2^53 + 1] an interval size of [2^53]. *)
Example float_examples :
  range_bound 2500000 1000000 = inr 3
  ∧ range_bound 2000000 1000000 = inr 3
  ∧ range_bound 16569 1000000 = inr 1
  ∧ intervalsize 1 100 3 = inr 33
  ∧ intervalsize 1 100 50 = inr 2
  ∧ range_bound (2 ^ 53 - 1) (2 ^ 53) = inr 2
  ∧ intervalsize 1 (2 ^ 53 + 2) 1 = inr (2 ^ 53)
  ∧ range_bound (2 ^ 1030) 1 = inl OverflowError.
Proof. vm_compute. done. Qed.

(** The example of the specification: [chr1] of length 2,500,000 in
    chunks of 1,000,000. *)
Example generate_intervals_chr1 :
  format_interval <$>
    (generate_intervals ["chr1"; "chrM"] [2500000; 16569] ["chr1"] 1000000).1
  = ["chr1:1-1000000"; "chr1:1000001-2000000"; "chr1:2000001-2500000"].
Proof. vm_compute. reflexivity. Qed.

(** C1, at a length that the chunk size divides: for [chr1] of length
    2,000,000 and chunks of 1,000,000 the printed intervals are
    contiguous and the last one ends at the length, but it is
    [chr1:2000001-2000000], whose start is past its end, so the output is
    not a tiling of [[1, 2000000]]. *)
Theorem generate_intervals_exact_multiple_not_tiling :
  generate_intervals ["chr1"] [2000000] ["chr1"] 1000000
  = ([Interval "chr1" 1 1000000; Interval "chr1" 1000001 2000000;
      Interval "chr1" 2000001 2000000], None)
  ∧ contiguous (generate_intervals ["chr1"] [2000000] ["chr1"] 1000000).1 = true
  ∧ tiles 1 2000000 (generate_intervals ["chr1"] [2000000] ["chr1"] 1000000).1
    = false.
Proof. vm_compute. done. Qed.

(** C2, at a length that the chunk size divides: for [chr1] of length
    2,000,000 and chunks of 1,000,000, three intervals are printed, one
    more than [ceil(2000000 / 1000000) = 2]; each of them does span
    [[i * C + 1, min((i + 1) * C, L)]]. *)
Theorem generate_intervals_exact_multiple_count :
  length (generate_intervals ["chr1"] [2000000] ["chr1"] 1000000).1 = 3%nat
  ∧ ceil_div 2000000 1000000 = 2
  ∧ (generate_intervals ["chr1"] [2000000] ["chr1"] 1000000).1
    = (λ i, Interval "chr1" (i * 1000000 + 1)
              (Z.min ((i + 1) * 1000000) 2000000)) <$> [0; 1; 2].
Proof. vm_compute. done. Qed.

(** The number of printed intervals in general: [ceil(L / C)] when [C]
    does not divide [L], one more when it does. *)
Lemma generate_intervals_count (name : string) (length_ size : Z)
    (chromosomes : list string) :
  1 <= length_ → 1 <= size → in_float_range size length_ → name ∈ chromosomes →
  Z.of_nat (length (generate_intervals [name] [length_] chromosomes size).1)
  = if bool_decide (length_ `mod` size = 0)
    then ceil_div length_ size + 1 else ceil_div length_ size.
Proof.
  intros Hl Hs Hr Hin. rewrite generate_intervals_single by (done || lia).
  cbn [fst]. rewrite chunks_length.
  pose proof (Z.div_pos length_ size ltac:(lia) ltac:(lia)).
  case_bool_decide.
  - rewrite ceil_div_exact by (done || lia). lia.
  - rewrite ceil_div_inexact by (done || lia). lia.
Qed.

(** *** [split_interval] *)

Lemma split_loop_spec (chrom_ : string) (isz end_ : Z) (iters : nat) (cur : Z) :
  0 <= isz → cur <= end_ → (1 <= iters)%nat →
  end_ <= cur + Z.of_nat iters * (isz + 1) - 1 →
  let l := split_loop iters chrom_ cur isz end_ in
  tiles cur end_ l = true
  ∧ (length l <= iters)%nat
  ∧ Z.of_nat (length l) = ceil_div (end_ - cur + 1) (isz + 1)
  ∧ nominal isz l
  ∧ Forall (λ iv, chrom iv = chrom_) l.
Proof.
  intros Hisz. revert cur. induction iters as [|iters IH]; intros cur Hc Hi He; [lia|].
  cbn [split_loop]. case_bool_decide as Hge.
  - cbn zeta. cbn [tiles istart iend length].
    rewrite !bool_decide_eq_true_2 by done. repeat split.
    + lia.
    + pose proof (ceil_div_bounds (end_ - cur + 1) (isz + 1) ltac:(lia)). nia.
    + intros i iv _ Hlen. simpl in Hlen. lia.
    + by repeat constructor.
  - destruct iters as [|iters']; [lia|].
    destruct (IH (cur + isz + 1)) as (Ht & Hlen & Hcnt & Hnom & Hch); [lia..|].
    cbn zeta in *.
    set (rest := split_loop (S iters') chrom_ (cur + isz + 1) isz end_) in *.
    assert (∃ iv' rest', rest = iv' :: rest') as (iv' & rest' & Hrest).
    { destruct rest; [done|eauto]. }
    repeat split.
    + cbn [tiles istart iend]. rewrite Hrest, <- Hrest.
      rewrite !bool_decide_eq_true_2 by lia. done.
    + simpl. lia.
    + cbn [length]. rewrite (ceil_div_step (end_ - cur + 1)) by lia.
      replace (end_ - cur + 1 - (isz + 1)) with (end_ - (cur + isz + 1) + 1) by lia.
      lia.
    + intros [|i] iv Hiv Hl; simpl in *.
      * inversion Hiv; subst. simpl. lia.
      * apply (Hnom i iv Hiv). lia.
    + constructor; [done|]. done.
Qed.

(** C5 as stated fails past 53 bits, where [float(end - start)] rounds:
    for the interval [c:1-9007199254740994] ([E = 2^53 + 2]) and one
    split, the interval size is [2^53] and the single piece printed is
    [c:1-9007199254740993], which ends short of [E]; the output does not
    cover [[S, E]]. *)
Lemma split_interval_rounds_past_53_bits :
  1 <= 2 ^ 53 + 2 ∧ 1 <= 1
  ∧ split_interval "c" 1 (2 ^ 53 + 2) 1 = inr [Interval "c" 1 (2 ^ 53 + 1)]
  ∧ ¬ ∃ pieces,
        split_interval "c" 1 (2 ^ 53 + 2) 1 = inr pieces
        ∧ tiles 1 (2 ^ 53 + 2) pieces = true.
Proof.
  assert (split_interval "c" 1 (2 ^ 53 + 2) 1 = inr [Interval "c" 1 (2 ^ 53 + 1)])
    as Heq by (vm_compute; reflexivity).
  split_and!; [lia|lia|done|].
  intros (pieces & Hp & Ht). rewrite Heq in Hp. injection Hp as <-.
  vm_compute in Ht. discriminate Ht.
Qed.

(** C5, for spans and numbers of splits of at most 53 bits: for
    [S <= E], [E - S < 2^53] and [1 <= num_splits < 2^53],
    [split_interval] returns at most [num_splits] pieces on the same
    sequence; they tile [[S, E]] (the first starts at [S], each next one
    starts one past the end of the previous one, every piece has
    [start <= end], the last ends at [E]); every piece but the last has
    the nominal size [ceil((E - S) / num_splits)]; and their number is
    [ceil((E - S + 1) / (size + 1))], which is how emission stops before
    [num_splits] pieces when the step overshoots. *)
Theorem split_interval_tiles (chrom_ : string) (start end_ num_splits : Z) :
  start <= end_ → end_ - start < 2 ^ 53 → 1 <= num_splits < 2 ^ 53 →
  ∃ pieces,
    split_interval chrom_ start end_ num_splits = inr pieces
    ∧ tiles start end_ pieces = true
    ∧ Z.of_nat (length pieces) <= num_splits
    ∧ nominal (ceil_div (end_ - start) num_splits) pieces
    ∧ Z.of_nat (length pieces)
      = ceil_div (end_ - start + 1) (ceil_div (end_ - start) num_splits + 1)
    ∧ Forall (λ iv, chrom iv = chrom_) pieces.
Proof.
  intros Hse Hspan Hn. unfold split_interval.
  rewrite PyFloatProps.intervalsize_exact by lia. cbn [bind].
  pose proof (ceil_div_bounds (end_ - start) num_splits ltac:(lia)) as Hb.
  assert (0 <= ceil_div (end_ - start) num_splits) as Hisz by nia.
  destruct (split_loop_spec chrom_ (ceil_div (end_ - start) num_splits) end_
              (Z.to_nat num_splits) start) as (Ht & Hlen & Hcnt & Hnom & Hch).
  - done.
  - done.
  - lia.
  - rewrite Z2Nat.id by lia. nia.
  - eexists. split; [done|]. cbn zeta in *. repeat split; try done. lia.
Qed.

Lemma split_interval_tiles_witness :
  ∃ pieces,
    split_interval "chr2" 1 100 3 = inr pieces
    ∧ tiles 1 100 pieces = true
    ∧ Z.of_nat (length pieces) <= 3
    ∧ nominal (ceil_div (100 - 1) 3) pieces
    ∧ Z.of_nat (length pieces)
      = ceil_div (100 - 1 + 1) (ceil_div (100 - 1) 3 + 1)
    ∧ Forall (λ iv, chrom iv = "chr2") pieces.
Proof. apply (split_interval_tiles "chr2" 1 100 3); lia. Defined.

(** The example of the specification: [chr2:1-100] in three pieces. *)
Example split_interval_chr2 :
  (pieces ←! split_interval "chr2" 1 100 3; inr (format_interval <$> pieces))
  = inr ["chr2:1-34"; "chr2:35-68"; "chr2:69-100"].
Proof. vm_compute. reflexivity. Qed.

(** Fewer pieces than asked for: [chr2:1-100] in fifty pieces gives
    thirty-four. *)
Example split_interval_stops_early :
  (pieces ←! split_interval "chr2" 1 100 50; inr (length pieces)) = inr 34%nat.
Proof. vm_compute. reflexivity. Qed.

End IntervalProps.

(** * Properties of dictionaries *)

Module DictProps.
Section dict.
Context {V : Type}.
Implicit Types (d items : list (string * V)) (k : string) (v : V).
Implicit Types (cond : string → bool).

Lemma get_set_eq k v d : Dict.get k (Dict.set k v d) = Some v.
Proof.
  induction d as [|[k' v'] d IH]; simpl.
  - by rewrite decide_True.
  - destruct (decide (k = k')) as [->|Hne]; simpl.
    + by rewrite decide_True.
    + by rewrite decide_False.
Qed.

Lemma get_set_ne k k' v d :
  k ≠ k' → Dict.get k' (Dict.set k v d) = Dict.get k' d.
Proof.
  intros Hne. induction d as [|[k'' v''] d IH]; simpl.
  - by rewrite decide_False.
  - destruct (decide (k = k'')) as [->|Hne']; simpl.
    + by rewrite !decide_False.
    + by rewrite IH.
Qed.

Lemma get_Some_elem_of k v d : Dict.get k d = Some v → (k, v) ∈ d.
Proof.
  induction d as [|[k' v'] d IH]; simpl; [done|].
  destruct (decide (k = k')) as [->|Hne].
  - intros [= ->]. left.
  - intros Hg. right. by apply IH.
Qed.

Lemma get_is_Some k d : is_Some (Dict.get k d) ↔ k ∈ Dict.keys d.
Proof.
  unfold Dict.keys. induction d as [|[k' v'] d IH]; simpl.
  - split; [by intros [? ?]|]. by intros ?%elem_of_nil.
  - rewrite elem_of_cons. destruct (decide (k = k')) as [->|Hne].
    + split; eauto.
    + rewrite IH. split; [by right|]. by intros [?|?].
Qed.

Lemma get_None k d : Dict.get k d = None ↔ k ∉ Dict.keys d.
Proof. rewrite <- get_is_Some, eq_None_not_Some. done. Qed.

(** In a dictionary a key has one value. *)
Lemma get_Some_NoDup k v d :
  NoDup (Dict.keys d) → Dict.get k d = Some v ↔ (k, v) ∈ d.
Proof.
  intros Hnd. split; [apply get_Some_elem_of|].
  unfold Dict.keys in Hnd.
  induction d as [|[k' v'] d IH]; simpl in *; [by intros ?%elem_of_nil|].
  apply NoDup_cons in Hnd as [Hk' Hnd].
  rewrite elem_of_cons. intros [[= -> ->]|Hin].
  - by rewrite decide_True.
  - rewrite decide_False; [by apply IH|].
    intros ->. apply Hk'. apply list_elem_of_fmap. by exists (k', v).
Qed.

Lemma get_reverse_NoDup k d :
  NoDup (Dict.keys d) → Dict.get k (reverse d) = Dict.get k d.
Proof.
  intros Hnd. apply option_eq. intros v.
  rewrite !get_Some_NoDup, elem_of_reverse; [done..|].
  unfold Dict.keys. by rewrite fmap_reverse, reverse_Permutation.
Qed.

Lemma keys_set k v d :
  Dict.keys (Dict.set k v d)
  = if decide (k ∈ Dict.keys d) then Dict.keys d else Dict.keys d ++ [k].
Proof.
  unfold Dict.keys. induction d as [|[k' v'] d IH]; csimpl; [done|].
  destruct (decide (k = k')) as [->|Hne]; csimpl.
  - rewrite decide_True; [done|left].
  - rewrite IH. destruct (decide (k ∈ d.*1)) as [Hin|Hnin].
    + rewrite decide_True; [done|by right].
    + rewrite decide_False; [done|]. rewrite elem_of_cons. by intros [?|?].
Qed.

Lemma NoDup_keys_set k v d :
  NoDup (Dict.keys d) → NoDup (Dict.keys (Dict.set k v d)).
Proof.
  intros Hnd. rewrite keys_set. case_decide; [done|].
  apply NoDup_app. split_and!; [done| |apply NoDup_singleton].
  intros x Hx ->%list_elem_of_singleton. done.
Qed.

(** What a comprehension holds for a key: nothing if the condition
    fails, else the value of the last item with that key. *)
Lemma comprehension_acc cond items d k :
  Dict.get k (foldl (λ (acc : list (string * V)) (kv : string * V),
                if cond kv.1 then Dict.set kv.1 kv.2 acc else acc) d items)
  = match (if cond k then Dict.get k (reverse items) else None) with
    | Some v => Some v
    | None => Dict.get k d
    end.
Proof.
  induction items as [|[k' v'] items IH] using rev_ind.
  - simpl. by destruct (cond k).
  - rewrite foldl_app, reverse_app, reverse_singleton.
    cbn [foldl app Dict.get fst snd].
    destruct (decide (k = k')) as [<-|Hne].
    + destruct (cond k) eqn:Hc; [by rewrite get_set_eq|exact IH].
    + destruct (cond k') eqn:Hc'.
      * by rewrite get_set_ne, IH.
      * by rewrite IH.
Qed.

Lemma comprehension_get cond items k :
  Dict.get k (Dict.comprehension cond items)
  = if cond k then Dict.get k (reverse items) else None.
Proof.
  unfold Dict.comprehension. rewrite comprehension_acc. simpl.
  by destruct (if cond k then _ else _).
Qed.

Lemma NoDup_keys_comprehension cond items :
  NoDup (Dict.keys (Dict.comprehension cond items)).
Proof.
  unfold Dict.comprehension.
  assert (NoDup (Dict.keys ([] : list (string * V)))) as Hnil by constructor.
  revert Hnil. generalize ([] : list (string * V)).
  induction items as [|[k v] items IH]; intros d Hd; simpl; [done|].
  apply IH. destruct (cond k); [by apply NoDup_keys_set|done].
Qed.

(** The last item of a list of pairs with a given key, by position. *)
Lemma get_reverse_Some k v items :
  Dict.get k (reverse items) = Some v
  ↔ ∃ i : nat, items !! i = Some (k, v)
      ∧ ∀ (j : nat) v', (i < j)%nat → items !! j ≠ Some (k, v').
Proof.
  induction items as [|[k' v'] items IH] using rev_ind.
  - simpl. split; [done|]. by intros (i & ? & _).
  - rewrite reverse_app. simpl. destruct (decide (k = k')) as [<-|Hne].
    + split.
      * intros [= ->]. exists (length items). split.
        { by rewrite lookup_app_r, Nat.sub_diag by lia. }
        intros j w Hj Hl. apply lookup_lt_Some in Hl.
        rewrite length_app in Hl. simpl in Hl. lia.
      * intros (i & Hi & Hlast).
        destruct (decide (i = length items)) as [->|Hi'].
        { rewrite lookup_app_r, Nat.sub_diag in Hi by lia. by inversion Hi. }
        exfalso. apply (Hlast (length items) v').
        -- apply lookup_lt_Some in Hi. rewrite length_app in Hi. simpl in Hi. lia.
        -- by rewrite lookup_app_r, Nat.sub_diag by lia.
    + rewrite IH. split.
      * intros (i & Hi & Hlast). exists i. split.
        { by apply lookup_app_l_Some. }
        intros j w Hj Hl. apply lookup_app_Some in Hl as [Hl|[_ Hl]].
        -- by apply (Hlast j w).
        -- apply list_lookup_singleton_Some in Hl as [_ [= -> _]]. done.
      * intros (i & Hi & Hlast). exists i.
        apply lookup_app_Some in Hi as [Hi|[_ Hi]].
        -- split; [done|]. intros j w Hj Hl. apply (Hlast j w Hj).
           by apply lookup_app_l_Some.
        -- apply list_lookup_singleton_Some in Hi as [_ [= -> _]]. done.
Qed.
End dict.
End DictProps.

(** * Properties of the cell classifier *)

Module ClassifierProps.
Import Classifier.

Lemma elem_of_key_set (d : list (string * string)) (cell : string) :
  cell ∈ key_set d ↔ is_Some (Dict.get cell d).
Proof. unfold key_set. by rewrite elem_of_list_to_set, DictProps.get_is_Some. Qed.

(** The set selected by a boolean column holds the cells with a flagged
    row. *)
Lemma elem_of_flag_set (f : metrics_row → bool) (metrics : list metrics_row)
    (cell : string) :
  cell ∈ cell_id_set (filter (λ r, f r) metrics) ↔ flagged f metrics cell.
Proof.
  unfold cell_id_set, flagged.
  rewrite elem_of_list_to_set, list_elem_of_fmap. split.
  - intros (r & -> & Hr). apply list_elem_of_filter in Hr as [Hf Hin].
    exists r. split_and!; [done..|]. by apply Is_true_true.
  - intros (r & Hin & <- & Hf). exists r. split; [done|].
    apply list_elem_of_filter. split; [|done]. by apply Is_true_true.
Qed.

(** Positional pairing, read off the zipped lists. *)
Lemma get_zip_last_paired (cell_ids infiles : list string) (cell file : string) :
  Dict.get cell (reverse (zip cell_ids infiles)) = Some file
  ↔ last_paired cell_ids infiles cell file.
Proof.
  rewrite DictProps.get_reverse_Some. unfold last_paired.
  split; intros (i & Hi & Hlast); exists i.
  - apply lookup_zip_with_Some in Hi as (x & y & [= <- <-] & Hx & Hy).
    split_and!; [done..|]. intros j Hj Hc.
    destruct (infiles !! j) as [w|] eqn:Hw; [|done].
    exfalso. apply (Hlast j w Hj).
    apply lookup_zip_with_Some. by exists cell, w.
  - destruct Hlast as (Hf & Hlast'). split.
    + apply lookup_zip_with_Some. by exists cell, file.
    + intros j w Hj (x & y & [= <- <-] & Hx & Hy)%lookup_zip_with_Some.
      specialize (Hlast' j Hj Hx). congruence.
Qed.

Lemma last_paired_elem_of (cell_ids infiles : list string) (cell file : string) :
  last_paired cell_ids infiles cell file → cell ∈ cell_ids.
Proof. intros (i & Hi & _). by eapply list_elem_of_lookup_2. Qed.

(** When every cell id has an artifact at its position, every cell id is
    paired. *)
Lemma last_paired_exists (cell_ids infiles : list string) (cell : string) :
  (length cell_ids <= length infiles)%nat → cell ∈ cell_ids →
  ∃ file, last_paired cell_ids infiles cell file.
Proof.
  intros Hlen Hin.
  assert (is_Some (Dict.get cell (reverse (zip cell_ids infiles)))) as [file Hf].
  { apply DictProps.get_is_Some. unfold Dict.keys.
    rewrite fmap_reverse, elem_of_reverse, fst_zip by done. done. }
  exists file. by apply get_zip_last_paired.
Qed.

(** The contents of the three mappings. *)
Lemma control_get (infiles cell_ids : list string) (metrics : list metrics_row)
    (cell file : string) :
  list_to_set cell_ids = cell_id_set metrics →
  ∃ control, get_control_files infiles cell_ids metrics = inr control
    ∧ (Dict.get cell control = Some file
       ↔ flagged is_control metrics cell
         ∧ last_paired cell_ids infiles cell file).
Proof.
  intros Heq. unfold get_control_files.
  rewrite bool_decide_eq_true_2 by done. eexists. split; [done|].
  rewrite DictProps.comprehension_get. case_bool_decide as Hc.
  - rewrite get_zip_last_paired. rewrite elem_of_flag_set in Hc. tauto.
  - rewrite elem_of_flag_set in Hc. split; [done|tauto].
Qed.

Lemma contaminated_get (infiles cell_ids : list string)
    (metrics : list metrics_row) (cell file : string) :
  list_to_set cell_ids = cell_id_set metrics →
  ∃ contaminated,
    get_contaminated_files infiles cell_ids metrics = inr contaminated
    ∧ (Dict.get cell contaminated = Some file
       ↔ ¬ flagged is_control metrics cell
         ∧ flagged is_contaminated metrics cell
         ∧ last_paired cell_ids infiles cell file).
Proof.
  intros Heq. unfold get_contaminated_files.
  rewrite bool_decide_eq_true_2 by done. eexists. split; [done|].
  rewrite DictProps.comprehension_get.
  rewrite DictProps.get_reverse_NoDup
    by apply DictProps.NoDup_keys_comprehension.
  rewrite DictProps.comprehension_get.
  repeat case_bool_decide; rewrite ?get_zip_last_paired;
    rewrite ?elem_of_flag_set in *; (split; [done || tauto | tauto]).
Qed.

Lemma pass_get (infiles cell_ids : list string) (metrics : list metrics_row)
    (cell file : string) :
  list_to_set cell_ids = cell_id_set metrics →
  ∃ pass, get_pass_files infiles cell_ids metrics = inr pass
    ∧ (Dict.get cell pass = Some file
       ↔ ¬ flagged is_control metrics cell
         ∧ ¬ flagged is_contaminated metrics cell
         ∧ last_paired cell_ids infiles cell file).
Proof.
  intros Heq. unfold get_pass_files.
  rewrite bool_decide_eq_true_2 by done. eexists. split; [done|].
  rewrite DictProps.comprehension_get.
  rewrite DictProps.get_reverse_NoDup
    by apply DictProps.NoDup_keys_comprehension.
  rewrite DictProps.comprehension_get.
  repeat case_bool_decide; rewrite ?get_zip_last_paired;
    rewrite ?elem_of_flag_set in *; (split; [done || tauto | tauto]).
Qed.

(** Membership in the three key sets, when every cell id has an
    artifact. *)
Lemma key_set_paired (infiles cell_ids : list string) (cell : string)
    (d : list (string * string)) (P : Prop) :
  (length cell_ids <= length infiles)%nat →
  (∀ file, Dict.get cell d = Some file
           ↔ P ∧ last_paired cell_ids infiles cell file) →
  cell ∈ key_set d ↔ P ∧ cell ∈ cell_ids.
Proof.
  intros Hlen Hget. rewrite elem_of_key_set. split.
  - intros [file (HP & Hp)%Hget]. split; [done|].
    by eapply last_paired_elem_of.
  - intros [HP Hin].
    destruct (last_paired_exists cell_ids infiles cell Hlen Hin) as [file Hp].
    exists file. by apply Hget.
Qed.

Lemma flagged_dec (f : metrics_row → bool) (metrics : list metrics_row)
    (cell : string) :
  flagged f metrics cell ∨ ¬ flagged f metrics cell.
Proof.
  rewrite <- elem_of_flag_set.
  destruct (decide (cell ∈ cell_id_set (filter (λ r, f r) metrics))); auto.
Qed.

(** C3, amended: when the supplied cell ids are, as a set, those of the
    metrics table, and every cell id has an artifact at its position (the
    list of artifacts is at least as long as the list of cell ids), the
    three mappings have pairwise disjoint key sets whose union is the
    whole set of cell ids; a cell with a row flagged [is_control] is in
    the control mapping, whatever its [is_contaminated]; a cell with no
    such row and a row flagged [is_contaminated] is in the contaminated
    mapping; every other cell is in the pass mapping. *)
Theorem classifier_partitions (infiles cell_ids : list string)
    (metrics : list metrics_row) :
  list_to_set cell_ids = cell_id_set metrics →
  (length cell_ids <= length infiles)%nat →
  partitions infiles cell_ids metrics.
Proof.
  intros Heq Hlen. unfold partitions.
  destruct (control_get infiles cell_ids metrics "" "" Heq) as (control & Hc & _).
  destruct (contaminated_get infiles cell_ids metrics "" "" Heq)
    as (contaminated & Ht & _).
  destruct (pass_get infiles cell_ids metrics "" "" Heq) as (pass & Hp & _).
  assert (∀ cell, cell ∈ key_set control
          ↔ flagged is_control metrics cell ∧ cell ∈ cell_ids) as Kc.
  { intros cell. apply (key_set_paired infiles); [done|]. intros file.
    destruct (control_get infiles cell_ids metrics cell file Heq)
      as (d & Hd & Hiff).
    rewrite Hc in Hd. by injection Hd as <-. }
  assert (∀ cell, cell ∈ key_set contaminated
          ↔ (¬ flagged is_control metrics cell
             ∧ flagged is_contaminated metrics cell) ∧ cell ∈ cell_ids) as Kt.
  { intros cell. apply (key_set_paired infiles); [done|]. intros file.
    destruct (contaminated_get infiles cell_ids metrics cell file Heq)
      as (d & Hd & Hiff).
    rewrite Ht in Hd. injection Hd as <-. tauto. }
  assert (∀ cell, cell ∈ key_set pass
          ↔ (¬ flagged is_control metrics cell
             ∧ ¬ flagged is_contaminated metrics cell) ∧ cell ∈ cell_ids) as Kp.
  { intros cell. apply (key_set_paired infiles); [done|]. intros file.
    destruct (pass_get infiles cell_ids metrics cell file Heq)
      as (d & Hd & Hiff).
    rewrite Hp in Hd. injection Hd as <-. tauto. }
  exists control, contaminated, pass. split_and!; [done..| | | | |].
  - apply elem_of_disjoint. intros cell. rewrite Kc, Kt. tauto.
  - apply elem_of_disjoint. intros cell. rewrite Kc, Kp. tauto.
  - apply elem_of_disjoint. intros cell. rewrite Kt, Kp. tauto.
  - apply set_eq. intros cell. rewrite <- Heq.
    rewrite !elem_of_union, Kc, Kt, Kp, elem_of_list_to_set.
    destruct (flagged_dec is_control metrics cell);
      destruct (flagged_dec is_contaminated metrics cell); tauto.
  - intros cell. rewrite <- Heq, elem_of_list_to_set, Kc, Kt, Kp. tauto.
Qed.

Lemma abc_cell_ids : list_to_set ["A"; "B"; "C"] = cell_id_set abc_metrics.
Proof. apply (bool_decide_eq_true_1 _). vm_compute. reflexivity. Defined.

Lemma classifier_partitions_witness :
  partitions ["a.bam"; "b.bam"; "c.bam"] ["A"; "B"; "C"] abc_metrics.
Proof.
  apply (classifier_partitions ["a.bam"; "b.bam"; "c.bam"] ["A"; "B"; "C"]
           abc_metrics).
  - apply (bool_decide_eq_true_1 _). vm_compute. reflexivity.
  - simpl. lia.
Defined.

Example classifier_abc :
  get_control_files ["a.bam"; "b.bam"; "c.bam"] ["A"; "B"; "C"] abc_metrics
  = inr [("A", "a.bam")]
  ∧ get_contaminated_files ["a.bam"; "b.bam"; "c.bam"] ["A"; "B"; "C"] abc_metrics
    = inr [("B", "b.bam")]
  ∧ get_pass_files ["a.bam"; "b.bam"; "c.bam"] ["A"; "B"; "C"] abc_metrics
    = inr [("C", "c.bam")].
Proof. vm_compute. done. Qed.

(** C3 as stated fails when an artifact is missing: with cell ids
    [A; B; C], the matching metrics table and only the artifact of [A],
    the sets of cell ids are equal, no call fails, and the three mappings
    hold [A] alone. *)
Lemma classifier_partitions_short_infiles :
  list_to_set ["A"; "B"; "C"] = cell_id_set abc_metrics
  ∧ get_control_files ["a.bam"] ["A"; "B"; "C"] abc_metrics = inr [("A", "a.bam")]
  ∧ get_contaminated_files ["a.bam"] ["A"; "B"; "C"] abc_metrics = inr []
  ∧ get_pass_files ["a.bam"] ["A"; "B"; "C"] abc_metrics = inr []
  ∧ ¬ partitions ["a.bam"] ["A"; "B"; "C"] abc_metrics.
Proof.
  split; [exact abc_cell_ids|].
  assert (get_control_files ["a.bam"] ["A"; "B"; "C"] abc_metrics
          = inr [("A", "a.bam")]) as Hc by (vm_compute; reflexivity).
  assert (get_contaminated_files ["a.bam"] ["A"; "B"; "C"] abc_metrics = inr [])
    as Ht by (vm_compute; reflexivity).
  assert (get_pass_files ["a.bam"] ["A"; "B"; "C"] abc_metrics = inr [])
    as Hp by (vm_compute; reflexivity).
  split_and!; [done..|].
  intros (control & contaminated & pass & Hc' & Ht' & Hp' & _ & _ & _ & Hu & _).
  rewrite Hc in Hc'. rewrite Ht in Ht'. rewrite Hp in Hp'.
  injection Hc' as <-. injection Ht' as <-. injection Hp' as <-.
  assert ("B" ∈ cell_id_set abc_metrics) as HB.
  { rewrite <- abc_cell_ids. set_solver. }
  rewrite <- Hu in HB. unfold key_set in HB. simpl in HB. set_solver.
Qed.

(** C7: when the set of supplied cell ids is not the set of cell ids of
    the metrics table, each of the three functions fails on its [assert]
    (the [AssertionError] is what the specification calls
    [SetMismatchError]) and returns no mapping. *)
Theorem classifier_set_mismatch (infiles cell_ids : list string)
    (metrics : list metrics_row) :
  list_to_set cell_ids ≠ cell_id_set metrics →
  get_pass_files infiles cell_ids metrics = inl AssertionError
  ∧ get_control_files infiles cell_ids metrics = inl AssertionError
  ∧ get_contaminated_files infiles cell_ids metrics = inl AssertionError.
Proof.
  intros Hne. unfold get_pass_files, get_control_files, get_contaminated_files.
  by rewrite !bool_decide_eq_false_2 by done.
Qed.

Lemma classifier_set_mismatch_witness :
  get_pass_files ["a.bam"; "b.bam"] ["A"; "B"] abc_metrics = inl AssertionError
  ∧ get_control_files ["a.bam"; "b.bam"] ["A"; "B"] abc_metrics
    = inl AssertionError
  ∧ get_contaminated_files ["a.bam"; "b.bam"] ["A"; "B"] abc_metrics
    = inl AssertionError.
Proof.
  apply (classifier_set_mismatch ["a.bam"; "b.bam"] ["A"; "B"] abc_metrics).
  apply (bool_decide_eq_false_1 _). vm_compute. reflexivity.
Defined.

(** C10: set equality of the cell ids is all the three functions check.
    Whatever the lengths of the two lists and however often a cell id
    occurs, no error is raised, and a cell of the group is mapped to the
    artifact at the last position that holds the cell and has an
    artifact: positions past the end of the shorter list are dropped and
    later occurrences overwrite earlier ones. *)
Theorem classifier_positional_pairing (infiles cell_ids : list string)
    (metrics : list metrics_row) :
  list_to_set cell_ids = cell_id_set metrics →
  ∃ control contaminated pass,
    get_control_files infiles cell_ids metrics = inr control
    ∧ get_contaminated_files infiles cell_ids metrics = inr contaminated
    ∧ get_pass_files infiles cell_ids metrics = inr pass
    ∧ ∀ cell file,
        (Dict.get cell control = Some file
         ↔ flagged is_control metrics cell
           ∧ last_paired cell_ids infiles cell file)
        ∧ (Dict.get cell contaminated = Some file
           ↔ ¬ flagged is_control metrics cell
             ∧ flagged is_contaminated metrics cell
             ∧ last_paired cell_ids infiles cell file)
        ∧ (Dict.get cell pass = Some file
           ↔ ¬ flagged is_control metrics cell
             ∧ ¬ flagged is_contaminated metrics cell
             ∧ last_paired cell_ids infiles cell file).
Proof.
  intros Heq.
  destruct (control_get infiles cell_ids metrics "" "" Heq) as (control & Hc & _).
  destruct (contaminated_get infiles cell_ids metrics "" "" Heq)
    as (contaminated & Ht & _).
  destruct (pass_get infiles cell_ids metrics "" "" Heq) as (pass & Hp & _).
  exists control, contaminated, pass. split_and!; [done..|].
  intros cell file. split_and!.
  - destruct (control_get infiles cell_ids metrics cell file Heq)
      as (d & Hd & Hiff). rewrite Hc in Hd. by injection Hd as <-.
  - destruct (contaminated_get infiles cell_ids metrics cell file Heq)
      as (d & Hd & Hiff). rewrite Ht in Hd. by injection Hd as <-.
  - destruct (pass_get infiles cell_ids metrics cell file Heq)
      as (d & Hd & Hiff). rewrite Hp in Hd. by injection Hd as <-.
Qed.

Lemma classifier_positional_pairing_witness :
  ∃ control contaminated pass,
    get_control_files ["1"; "2"; "3"; "4"; "5"] ["C"; "A"; "C"; "B"] abc_metrics
    = inr control
    ∧ get_contaminated_files ["1"; "2"; "3"; "4"; "5"] ["C"; "A"; "C"; "B"]
        abc_metrics = inr contaminated
    ∧ get_pass_files ["1"; "2"; "3"; "4"; "5"] ["C"; "A"; "C"; "B"] abc_metrics
      = inr pass
    ∧ ∀ cell file,
        (Dict.get cell control = Some file
         ↔ flagged is_control abc_metrics cell
           ∧ last_paired ["C"; "A"; "C"; "B"] ["1"; "2"; "3"; "4"; "5"] cell file)
        ∧ (Dict.get cell contaminated = Some file
           ↔ ¬ flagged is_control abc_metrics cell
             ∧ flagged is_contaminated abc_metrics cell
             ∧ last_paired ["C"; "A"; "C"; "B"] ["1"; "2"; "3"; "4"; "5"] cell file)
        ∧ (Dict.get cell pass = Some file
           ↔ ¬ flagged is_control abc_metrics cell
             ∧ ¬ flagged is_contaminated abc_metrics cell
             ∧ last_paired ["C"; "A"; "C"; "B"] ["1"; "2"; "3"; "4"; "5"] cell file).
Proof.
  apply (classifier_positional_pairing ["1"; "2"; "3"; "4"; "5"]
           ["C"; "A"; "C"; "B"] abc_metrics).
  apply (bool_decide_eq_true_1 _). vm_compute. reflexivity.
Defined.

(** Duplicates and a longer list of artifacts: the second [C] wins and
    the fifth artifact is dropped; a shorter list of artifacts drops the
    cells past its end. *)
Example classifier_duplicates :
  get_pass_files ["1"; "2"; "3"; "4"; "5"] ["C"; "A"; "C"; "B"] abc_metrics
  = inr [("C", "3")]
  ∧ get_control_files ["1"; "2"; "3"; "4"; "5"] ["C"; "A"; "C"; "B"] abc_metrics
    = inr [("A", "2")]
  ∧ get_contaminated_files ["1"] ["C"; "A"; "C"; "B"] abc_metrics = inr [].
Proof. vm_compute. done. Qed.

End ClassifierProps.

(** * Properties of the contamination detector *)

Module ContaminationProps.
Import Binary64 Contamination.

(** ** Comparison of binary64 numbers *)

Lemma SFleb_not_ltb (a b : spec_float) : SFleb a b = true → SFltb b a = false.
Proof.
  unfold SFleb, SFltb.
  destruct a as [sa|sa| |sa ma ea], b as [sb|sb| |sb mb eb]; simpl;
    try destruct sa; try destruct sb; try done.
  - rewrite (Z.compare_antisym ea eb).
    destruct (ea ?= eb)%Z; simpl; try done.
    change (Pos.compare_cont Eq mb ma) with (Pos.compare mb ma).
    change (Pos.compare_cont Eq ma mb) with (Pos.compare ma mb).
    rewrite (Pos.compare_antisym ma mb). by destruct (ma ?= mb)%positive.
  - rewrite (Z.compare_antisym ea eb).
    destruct (ea ?= eb)%Z; simpl; try done.
    change (Pos.compare_cont Eq mb ma) with (Pos.compare mb ma).
    change (Pos.compare_cont Eq ma mb) with (Pos.compare ma mb).
    rewrite (Pos.compare_antisym ma mb). by destruct (ma ?= mb)%positive.
Qed.

(** [r <= t] excludes [r > t]; a ratio equal to the threshold is such
    an [r]. *)
Lemma leb_not_ltb (r t : float) :
  PrimFloat.leb r t = true → PrimFloat.ltb t r = false.
Proof. rewrite leb_spec, ltb_spec. apply SFleb_not_ltb. Qed.

(** ** Column names *)

Lemma append_assoc (a b c : string) : (a +:+ b) +:+ c = a +:+ (b +:+ c).
Proof.
  induction a as [|x a IH]; [done|].
  change (String x ((a +:+ b) +:+ c) = String x (a +:+ (b +:+ c))).
  by rewrite IH.
Qed.

Lemma prefix_append (p s : string) :
  String.prefix p s = true ↔ ∃ r, s = p +:+ r.
Proof.
  revert s. induction p as [|c p IH]; intros s.
  - destruct s; simpl; split; eauto.
  - destruct s as [|c' s]; simpl.
    + split; [done|]. by intros [r ?].
    + destruct (ascii_dec c c') as [<-|Hne].
      * rewrite IH. split; intros [r Hr]; exists r.
        -- change (String c s = String c (p +:+ r)). by rewrite Hr.
        -- change (String c s = String c (p +:+ r)) in Hr. by injection Hr.
      * split; [done|]. intros [r Hr].
        change (String c' s = String c (p +:+ r)) in Hr. by injection Hr.
Qed.

(** The first field of a split string is the part before the first
    separator. *)
Lemma split_head (sep : Ascii.ascii) (s : string) :
  ∃ w ws, split sep s = w :: ws
    ∧ (s = w ∨ ∃ rest, s = w +:+ String sep rest).
Proof.
  induction s as [|c s (w & ws & Hs & Hw)]; simpl.
  - exists EmptyString, []. auto.
  - destruct (decide (c = sep)) as [->|Hne].
    + exists EmptyString, (split sep s). split; [done|]. right. by exists s.
    + rewrite Hs. exists (String c w), ws. split; [done|].
      destruct Hw as [->|[rest ->]]; [by left|]. right. by exists rest.
Qed.

Lemma split_free (sep : Ascii.ascii) (w : string) :
  free_of sep w = true → split sep w = [w].
Proof.
  induction w as [|c w IH]; [done|].
  cbn [free_of split]. intros [Hc Hw]%andb_true_iff.
  apply bool_decide_eq_true in Hc.
  by rewrite decide_False, IH.
Qed.

Lemma split_append (sep : Ascii.ascii) (w r : string) :
  free_of sep w = true → split sep (w +:+ String sep r) = w :: split sep r.
Proof.
  induction w as [|c w IH].
  - intros _. change (EmptyString +:+ String sep r) with (String sep r).
    cbn [split]. by rewrite decide_True.
  - cbn [free_of]. intros [Hc Hw]%andb_true_iff.
    apply bool_decide_eq_true in Hc.
    change (String c w +:+ String sep r) with (String c (w +:+ String sep r)).
    cbn [split]. by rewrite decide_False, IH.
Qed.

(** [split('_')[1]] of a [fastqscreen_] column exists, and the column
    names that organism. *)
Lemma split_field1 (col : string) :
  String.prefix "fastqscreen_" col = true →
  ∃ o, split "_" col !! 1%nat = Some o ∧ names_organism o col = true.
Proof.
  intros [r ->]%prefix_append.
  destruct (split_head "_" r) as (w & ws & Hs & Hw).
  exists w. split.
  - change ("fastqscreen_" +:+ r) with ("fastqscreen" +:+ String "_" r).
    rewrite split_append by done. by rewrite Hs.
  - unfold names_organism. apply orb_true_iff.
    destruct Hw as [->|[rest ->]].
    + left. by apply bool_decide_eq_true.
    + right. apply prefix_append. exists rest.
      rewrite !append_assoc. done.
Qed.

Lemma elem_of_sorted_set (l : list string) (x : string) :
  x ∈ sorted_set l ↔ x ∈ l.
Proof.
  unfold sorted_set.
  by rewrite merge_sort_Permutation, elem_of_elements, elem_of_list_to_set.
Qed.

Lemma elem_of_organisms (df : dataframe) (o : string) :
  o ∈ organisms df
  ↔ ((o ∉ ["nohit"; "total"])
     ∧ ∃ col, col ∈ columns df ∧ String.prefix "fastqscreen_" col = true
         ∧ default EmptyString (split "_" col !! 1%nat) = o).
Proof.
  unfold organisms.
  rewrite list_elem_of_filter, elem_of_sorted_set, list_elem_of_fmap.
  split; intros [Hn (col & H1 & H2)]; (split; [done|]); exists col.
  - apply list_elem_of_filter in H2 as [? ?]. done.
  - destruct H2 as [? ?]. split; [done|]. by apply list_elem_of_filter.
Qed.

(** Every organism found comes from a column that names it. *)
Lemma organisms_named (df : dataframe) (o : string) :
  o ∈ organisms df → ∃ col, col ∈ columns df ∧ names_organism o col = true.
Proof.
  intros (_ & col & Hcol & Hp & Ho)%elem_of_organisms.
  destruct (split_field1 col Hp) as (o' & Hs & Hn).
  rewrite Hs in Ho. simpl in Ho. subst o'. eauto.
Qed.

(** C8: when no [fastqscreen_] column names the primary reference
    organism, [add_contamination_status] raises its exception (a plain
    [Exception], which the specification calls [ConfigurationError])
    before anything is written. *)
Theorem contamination_missing_reference (data : dataframe) (reference : string)
    (threshold : float) :
  (∀ col, col ∈ columns data → names_organism reference col = false) →
  add_contamination_status data reference threshold
  = inl (Exception "Could not find the fastq screen counts").
Proof.
  intros Hno. unfold add_contamination_status.
  rewrite bool_decide_eq_true_2; [done|].
  intros (col & Hcol & Hn)%organisms_named.
  rewrite (Hno col Hcol) in Hn. done.
Qed.

Lemma contamination_missing_reference_witness :
  add_contamination_status sample_table "salmon" default_threshold
  = inl (Exception "Could not find the fastq screen counts").
Proof.
  apply (contamination_missing_reference sample_table "salmon" default_threshold).
  apply Forall_forall. apply (bool_decide_eq_true_1 _). vm_compute. reflexivity.
Defined.

(** A plain column [fastqscreen_<organism>] makes [organism] one of the
    organisms, unless its name has an underscore or is [nohit] or
    [total]. *)
Lemma organisms_complete (df : dataframe) (o : string) :
  "fastqscreen_" +:+ o ∈ columns df → free_of "_" o = true →
  o ∉ ["nohit"; "total"] → o ∈ organisms df.
Proof.
  intros Hcol Hfree Hn. apply elem_of_organisms. split; [done|].
  exists ("fastqscreen_" +:+ o). split_and!; [done| |].
  - apply prefix_append. by exists o.
  - change ("fastqscreen_" +:+ o) with ("fastqscreen" +:+ String "_" o).
    by rewrite split_append, split_free.
Qed.

(** ** The loop over the alternative organisms *)

Lemma unique_ratio_spec (df : dataframe) (o : string) :
  has_counts df o →
  ∃ rs, unique_ratio df o = inr rs
    ∧ length rs = length (cell_id df)
    ∧ ∀ i : nat, rs !! i = ratio_at df o i.
Proof.
  intros (mapped & multihit & total & Hm & Hh & Ht & Lm & Lh & Lt).
  unfold unique_ratio, _get_col_data, get_column, ratio_at.
  rewrite Hm, Hh, Ht. simpl. eexists. split; [done|]. split.
  - rewrite !length_zip_with. lia.
  - intros i. rewrite !lookup_zip_with.
    destruct (mapped !! i), (multihit !! i), (total !! i); done.
Qed.

Lemma flag_loop_spec (df : dataframe) (threshold : float) (alts : list string)
    (flags : list bool) :
  (∀ o, o ∈ alts → has_counts df o) →
  length flags = length (cell_id df) →
  ∃ flags', flag_loop df alts threshold flags = inr flags'
    ∧ length flags' = length (cell_id df)
    ∧ ∀ i : nat, flags' !! i = Some true
        ↔ flags !! i = Some true
          ∨ ∃ o r, o ∈ alts ∧ ratio_at df o i = Some r
              ∧ PrimFloat.ltb threshold r = true.
Proof.
  revert flags. induction alts as [|o alts IH]; intros flags Hc Hlen.
  - exists flags. split_and!; [done..|]. intros i. split; [auto|].
    intros [?|(o & r & []%elem_of_nil & _)]. done.
  - destruct (unique_ratio_spec df o) as (rs & Hrs & Lrs & Hlook).
    { apply Hc. left. }
    cbn [flag_loop]. rewrite Hrs. cbn [bind].
    set (flags1 := set_true_where _ flags).
    destruct (IH flags1) as (flags' & Hloop & Lf & Hiff).
    { intros o' Ho'. apply Hc. by right. }
    { unfold flags1, set_true_where.
      rewrite length_zip_with, length_fmap. lia. }
    exists flags'. split_and!; [done..|]. intros i. rewrite Hiff.
    assert (flags1 !! i = Some true
            ↔ flags !! i = Some true
              ∨ ∃ r, ratio_at df o i = Some r
                  ∧ PrimFloat.ltb threshold r = true) as ->.
    { unfold flags1, set_true_where.
      rewrite lookup_zip_with, list_lookup_fmap, Hlook.
      destruct (flags !! i) as [b|] eqn:Hb; simpl.
      - destruct (ratio_at df o i) as [r|] eqn:Hr; simpl.
        + split.
          * intros [= [->| Hlt]%orb_true_iff]; [by left|]. right. eauto.
          * intros [[= ->]|(r' & [= <-] & Hlt)]; [done|].
            by rewrite Hlt, orb_true_r.
        + split; [done|]. intros [[= ->]|(r' & [=] & _)].
          apply lookup_lt_Some in Hb.
          rewrite <- Hlook in Hr. apply lookup_ge_None in Hr. lia.
      - split; [done|]. intros [[=]|(r' & Hr & _)].
        rewrite <- Hlook in Hr. apply lookup_lt_Some in Hr.
        apply lookup_ge_None in Hb. lia. }
    split.
    + intros [[?|(r & Hr & Hlt)]|(o' & r & Ho' & Hr & Hlt)]; [by left| |].
      * right. exists o, r. split_and!; [left|done..].
      * right. exists o', r. split_and!; [by right|done..].
    + intros [?|(o' & r & [->|Ho']%elem_of_cons & Hr & Hlt)].
      * left. by left.
      * left. right. eauto.
      * right. eauto.
Qed.

(** The flags in terms of the organisms that the function extracts from
    the column names. *)
Lemma flag_iff_organisms (data : dataframe) (reference : string)
    (threshold : float) :
  reference ∈ organisms data →
  (∀ o, o ∈ organisms data → o ≠ reference → has_counts data o) →
  ∃ w, add_contamination_status data reference threshold = inr w
    ∧ w_data w = data
    ∧ length (w_is_contaminated w) = length (cell_id data)
    ∧ ∀ i : nat, (i < length (cell_id data))%nat →
        (w_is_contaminated w !! i = Some true
         ↔ ∃ o r, o ∈ organisms data ∧ o ≠ reference
             ∧ ratio_at data o i = Some r
             ∧ PrimFloat.ltb threshold r = true)
        ∧ ((∀ o r, o ∈ organisms data → o ≠ reference →
              ratio_at data o i = Some r → PrimFloat.leb r threshold = true) →
           w_is_contaminated w !! i = Some false).
Proof.
  intros Href Hcounts. unfold add_contamination_status.
  rewrite bool_decide_eq_false_2 by (intros Hn; by apply Hn).
  destruct (flag_loop_spec data threshold
              (filter (λ col, ¬ col = reference) (organisms data))
              (replicate (length (cell_id data)) false))
    as (flags & Hloop & Lf & Hiff).
  { intros o [Hne Ho]%list_elem_of_filter. by apply Hcounts. }
  { by rewrite length_replicate. }
  rewrite Hloop. cbn [bind]. eexists. split; [done|]. cbn [w_data w_is_contaminated].
  split_and!; [done..|]. intros i Hi.
  assert (flags !! i = Some true
          ↔ ∃ o r, o ∈ organisms data ∧ o ≠ reference
              ∧ ratio_at data o i = Some r
              ∧ PrimFloat.ltb threshold r = true) as Hflag.
  { rewrite Hiff. split.
    - intros [Hrep|(o & r & [Hne Ho]%list_elem_of_filter & Hr & Hlt)].
      + apply lookup_replicate in Hrep as [[=] _].
      + exists o, r. done.
    - intros (o & r & Ho & Hne & Hr & Hlt). right. exists o, r.
      split_and!; [|done..]. by apply list_elem_of_filter. }
  split; [done|]. intros Hle.
  destruct (lookup_lt_is_Some_2 flags i ltac:(lia)) as [[|] Hb]; [|done].
  apply Hflag in Hb as (o & r & Ho & Hne & Hr & Hlt).
  rewrite (leb_not_ltb r threshold) in Hlt; [done|]. by eapply Hle.
Qed.

Lemma sample_organisms : organisms sample_table = ["grch37"; "mm10"].
Proof. vm_compute. reflexivity. Defined.

(** The second field of the columns of the schema. *)
Lemma schema_column_field1 (genomes : list string) (col : string) :
  Forall (λ genome, free_of "_" genome = true) genomes →
  col ∈ schema_columns genomes →
  ∃ o, split "_" col !! 1%nat = Some o
    ∧ (o ∈ ["nohit"; "total"] ∨ o ∈ genomes).
Proof.
  intros Hfree. unfold schema_columns. rewrite elem_of_app.
  intros [Hcol|Hcol].
  - repeat (apply elem_of_cons in Hcol as [->|Hcol];
            [eexists; split; [vm_compute; reflexivity|]; left;
             apply (bool_decide_eq_true_1 _); vm_compute; reflexivity|]).
    by apply elem_of_nil in Hcol.
  - apply list_elem_of_bind in Hcol as (genome & Hcol & Hg).
    rewrite Forall_forall in Hfree. specialize (Hfree genome Hg).
    exists genome. split; [|by right].
    change ("fastqscreen_" +:+ genome) with ("fastqscreen" +:+ String "_" genome) in Hcol.
    change ("fastqscreen_" +:+ genome +:+ "_multihit")
      with ("fastqscreen" +:+ String "_" (genome +:+ String "_" "multihit")) in Hcol.
    change ("fastqscreen_" +:+ genome +:+ "_ratio")
      with ("fastqscreen" +:+ String "_" (genome +:+ String "_" "ratio")) in Hcol.
    apply elem_of_cons in Hcol as [->|Hcol];
      [by rewrite split_append, split_free by done|].
    apply elem_of_cons in Hcol as [->|Hcol];
      [by rewrite !split_append by done|].
    apply list_elem_of_singleton in Hcol as ->.
    by rewrite !split_append by done.
Qed.

(** On a table that holds the screen of [genomes], the organisms that
    the function finds are these genomes. *)
Lemma screened_organisms (df : dataframe) (genomes : list string) (o : string) :
  screened df genomes → o ∈ organisms df ↔ o ∈ genomes.
Proof.
  intros [Hcols Hgen]. split.
  - intros (Hn & col & Hcol & Hp & Ho)%elem_of_organisms.
    destruct (schema_column_field1 genomes col) as (o' & Hs & Ho').
    { apply Forall_forall. intros g Hg. by apply Hgen. }
    { by apply Hcols. }
    rewrite Hs in Ho. cbn in Ho. subst o'. by destruct Ho'.
  - intros Hg. destruct (Hgen o Hg) as (Hcol & Hfree & Hn).
    by apply organisms_complete.
Qed.

(** The claim C4 as stated fails when the name of the primary reference
    has an underscore: this table holds the counts of [homo_sapiens]
    (and of [grch37]) for its cell, but the organism read off the column
    names is [homo], the reference is not found, and the function raises
    instead of setting the flag. *)
Lemma contamination_underscore_reference :
  "fastqscreen_homo_sapiens" ∈ columns ContaminationSamples.underscore_table
  ∧ has_counts ContaminationSamples.underscore_table "homo_sapiens"
  ∧ has_counts ContaminationSamples.underscore_table "grch37"
  ∧ add_contamination_status ContaminationSamples.underscore_table
      "homo_sapiens" default_threshold
    = inl (Exception "Could not find the fastq screen counts")
  ∧ ¬ ∃ w, add_contamination_status ContaminationSamples.underscore_table
             "homo_sapiens" default_threshold = inr w.
Proof.
  assert (add_contamination_status ContaminationSamples.underscore_table
            "homo_sapiens" default_threshold
          = inl (Exception "Could not find the fastq screen counts")) as Heq
    by (vm_compute; reflexivity).
  split_and!.
  - apply (bool_decide_eq_true_1 _). vm_compute. reflexivity.
  - exists [6], [1], [100]. split_and!; vm_compute; reflexivity.
  - exists [90], [0], [100]. split_and!; vm_compute; reflexivity.
  - done.
  - intros [w Hw]. rewrite Heq in Hw. discriminate Hw.
Qed.

(** C4, for a table that holds the screen of genomes named without
    underscore: when the primary reference is one of the genomes and the
    other genomes have their count columns, the table is written with an
    [is_contaminated] column that is true for a cell exactly when, for
    some genome of the table other than the reference, the ratio
    [(mapped − multihit) / total_reads] is strictly greater than the
    threshold; a cell whose ratios are all equal to the threshold or
    below it is not flagged.  The ratio and the comparison are those of
    binary64 numbers. *)
Theorem contamination_flag_iff (data : dataframe) (genomes : list string)
    (reference : string) (threshold : float) :
  screened data genomes → reference ∈ genomes →
  (∀ genome, genome ∈ genomes → genome ≠ reference → has_counts data genome) →
  ∃ w, add_contamination_status data reference threshold = inr w
    ∧ w_data w = data
    ∧ length (w_is_contaminated w) = length (cell_id data)
    ∧ ∀ i : nat, (i < length (cell_id data))%nat →
        (w_is_contaminated w !! i = Some true
         ↔ ∃ genome r, genome ∈ genomes ∧ genome ≠ reference
             ∧ ratio_at data genome i = Some r
             ∧ PrimFloat.ltb threshold r = true)
        ∧ ((∀ genome r, genome ∈ genomes → genome ≠ reference →
              ratio_at data genome i = Some r → PrimFloat.leb r threshold = true) →
           w_is_contaminated w !! i = Some false).
Proof.
  intros Hscr Href Hcounts.
  destruct (flag_iff_organisms data reference threshold)
    as (w & Hw & Hdata & Hlen & Hflags).
  { by apply (screened_organisms data genomes). }
  { intros o Ho%(screened_organisms data genomes) Hne; [|done]. by apply Hcounts. }
  exists w. split_and!; [done..|]. intros i Hi.
  destruct (Hflags i Hi) as [Hiff Hle]. split.
  - rewrite Hiff. split; intros (o & r & Ho & Hrest); exists o, r;
      (split; [|done]); by apply (screened_organisms data genomes).
  - intros Hall. apply Hle. intros o r Ho%(screened_organisms data genomes); [|done].
    by apply Hall.
Qed.

Lemma sample_screened : screened sample_table ["grch37"; "mm10"].
Proof.
  split.
  - intros col Hcol Hp. cbn [sample_table columns] in Hcol.
    apply elem_of_cons in Hcol as [->|Hcol]; [discriminate Hp|].
    repeat (apply elem_of_cons in Hcol as [->|Hcol];
            [apply (bool_decide_eq_true_1 _); vm_compute; reflexivity|]).
    by apply elem_of_nil in Hcol.
  - intros genome Hg.
    apply elem_of_cons in Hg as [->|Hg];
      [|apply list_elem_of_singleton in Hg as ->];
      (split_and!; [apply (bool_decide_eq_true_1 _); vm_compute; reflexivity
                   |reflexivity
                   |apply (bool_decide_eq_true_1 _); vm_compute; reflexivity]).
Defined.

Lemma contamination_flag_iff_witness :
  ∃ w, add_contamination_status sample_table "grch37" default_threshold = inr w
    ∧ w_data w = sample_table
    ∧ length (w_is_contaminated w) = length (cell_id sample_table)
    ∧ ∀ i : nat, (i < length (cell_id sample_table))%nat →
        (w_is_contaminated w !! i = Some true
         ↔ ∃ genome r, genome ∈ ["grch37"; "mm10"] ∧ genome ≠ "grch37"
             ∧ ratio_at sample_table genome i = Some r
             ∧ PrimFloat.ltb default_threshold r = true)
        ∧ ((∀ genome r, genome ∈ ["grch37"; "mm10"] → genome ≠ "grch37" →
              ratio_at sample_table genome i = Some r →
              PrimFloat.leb r default_threshold = true) →
           w_is_contaminated w !! i = Some false).
Proof.
  apply (contamination_flag_iff sample_table ["grch37"; "mm10"] "grch37"
           default_threshold).
  - exact sample_screened.
  - apply (bool_decide_eq_true_1 _). vm_compute. reflexivity.
  - intros o Ho Hne.
    apply elem_of_cons in Ho as [->|Ho]; [done|].
    apply list_elem_of_singleton in Ho as ->.
    exists [6; 7; 8], [1; 1; 1], [100; 100; 100].
    split_and!; vm_compute; reflexivity.
Defined.

(** At the default threshold, 5 unique mouse reads in 100 is a ratio
    equal to the threshold and is not flagged; 6 and 7 in 100 are. *)
Example contamination_sample :
  (w ←! add_contamination_status sample_table "grch37" default_threshold;
   inr (w_is_contaminated w, w_genomes w))
  = inr ([false; true; true], ["grch37"; "mm10"]).
Proof. vm_compute. reflexivity. Qed.

Example contamination_tie :
  ratio_at sample_table "mm10" 0 = Some default_threshold
  ∧ PrimFloat.ltb default_threshold default_threshold = false.
Proof. vm_compute. done. Qed.

End ContaminationProps.

(** * Properties of the group merger *)

Module MergerProps.
Import Merger.

(** For an empty group, [merge_cells] makes three calls and no other,
    and takes no step of its own that can raise: whatever the outside
    is, the run succeeds whenever these three calls do. *)
Lemma merge_cells_empty_calls {W : Type} (exec : action → W → exn + W)
    (tempdir : string) (ncores : Z) (outfile reference : string)
    (empty_bam_content : list string) (w w1 w2 w3 : W) :
  exec (WriteHeaderOnlyBam outfile empty_bam_content) w = inr w1 →
  exec (RunCmd ["samtools"; "index"; outfile]) w1 = inr w2 →
  exec (RunCmd ["igvtools"; "count"; outfile; outfile +:+ ".tdf"; reference]) w2
  = inr w3 →
  run exec (merge_cells [] tempdir ncores outfile reference empty_bam_content) w
  = inr w3.
Proof.
  intros H1 H2 H3. simpl. rewrite H1. simpl. rewrite H2. simpl. by rewrite H3.
Qed.

Lemma append_ne_self (s t : string) : t ≠ EmptyString → s ≠ s +:+ t.
Proof.
  intros Ht. induction s as [|c s IH].
  - intros H. by apply Ht.
  - change (String c s +:+ t) with (String c (s +:+ t)). by intros [= ?].
Qed.

(** C6: for an empty group, [merge_cells] makes three calls and no
    other: it writes [outfile] with the supplied header alone, runs
    [samtools index] on it and runs [igvtools count] on it.  In the file
    system modelled from the specification this run does not fail,
    whatever files exist before, and leaves the alignment file with the
    header and no records, its index and its count file. *)
Theorem merge_cells_empty_group (fs : gmap string file) (tempdir : string)
    (ncores : Z) (outfile reference : string) (empty_bam_content : list string) :
  merge_cells [] tempdir ncores outfile reference empty_bam_content
  = [WriteHeaderOnlyBam outfile empty_bam_content;
     RunCmd ["samtools"; "index"; outfile];
     RunCmd ["igvtools"; "count"; outfile; outfile +:+ ".tdf"; reference]]
  ∧ ∃ fs',
      run exec_fs
        (merge_cells [] tempdir ncores outfile reference empty_bam_content) fs
      = inr fs'
      ∧ fs' !! outfile = Some (BamFile empty_bam_content [])
      ∧ fs' !! (outfile +:+ ".bai") = Some (IndexFile outfile)
      ∧ fs' !! (outfile +:+ ".tdf") = Some (CountFile outfile reference).
Proof.
  split; [done|].
  assert (outfile ≠ outfile +:+ ".bai") as Hbai by by apply append_ne_self.
  assert (outfile ≠ outfile +:+ ".tdf") as Htdf by by apply append_ne_self.
  assert (outfile +:+ ".bai" ≠ outfile +:+ ".tdf") as Hbt.
  { intros H. by apply (inj (String.append outfile)) in H. }
  eexists. split.
  - simpl. rewrite lookup_insert_eq. simpl.
    rewrite lookup_insert_ne, lookup_insert_eq by done. done.
  - split_and!.
    + rewrite !lookup_insert_ne by done. apply lookup_insert_eq.
    + rewrite lookup_insert_ne by done. apply lookup_insert_eq.
    + apply lookup_insert_eq.
Qed.

(** The run on an empty group in an empty file system. *)
Example merge_cells_empty_example :
  run exec_fs
    (merge_cells [] "tmp/control" 4 "control.bam" "ref.fa" ["@HD VN:1.6"]) ∅
  = inr (<["control.bam.tdf" := CountFile "control.bam" "ref.fa"]>
           (<["control.bam.bai" := IndexFile "control.bam"]>
              (<["control.bam" := BamFile ["@HD VN:1.6"] []]> ∅))).
Proof.
  apply (merge_cells_empty_calls exec_fs "tmp/control" 4 "control.bam" "ref.fa"
           ["@HD VN:1.6"] ∅
           (<["control.bam" := BamFile ["@HD VN:1.6"] []]> ∅)
           (<["control.bam.bai" := IndexFile "control.bam"]>
              (<["control.bam" := BamFile ["@HD VN:1.6"] []]> ∅))).
  - vm_compute. reflexivity.
  - vm_compute. reflexivity.
  - vm_compute. reflexivity.
Qed.

(** A group with a member takes the other branch: merge, new header,
    reheader, and then the same index and count. *)
Example merge_cells_one_member :
  merge_cells [("A", "a.bam")] "tmp/control" 4 "control.bam" "ref.fa" ["@HD"]
  = [MergeBams ["a.bam"] "tmp/control/merged_all.bam" "tmp/control" 4;
     GetNewHeader ["A"] "tmp/control/merged_all.bam" "tmp/control/header.sam";
     Reheader "tmp/control/merged_all.bam" "tmp/control/header.sam" "control.bam";
     RunCmd ["samtools"; "index"; "control.bam"];
     RunCmd ["igvtools"; "count"; "control.bam"; "control.bam.tdf"; "ref.fa"]].
Proof. vm_compute. reflexivity. Qed.

End MergerProps.

(** * Properties of the metadata assembler *)

Module MetadataProps.
Import Metadata.

(** What the loop over the cells collects. *)
Lemma collect_spec (cells_dict : list (string * cell_info)) :
  collect cells_dict
  = (list_to_set ((λ kv, sample_id kv.2) <$> cells_dict),
     list_to_set ((λ kv, library_id kv.2) <$> cells_dict),
     Dict.keys cells_dict).
Proof.
  unfold collect, Dict.keys.
  induction cells_dict as [|[cell info] d IH] using rev_ind; [done|].
  rewrite foldl_app, IH, !fmap_app. cbn [foldl fmap list_fmap fst snd].
  by rewrite !list_to_set_snoc_L.
Qed.

Lemma sorted_Sorted (l : list string) : Sorted String.le (sorted l).
Proof. apply (Sorted_merge_sort _). Qed.

Lemma sorted_Permutation (l : list string) : sorted l ≡ₚ l.
Proof. apply merge_sort_Permutation. Qed.

(** The sorted list does not depend on the order of the input. *)
Lemma sorted_perm (l1 l2 : list string) : l1 ≡ₚ l2 → sorted l1 = sorted l2.
Proof.
  intros Hp. apply (Sorted_unique String.le); [apply sorted_Sorted..|].
  by rewrite !sorted_Permutation.
Qed.

(** C9: the [sample_ids], [library_ids] and [cell_ids] of the [meta]
    block are sorted in lexicographic order and have no duplicates; they
    hold the sample ids, the library ids and the cell ids of the input;
    and the same cells presented in another order give the same lists.
    The cells are the keys of a dictionary, so no cell occurs twice. *)
Theorem generate_metadata_sorted {L : Type}
    (cells_dict : list (string * cell_info)) (lane_data : L)
    (__version__ : string) :
  NoDup (Dict.keys cells_dict) →
  let m := generate_metadata cells_dict lane_data __version__ in
  (Sorted String.le (sample_ids m) ∧ NoDup (sample_ids m))
  ∧ (Sorted String.le (library_ids m) ∧ NoDup (library_ids m))
  ∧ (Sorted String.le (cell_ids m) ∧ NoDup (cell_ids m))
  ∧ (∀ x, x ∈ sample_ids m ↔ ∃ kv, kv ∈ cells_dict ∧ sample_id kv.2 = x)
  ∧ (∀ x, x ∈ library_ids m ↔ ∃ kv, kv ∈ cells_dict ∧ library_id kv.2 = x)
  ∧ (∀ x, x ∈ cell_ids m ↔ x ∈ Dict.keys cells_dict)
  ∧ ∀ cells_dict', cells_dict' ≡ₚ cells_dict →
      identifier_lists (generate_metadata cells_dict' lane_data __version__)
      = identifier_lists m.
Proof.
  intros Hnd m. subst m. unfold generate_metadata, identifier_lists.
  rewrite collect_spec. cbn [sample_ids library_ids cell_ids].
  split_and!.
  - apply sorted_Sorted.
  - rewrite sorted_Permutation. apply NoDup_elements.
  - apply sorted_Sorted.
  - rewrite sorted_Permutation. apply NoDup_elements.
  - apply sorted_Sorted.
  - by rewrite sorted_Permutation.
  - intros x.
    rewrite sorted_Permutation, elem_of_elements, elem_of_list_to_set,
      list_elem_of_fmap.
    split; intros (kv & ? & ?); exists kv; done.
  - intros x.
    rewrite sorted_Permutation, elem_of_elements, elem_of_list_to_set,
      list_elem_of_fmap.
    split; intros (kv & ? & ?); exists kv; done.
  - intros x. by rewrite sorted_Permutation.
  - intros d' Hp. rewrite collect_spec. cbn [sample_ids library_ids cell_ids].
    unfold Dict.keys. rewrite (sorted_perm (d'.*1) (cells_dict.*1)) by by rewrite Hp.
    assert (∀ f : string * cell_info → string,
              (list_to_set (f <$> d') : gset string)
              = list_to_set (f <$> cells_dict)) as Hset.
    { intros f. apply set_eq. intros x.
      rewrite !elem_of_list_to_set. by rewrite Hp. }
    by rewrite !Hset.
Qed.

Lemma generate_metadata_sorted_witness :
  let m := generate_metadata sample_cells () "0.0.1" in
  (Sorted String.le (sample_ids m) ∧ NoDup (sample_ids m))
  ∧ (Sorted String.le (library_ids m) ∧ NoDup (library_ids m))
  ∧ (Sorted String.le (cell_ids m) ∧ NoDup (cell_ids m))
  ∧ (∀ x, x ∈ sample_ids m ↔ ∃ kv, kv ∈ sample_cells ∧ sample_id kv.2 = x)
  ∧ (∀ x, x ∈ library_ids m ↔ ∃ kv, kv ∈ sample_cells ∧ library_id kv.2 = x)
  ∧ (∀ x, x ∈ cell_ids m ↔ x ∈ Dict.keys sample_cells)
  ∧ ∀ cells_dict', cells_dict' ≡ₚ sample_cells →
      identifier_lists (generate_metadata cells_dict' () "0.0.1")
      = identifier_lists m.
Proof.
  apply (generate_metadata_sorted sample_cells () "0.0.1").
  apply (bool_decide_eq_true_1 _). vm_compute. reflexivity.
Defined.

(** Cells in two orders: the same sorted lists; [c10] sorts before [c2],
    as strings do. *)
Example generate_metadata_sample :
  identifier_lists (generate_metadata sample_cells () "0.0.1")
  = (["s0"; "s1"], ["l1"; "l2"], ["c1"; "c10"; "c2"])
  ∧ identifier_lists (generate_metadata (reverse sample_cells) () "0.0.1")
    = (["s0"; "s1"], ["l1"; "l2"], ["c1"; "c10"; "c2"]).
Proof. vm_compute. done. Qed.

End MetadataProps.

(** * Further properties of the interval partitioner *)

Module IntervalExtras.
Import Intervals Genome IntervalProps.

Lemma generate_loop_targets (pairs : list (string * Z))
    (chromosomes : list string) (size : Z) :
  1 <= size →
  Forall (λ p : string * Z, in_float_range size p.2)
    (filter (λ p, p.1 ∈ chromosomes) pairs) →
  generate_loop pairs chromosomes size
  = (concat ((λ p, chunks p.1 p.2 size (p.2 `div` size + 1))
               <$> filter (λ p, p.1 ∈ chromosomes) pairs), None).
Proof.
  intros Hs. induction pairs as [|[name length_] pairs IH]; intros Hr; [done|].
  cbn [generate_loop]. case_bool_decide as Hin.
  - rewrite filter_cons_True in Hr |- * by done.
    apply Forall_cons in Hr as [Hr1 Hr].
    rewrite range_bound_in_range by done. by rewrite IH.
  - rewrite filter_cons_False in Hr |- * by done. by apply IH.
Qed.

Lemma targets_in_range (names : list string) (lengths : list Z)
    (chromosomes : list string) (size : Z) :
  Forall (in_float_range size) lengths →
  Forall (λ p : string * Z, in_float_range size p.2)
    (targets names lengths chromosomes).
Proof.
  intros Hl. apply Forall_forall. intros [name length_] Hin.
  apply list_elem_of_filter in Hin as [_ Hin].
  apply elem_of_zip_r in Hin. rewrite Forall_forall in Hl. by apply Hl.
Qed.

(** X1: for a chunk size of at least one and sequence lengths within
    [in_float_range], [generate_intervals] does not raise; it prints, in
    the order of the reference, the [length / size + 1] chunks of each
    sequence whose name is among the chromosomes, and nothing for the
    others; a chromosome that the reference lacks goes unnoticed. *)
Theorem generate_intervals_targets (names : list string) (lengths : list Z)
    (chromosomes : list string) (size : Z) :
  1 <= size → Forall (in_float_range size) lengths →
  generate_intervals names lengths chromosomes size
  = (concat ((λ p, chunks p.1 p.2 size (p.2 `div` size + 1))
               <$> targets names lengths chromosomes),
     None).
Proof.
  intros Hs Hl. apply generate_loop_targets; [done|].
  by apply targets_in_range.
Qed.

Lemma generate_intervals_targets_witness :
  generate_intervals ["chr1"; "chrM"; "chr2"] [25; 7; 10] ["chr2"; "chr1"; "chrX"] 10
  = (concat ((λ p, chunks p.1 p.2 10 (p.2 `div` 10 + 1))
               <$> targets ["chr1"; "chrM"; "chr2"] [25; 7; 10]
                     ["chr2"; "chr1"; "chrX"]),
     None).
Proof.
  apply (generate_intervals_targets ["chr1"; "chrM"; "chr2"] [25; 7; 10]
           ["chr2"; "chr1"; "chrX"] 10).
  - lia.
  - repeat constructor; lia.
Defined.

Lemma range_bound_zero (length_ : Z) :
  range_bound length_ 0 = inl ZeroDivisionError.
Proof. unfold range_bound, PyFloat.true_divide. by rewrite bool_decide_eq_true_2. Qed.

(** X2: with a chunk size of zero nothing is ever printed: the run ends
    with [ZeroDivisionError] at the first target sequence, and without an
    error when the reference has no target sequence. *)
Theorem generate_intervals_size_zero (names : list string) (lengths : list Z)
    (chromosomes : list string) :
  generate_intervals names lengths chromosomes 0
  = ([], if bool_decide (targets names lengths chromosomes = [])
         then None else Some ZeroDivisionError).
Proof.
  unfold generate_intervals, targets.
  induction (zip names lengths) as [|[name length_] pairs IH]; [done|].
  cbn [generate_loop]. destruct (decide (name ∈ chromosomes)) as [Hin|Hin].
  - rewrite filter_cons_True by done.
    rewrite (bool_decide_eq_true_2 (name ∈ chromosomes)) by done.
    rewrite range_bound_zero.
    by rewrite bool_decide_eq_false_2 by done.
  - rewrite filter_cons_False by done.
    by rewrite (bool_decide_eq_false_2 (name ∈ chromosomes)) by done.
Qed.

(** The positions of the chunks [k .. k + n] of a sequence. *)
Lemma total_width_chunk_run (name : string) (length_ size : Z) (n : nat) (k : Z) :
  1 <= size → 0 <= k →
  (k + Z.of_nat n) * size <= length_ < (k + Z.of_nat n + 1) * size →
  total_width (chunk name length_ size <$> seqZ k (Z.of_nat (S n)))
  = length_ - k * size.
Proof.
  intros Hs. revert k. induction n as [|n IH]; intros k Hk Hb.
  - change (seqZ k (Z.of_nat 1)) with [k]. simpl. unfold width. simpl. lia.
  - rewrite seqZ_cons by lia.
    replace (Z.pred (Z.of_nat (S (S n)))) with (Z.of_nat (S n)) by lia.
    rewrite fmap_cons. cbn [total_width foldr].
    fold (total_width (chunk name length_ size <$> seqZ (Z.succ k) (Z.of_nat (S n)))).
    rewrite IH by lia. unfold width, chunk. cbn [istart iend].
    rewrite Z.min_l by nia. lia.
Qed.

Lemma total_width_chunks (name : string) (length_ size : Z) :
  0 <= length_ → 1 <= size →
  total_width (chunks name length_ size (length_ `div` size + 1)) = length_.
Proof.
  intros Hl Hs. unfold chunks.
  pose proof (Z.div_pos length_ size ltac:(lia) ltac:(lia)) as Hq.
  pose proof (Z.div_mod length_ size ltac:(lia)) as Hdm.
  pose proof (Z.mod_pos_bound length_ size ltac:(lia)) as Hb.
  replace (length_ `div` size + 1)
    with (Z.of_nat (S (Z.to_nat (length_ `div` size)))) by lia.
  rewrite total_width_chunk_run by (rewrite ?Z2Nat.id by lia; lia). lia.
Qed.

Lemma total_width_app (l1 l2 : list interval) :
  total_width (l1 ++ l2) = total_width l1 + total_width l2.
Proof. induction l1 as [|iv l1 IH]; simpl; [done|]. rewrite IH. lia. Qed.

Lemma get_genome_size_targets (names : list string) (lengths : list Z)
    (chromosomes : list string) :
  get_genome_size names lengths chromosomes
  = foldr Z.add 0 ((targets names lengths chromosomes).*2).
Proof.
  unfold get_genome_size, targets.
  assert (∀ acc (pairs : list (string * Z)),
    foldl (λ genome_size '(name, length),
             if bool_decide (name ∉ chromosomes) then genome_size
             else genome_size + length) acc pairs
    = acc + foldr Z.add 0 ((filter (λ p, p.1 ∈ chromosomes) pairs).*2)) as H.
  { intros acc pairs. revert acc.
    induction pairs as [|[name length_] pairs IH]; intros acc; simpl; [lia|].
    rewrite IH. destruct (decide (name ∈ chromosomes)) as [Hin|Hin].
    - rewrite bool_decide_eq_false_2 by (intros Hn; by apply Hn).
      rewrite filter_cons_True by done. rewrite fmap_cons. simpl. lia.
    - rewrite bool_decide_eq_true_2 by done.
      rewrite filter_cons_False by done. done. }
  rewrite H. lia.
Qed.

(** X3: the intervals that [generate_intervals] prints cover as many
    positions as [get_genome_size] prints for the same reference and
    chromosomes: the sum of [end - start + 1] is the genome size, for a
    chunk size of at least one and sequence lengths within
    [in_float_range]. *)
Theorem generate_intervals_genome_size (names : list string) (lengths : list Z)
    (chromosomes : list string) (size : Z) :
  1 <= size → Forall (in_float_range size) lengths →
  total_width (generate_intervals names lengths chromosomes size).1
  = get_genome_size names lengths chromosomes.
Proof.
  intros Hs Hl. unfold generate_intervals.
  pose proof (targets_in_range names lengths chromosomes size Hl) as Hpos.
  rewrite generate_loop_targets by done. fold (targets names lengths chromosomes).
  rewrite get_genome_size_targets. cbn [fst].
  induction Hpos as [|[name length_] l [Hp _] Hpos IH]; [done|].
  cbn [fmap list_fmap concat foldr snd fst] in *.
  rewrite total_width_app, total_width_chunks by done.
  rewrite IH. done.
Qed.

Lemma generate_intervals_genome_size_witness :
  total_width
    (generate_intervals ["chr1"; "chrM"; "chr2"] [25; 7; 10] ["chr2"; "chr1"] 10).1
  = get_genome_size ["chr1"; "chrM"; "chr2"] [25; 7; 10] ["chr2"; "chr1"].
Proof.
  apply (generate_intervals_genome_size ["chr1"; "chrM"; "chr2"] [25; 7; 10]
           ["chr2"; "chr1"] 10).
  - lia.
  - repeat constructor; lia.
Defined.

Lemma elem_of_concat {A : Type} (x : A) (ls : list (list A)) :
  x ∈ concat ls ↔ ∃ l, x ∈ l ∧ l ∈ ls.
Proof.
  induction ls as [|l0 ls IH]; simpl.
  - split; [by intros ?%elem_of_nil|]. by intros (l & _ & ?%elem_of_nil).
  - rewrite elem_of_app, IH. split.
    + intros [?|(l & ? & ?)]; [exists l0; split; [done|left]|].
      exists l. split; [done|by right].
    + intros (l & Hx & [->|Hl]%elem_of_cons); [by left|]. right. eauto.
Qed.

(** X4: for a chunk size of at least one and sequence lengths within
    [in_float_range], every interval that [generate_intervals] prints is
    on a target sequence of the reference and within it: its start is at
    least 1, its end at most the length of the sequence, it holds at most
    [size] positions, and never fewer than none (its start is at most
    one past its end). *)
Theorem generate_intervals_bounds (names : list string) (lengths : list Z)
    (chromosomes : list string) (size : Z) (iv : interval) :
  1 <= size → Forall (in_float_range size) lengths →
  iv ∈ (generate_intervals names lengths chromosomes size).1 →
  chrom iv ∈ chromosomes
  ∧ ∃ length_, (chrom iv, length_) ∈ zip names lengths
      ∧ 1 <= istart iv ∧ istart iv - 1 <= iend iv ∧ iend iv <= length_
      ∧ width iv <= size.
Proof.
  intros Hs Hl. unfold generate_intervals.
  rewrite generate_loop_targets
    by (done || by apply (targets_in_range names lengths chromosomes size)).
  cbn [fst].
  intros (l & Hiv & (p & -> & Hp)%list_elem_of_fmap)%elem_of_concat.
  destruct p as [name length_].
  apply list_elem_of_filter in Hp as [Hin Hp]. cbn [fst snd] in *.
  assert (0 <= length_) as Hlen.
  { rewrite Forall_forall in Hl. by apply Hl; eapply elem_of_zip_r. }
  unfold chunks in Hiv.
  apply list_elem_of_fmap in Hiv as (i & -> & Hi). apply elem_of_seqZ in Hi.
  cbn [chunk chrom istart iend]. split; [done|]. exists length_.
  pose proof (Z.div_mod length_ size ltac:(lia)) as Hdm.
  pose proof (Z.mod_pos_bound length_ size ltac:(lia)) as Hb.
  unfold width, chunk. cbn [istart iend].
  assert (i * size <= length_ `div` size * size) as Hi'
    by (apply Z.mul_le_mono_nonneg_r; lia).
  assert (0 <= i * size) as Hi'' by (apply Z.mul_nonneg_nonneg; lia).
  split_and!; [done|lia|lia|lia|lia].
Qed.

Lemma generate_intervals_bounds_witness :
  chrom (Interval "chr1" 21 25) ∈ ["chr2"; "chr1"]
  ∧ ∃ length_,
      (chrom (Interval "chr1" 21 25), length_) ∈ zip ["chr1"; "chrM"; "chr2"] [25; 7; 10]
      ∧ 1 <= istart (Interval "chr1" 21 25)
      ∧ istart (Interval "chr1" 21 25) - 1 <= iend (Interval "chr1" 21 25)
      ∧ iend (Interval "chr1" 21 25) <= length_
      ∧ width (Interval "chr1" 21 25) <= 10.
Proof.
  apply (generate_intervals_bounds ["chr1"; "chrM"; "chr2"] [25; 7; 10]
           ["chr2"; "chr1"] 10 (Interval "chr1" 21 25)).
  - lia.
  - repeat constructor; lia.
  - apply (bool_decide_eq_true_1 _). vm_compute. reflexivity.
Defined.

(** *** [split_interval] at its edges *)

(** X5: an interval given backwards, with its start past its end by
    less than [2^53], is printed back as it is, in one piece, whatever
    the number of splits from 1 to below [2^53]. *)
Theorem split_interval_backwards (chrom_ : string) (start end_ num_splits : Z) :
  end_ < start → start - end_ < 2 ^ 53 → 1 <= num_splits < 2 ^ 53 →
  split_interval chrom_ start end_ num_splits
  = inr [Interval chrom_ start end_].
Proof.
  intros Hse Hspan Hn. unfold split_interval.
  rewrite PyFloatProps.intervalsize_exact by lia. cbn [bind].
  destruct (Z.to_nat num_splits) as [|iters] eqn:Hi; [lia|].
  cbn [split_loop].
  pose proof (ceil_div_bounds (end_ - start) num_splits ltac:(lia)) as Hb.
  rewrite bool_decide_eq_true_2 by nia. done.
Qed.

Lemma split_interval_backwards_witness :
  split_interval "chr2" 100 1 3 = inr [Interval "chr2" 100 1].
Proof. apply (split_interval_backwards "chr2" 100 1 3); lia. Defined.

Lemma split_loop_widths (chrom_ : string) (isz end_ : Z) (iters : nat) (cur : Z) :
  0 <= isz → cur <= end_ → (1 <= iters)%nat →
  end_ <= cur + Z.of_nat iters * (isz + 1) - 1 →
  let l := split_loop iters chrom_ cur isz end_ in
  Forall (λ iv, 1 <= width iv <= isz + 1) l
  ∧ total_width l = end_ - cur + 1.
Proof.
  intros Hisz. revert cur.
  induction iters as [|iters IH]; intros cur Hc Hi He; [lia|].
  cbn [split_loop]. case_bool_decide as Hge; cbn zeta.
  - split.
    + repeat constructor; unfold width; simpl; lia.
    + unfold total_width, width. simpl. lia.
  - destruct iters as [|iters']; [lia|].
    destruct (IH (cur + isz + 1)) as (Hw & Ht); [lia..|]. cbn zeta in *.
    split.
    + constructor; [|done]. unfold width. simpl. lia.
    + cbn [total_width foldr].
      fold (total_width (split_loop (S iters') chrom_ (cur + isz + 1) isz end_)).
      rewrite Ht. unfold width. simpl. lia.
Qed.

(** X6: for spans and numbers of splits below [2^53], the pieces of
    [split_interval] are near-equal and lose nothing: each holds at least
    one position and at most the nominal size plus one, and together
    they hold the [E - S + 1] positions of the interval. *)
Theorem split_interval_widths (chrom_ : string) (start end_ num_splits : Z) :
  start <= end_ → end_ - start < 2 ^ 53 → 1 <= num_splits < 2 ^ 53 →
  ∃ pieces,
    split_interval chrom_ start end_ num_splits = inr pieces
    ∧ Forall (λ iv, 1 <= width iv <= ceil_div (end_ - start) num_splits + 1)
        pieces
    ∧ total_width pieces = end_ - start + 1.
Proof.
  intros Hse Hspan Hn. unfold split_interval.
  rewrite PyFloatProps.intervalsize_exact by lia. cbn [bind].
  pose proof (ceil_div_bounds (end_ - start) num_splits ltac:(lia)) as Hb.
  assert (0 <= ceil_div (end_ - start) num_splits) as Hisz by nia.
  destruct (split_loop_widths chrom_ (ceil_div (end_ - start) num_splits) end_
              (Z.to_nat num_splits) start) as (Hw & Ht).
  - done.
  - done.
  - lia.
  - rewrite Z2Nat.id by lia. nia.
  - eexists. split; [done|]. cbn zeta in *. done.
Qed.

Lemma split_interval_widths_witness :
  ∃ pieces,
    split_interval "chr2" 1 100 3 = inr pieces
    ∧ Forall (λ iv, 1 <= width iv <= ceil_div (100 - 1) 3 + 1) pieces
    ∧ total_width pieces = 100 - 1 + 1.
Proof. apply (split_interval_widths "chr2" 1 100 3); lia. Defined.

End IntervalExtras.

(** * Further properties of dictionaries and of the classifier *)

Module DictExtras.
Section dict.
Context {V : Type}.
Implicit Types (d items : list (string * V)) (k : string) (v : V).
Implicit Types (cond : string → bool).

Lemma set_fresh k v d : k ∉ Dict.keys d → Dict.set k v d = d ++ [(k, v)].
Proof.
  unfold Dict.keys. induction d as [|[k' v'] d IH]; intros Hk; [done|].
  rewrite fmap_cons, not_elem_of_cons in Hk. destruct Hk as [Hne Hk].
  cbn [Dict.set]. rewrite decide_False by done. by rewrite IH.
Qed.

Lemma comprehension_acc_fresh cond items d :
  NoDup (Dict.keys d ++ Dict.keys items) →
  foldl (λ (acc : list (string * V)) (kv : string * V),
           if cond kv.1 then Dict.set kv.1 kv.2 acc else acc) d items
  = d ++ filter (λ kv, cond kv.1 = true) items.
Proof.
  unfold Dict.keys. revert d.
  induction items as [|[k v] items IH]; intros d Hnd.
  - by rewrite app_nil_r.
  - rewrite fmap_cons in Hnd. cbn [foldl fst snd].
    apply NoDup_app in Hnd as (Hd & Hdis & Hit).
    apply NoDup_cons in Hit as [Hk Hit].
    destruct (cond k) eqn:Hc.
    + rewrite filter_cons_True by done.
      rewrite set_fresh by (intros Hin; by apply (Hdis k Hin); left).
      rewrite IH; [by rewrite <- app_assoc|].
      rewrite fmap_app. apply NoDup_app. split_and!.
      * apply NoDup_app. split_and!; [done| |apply NoDup_singleton].
        intros x Hx Hx'. apply list_elem_of_singleton in Hx' as ->.
        apply (Hdis k Hx). left.
      * intros x [Hx|Hx]%elem_of_app Hx'.
        -- apply (Hdis x Hx). by right.
        -- apply list_elem_of_singleton in Hx as ->. done.
      * done.
    + rewrite filter_cons_False by (cbn [fst]; congruence).
      apply IH. apply NoDup_app. split_and!; [done| |done].
      intros x Hx Hx'. apply (Hdis x Hx). by right.
Qed.

(** A comprehension over items with distinct keys keeps the items that
    pass, in their order. *)
Lemma comprehension_filter cond items :
  NoDup (Dict.keys items) →
  Dict.comprehension cond items = filter (λ kv, cond kv.1 = true) items.
Proof.
  intros Hnd. unfold Dict.comprehension.
  by rewrite comprehension_acc_fresh.
Qed.
End dict.
End DictExtras.

Module ClassifierExtras.
Import Classifier ClassifierProps.

Lemma NoDup_fst_zip {A B : Type} (l : list A) (k : list B) :
  NoDup l → NoDup (zip l k).*1.
Proof.
  intros Hnd. revert k. induction Hnd as [|x l Hx Hnd IH]; intros k.
  - constructor.
  - destruct k as [|y k]; [constructor|]. cbn. constructor; [|apply IH].
    intros Hin. apply Hx. apply list_elem_of_fmap in Hin as ([x' y'] & -> & Hin).
    by apply elem_of_zip_l in Hin.
Qed.

Lemma comprehension_elem_of (S : gset string) (items : list (string * string)) :
  NoDup (Dict.keys items) →
  Dict.comprehension (λ cell, bool_decide (cell ∈ S)) items
  = filter (λ p, p.1 ∈ S) items.
Proof.
  intros Hnd. rewrite DictExtras.comprehension_filter by done.
  apply list_filter_iff. intros p. apply bool_decide_eq_true.
Qed.

Lemma comprehension_not_elem_of (S : gset string) (items : list (string * string)) :
  NoDup (Dict.keys items) →
  Dict.comprehension (λ cell, bool_decide (cell ∉ S)) items
  = filter (λ p, p.1 ∉ S) items.
Proof.
  intros Hnd. rewrite DictExtras.comprehension_filter by done.
  apply list_filter_iff. intros p. apply bool_decide_eq_true.
Qed.

Lemma artifacts_partition (infiles cell_ids : list string)
    (metrics : list metrics_row) :
  list_to_set cell_ids = cell_id_set metrics → NoDup cell_ids →
  ∃ control contaminated pass,
    get_control_files infiles cell_ids metrics = inr control
    ∧ get_contaminated_files infiles cell_ids metrics = inr contaminated
    ∧ get_pass_files infiles cell_ids metrics = inr pass
    ∧ sublist control (zip cell_ids infiles)
    ∧ sublist contaminated (zip cell_ids infiles)
    ∧ sublist pass (zip cell_ids infiles)
    ∧ control ++ contaminated ++ pass ≡ₚ zip cell_ids infiles.
Proof.
  intros Heq Hnd.
  unfold get_control_files, get_contaminated_files, get_pass_files.
  rewrite !bool_decide_eq_true_2 by done.
  pose proof (NoDup_fst_zip cell_ids infiles Hnd) as Hz.
  set (z := zip cell_ids infiles) in *.
  set (ctrl := cell_id_set (filter (λ r, is_control r) metrics)).
  set (cont := cell_id_set (filter (λ r, is_contaminated r) metrics)).
  assert (∀ P `{!∀ x, Decision (P x)}, NoDup (Dict.keys (filter P z))) as Hf.
  { intros P ?. unfold Dict.keys.
    assert ((filter P z).*1 `sublist_of` z.*1) as Hsub
      by apply fmap_sublist, sublist_filter.
    by eapply sublist_NoDup. }
  rewrite (comprehension_elem_of ctrl z), (comprehension_not_elem_of ctrl z),
    (comprehension_not_elem_of cont z) by done.
  rewrite comprehension_elem_of, comprehension_not_elem_of by apply Hf.
  do 3 eexists. split_and!; [done..| | | |].
  - apply sublist_filter.
  - etrans; apply sublist_filter.
  - etrans; apply sublist_filter.
  - etrans; [|apply (filter_app_complement (λ p, p.1 ∈ ctrl) z)].
    apply Permutation_app_head.
    etrans; [|apply (filter_app_complement (λ p, p.1 ∈ cont)
                       (filter (λ p, p.1 ∉ ctrl) z))].
    apply Permutation_app_head.
    rewrite !list_filter_filter.
    erewrite list_filter_iff; [done|]. intros p. simpl. tauto.
Qed.

(** X7: when no cell id is supplied twice, the three mappings list their
    cells in the order of the input, and every pair of a cell id and the
    artifact at its position is in exactly one of them, once: no artifact
    is lost and none is used twice. *)
Theorem classifier_artifacts_partition (infiles cell_ids : list string)
    (metrics : list metrics_row) :
  list_to_set cell_ids = cell_id_set metrics → NoDup cell_ids →
  ∃ control contaminated pass,
    get_control_files infiles cell_ids metrics = inr control
    ∧ get_contaminated_files infiles cell_ids metrics = inr contaminated
    ∧ get_pass_files infiles cell_ids metrics = inr pass
    ∧ sublist control (zip cell_ids infiles)
    ∧ sublist contaminated (zip cell_ids infiles)
    ∧ sublist pass (zip cell_ids infiles)
    ∧ control ++ contaminated ++ pass ≡ₚ zip cell_ids infiles.
Proof. apply artifacts_partition. Qed.

Lemma classifier_artifacts_partition_witness :
  ∃ control contaminated pass,
    get_control_files ["a.bam"; "b.bam"; "c.bam"] ["A"; "B"; "C"] abc_metrics
    = inr control
    ∧ get_contaminated_files ["a.bam"; "b.bam"; "c.bam"] ["A"; "B"; "C"]
        abc_metrics = inr contaminated
    ∧ get_pass_files ["a.bam"; "b.bam"; "c.bam"] ["A"; "B"; "C"] abc_metrics
      = inr pass
    ∧ sublist control (zip ["A"; "B"; "C"] ["a.bam"; "b.bam"; "c.bam"])
    ∧ sublist contaminated (zip ["A"; "B"; "C"] ["a.bam"; "b.bam"; "c.bam"])
    ∧ sublist pass (zip ["A"; "B"; "C"] ["a.bam"; "b.bam"; "c.bam"])
    ∧ control ++ contaminated ++ pass
      ≡ₚ zip ["A"; "B"; "C"] ["a.bam"; "b.bam"; "c.bam"].
Proof.
  apply (classifier_artifacts_partition ["a.bam"; "b.bam"; "c.bam"]
           ["A"; "B"; "C"] abc_metrics).
  - apply (bool_decide_eq_true_1 _). vm_compute. reflexivity.
  - apply (bool_decide_eq_true_1 _). vm_compute. reflexivity.
Defined.

End ClassifierExtras.

(** * Properties of the three merges of a run *)

Module PipelineProps.
Import Classifier Merger Pipeline.

Lemma list_omap_app {A B : Type} (f : A → option B) (l1 l2 : list A) :
  omap f (l1 ++ l2) = omap f l1 ++ omap f l2.
Proof.
  induction l1 as [|x l1 IH]; [done|]. cbn. rewrite IH. by destruct (f x).
Qed.

Lemma group_steps_commands (d : list (string * string)) (tempdir : string)
    (ncores : Z) (outfile reference : string) (header : list string) :
  commands (group_steps d tempdir ncores outfile reference header)
  = [["samtools"; "index"; outfile];
     ["igvtools"; "count"; outfile; outfile +:+ ".tdf"; reference]].
Proof. unfold group_steps, merge_cells. by case_bool_decide. Qed.

Lemma group_steps_written (d : list (string * string)) (tempdir : string)
    (ncores : Z) (outfile reference : string) (header : list string) :
  written_outputs (group_steps d tempdir ncores outfile reference header)
  = [outfile].
Proof. unfold group_steps, merge_cells. by case_bool_decide. Qed.

Lemma group_steps_inputs (d : list (string * string)) (tempdir : string)
    (ncores : Z) (outfile reference : string) (header : list string) :
  merged_inputs (group_steps d tempdir ncores outfile reference header)
  = Dict.values d.
Proof.
  unfold group_steps, merge_cells. case_bool_decide as Hd.
  - apply length_zero_iff_nil in Hd. by rewrite Hd.
  - unfold merged_inputs. cbn. by rewrite app_nil_r.
Qed.

Lemma merged_inputs_app (l1 l2 : list step) :
  merged_inputs (l1 ++ l2) = merged_inputs l1 ++ merged_inputs l2.
Proof. unfold merged_inputs. by rewrite list_omap_app, concat_app. Qed.

Lemma merged_inputs_prefix (l1 l2 : list step) :
  l1 `prefix_of` l2 → merged_inputs l1 `prefix_of` merged_inputs l2.
Proof. intros [k ->]. rewrite merged_inputs_app. by apply prefix_app_r. Qed.

Section world.
Context {W : Type} (exec : step → W → error + W).

(** Running two lists of calls one after the other. *)
Lemma run_steps_app (p1 p2 : list step) (w : W) :
  run_steps exec (p1 ++ p2) w
  = match run_steps exec p1 w with
    | (made1, inl e) => (made1, inl e)
    | (made1, inr w1) =>
        let '(made2, r) := run_steps exec p2 w1 in (made1 ++ made2, r)
    end.
Proof.
  revert w. induction p1 as [|s p1 IH]; intros w; cbn [app run_steps].
  - by destruct (run_steps exec p2 w).
  - destruct (exec s w) as [e|w']; [done|]. rewrite IH.
    destruct (run_steps exec p1 w') as [made1 [e|w1]]; [done|].
    by destruct (run_steps exec p2 w1).
Qed.

(** The calls made are the first calls of the list, and all of them
    when none raised. *)
Lemma run_steps_prefix (prog : list step) (w : W) :
  (run_steps exec prog w).1 `prefix_of` prog
  ∧ (∀ w', (run_steps exec prog w).2 = inr w' → (run_steps exec prog w).1 = prog).
Proof.
  revert w. induction prog as [|s prog IH]; intros w; cbn [run_steps].
  - done.
  - destruct (exec s w) as [e|w1]; cbn [fst snd].
    + split; [|done]. by apply (prefix_cons s [] prog), prefix_nil.
    + destruct (IH w1) as [Hp Hall].
      destruct (run_steps exec prog w1) as [made r]; cbn [fst snd] in *.
      split; [by apply prefix_cons|]. intros w' Hr. f_equal. by eapply Hall.
Qed.

(** When every call returns, all calls are made. *)
Lemma run_steps_all (prog : list step) (w : W) :
  (∀ s w, is_Some (match exec s w with inr w' => Some w' | inl _ => None end)) →
  ∃ w', run_steps exec prog w = (prog, inr w').
Proof.
  intros Hok. revert w. induction prog as [|s prog IH]; intros w; cbn [run_steps].
  - by exists w.
  - specialize (Hok s w). destruct (exec s w) as [e|w1]; [by destruct Hok|].
    destruct (IH w1) as [w' ->]. by exists w'.
Qed.

(** With an input file and matching cell ids, a run of [generate_bams]
    is the run of the calls for the three groups one after the other,
    up to the first one that raises. *)
Lemma generate_bams_outcome (get_bam_header : string → list string)
    (infiles : list string) (reference : string) (cell_ids : list string)
    (metrics : list metrics_row)
    (control_outfile contaminated_outfile pass_outfile tempdir : string)
    (ncores : Z) (w : W)
    (control contaminated pass : list (string * string)) (first : string) :
  head infiles = Some first →
  get_control_files infiles cell_ids metrics = inr control →
  get_contaminated_files infiles cell_ids metrics = inr contaminated →
  get_pass_files infiles cell_ids metrics = inr pass →
  generate_bams exec get_bam_header infiles reference cell_ids metrics
    control_outfile contaminated_outfile pass_outfile tempdir ncores w
  = outcome exec
      (group_steps control (path_join tempdir "control") ncores
         control_outfile reference (get_bam_header first)
       ++ group_steps contaminated (path_join tempdir "contaminated") ncores
            contaminated_outfile reference (get_bam_header first)
       ++ group_steps pass (path_join tempdir "pass") ncores
            pass_outfile reference (get_bam_header first)) w.
Proof.
  intros Hfirst Hc Hx Hp. unfold generate_bams, outcome.
  destruct infiles as [|first' rest]; [done|]. injection Hfirst as ->.
  rewrite Hc. rewrite run_steps_app.
  destruct (run_steps exec (group_steps control _ _ _ _ _) w) as [m1 [e|w1]]; [done|].
  rewrite Hx. rewrite run_steps_app.
  destruct (run_steps exec (group_steps contaminated _ _ _ _ _) w1) as [m2 [e|w2]];
    [done|].
  rewrite Hp.
  by destruct (run_steps exec (group_steps pass _ _ _ _ _) w2) as [m3 [e|w3]].
Qed.

(** X8: [generate_bams] gives up before it has made a directory or
    written a file in two cases: without any input file, on
    [IndexError], although an empty group is no error for [merge_cells];
    and when the supplied cell ids are not those of the metrics table, on
    the [AssertionError] of the classifier. *)
Theorem generate_bams_fails_early (get_bam_header : string → list string)
    (infiles : list string) (reference : string) (cell_ids : list string)
    (metrics : list metrics_row)
    (control_outfile contaminated_outfile pass_outfile tempdir : string)
    (ncores : Z) (w : W) :
  infiles = [] ∨ list_to_set cell_ids ≠ cell_id_set metrics →
  generate_bams exec get_bam_header infiles reference cell_ids metrics
    control_outfile contaminated_outfile pass_outfile tempdir ncores w
  = ([], Some (if bool_decide (infiles = []) then IndexError
               else Raised AssertionError)).
Proof.
  intros H. unfold generate_bams. destruct infiles as [|first infiles]; [done|].
  destruct H as [|Hne]; [done|].
  unfold get_control_files. by rewrite bool_decide_eq_false_2 by done.
Qed.

(** X9: with at least one input file and matching cell ids, a run of
    [generate_bams] makes the calls of a fixed list in order, up to the
    end or to the first call that raises, whose exception ends the run.
    Whatever the groups hold, the list writes each of the three output
    files, in the order control, contaminated, pass, and indexes and
    counts each of them; when every call returns the run makes them all
    and ends without an exception. *)
Theorem generate_bams_outputs (get_bam_header : string → list string)
    (infiles : list string) (reference : string) (cell_ids : list string)
    (metrics : list metrics_row)
    (control_outfile contaminated_outfile pass_outfile tempdir : string)
    (ncores : Z) (w : W) :
  infiles ≠ [] → list_to_set cell_ids = cell_id_set metrics →
  ∃ plan,
    generate_bams exec get_bam_header infiles reference cell_ids metrics
      control_outfile contaminated_outfile pass_outfile tempdir ncores w
    = outcome exec plan w
    ∧ written_outputs plan
      = [control_outfile; contaminated_outfile; pass_outfile]
    ∧ commands plan
      = [["samtools"; "index"; control_outfile];
         ["igvtools"; "count"; control_outfile; control_outfile +:+ ".tdf";
          reference];
         ["samtools"; "index"; contaminated_outfile];
         ["igvtools"; "count"; contaminated_outfile;
          contaminated_outfile +:+ ".tdf"; reference];
         ["samtools"; "index"; pass_outfile];
         ["igvtools"; "count"; pass_outfile; pass_outfile +:+ ".tdf";
          reference]]
    ∧ ((∀ s w, is_Some (match exec s w with inr w' => Some w' | inl _ => None end)) →
       outcome exec plan w = (plan, None)).
Proof.
  intros Hne Heq.
  destruct infiles as [|first rest] eqn:Hinf; [done|]. rewrite <- Hinf.
  destruct (ClassifierProps.control_get infiles cell_ids metrics "" "" Heq)
    as (control & Hc & _).
  destruct (ClassifierProps.contaminated_get infiles cell_ids metrics "" "" Heq)
    as (contaminated & Hx & _).
  destruct (ClassifierProps.pass_get infiles cell_ids metrics "" "" Heq)
    as (pass & Hp & _).
  eexists. split_and!.
  - apply (generate_bams_outcome _ _ _ _ _ _ _ _ _ _ _ control contaminated pass first);
      [by rewrite Hinf|done..].
  - unfold written_outputs. rewrite !list_omap_app.
    fold (written_outputs (group_steps control (path_join tempdir "control")
            ncores control_outfile reference (get_bam_header first))).
    fold (written_outputs (group_steps contaminated
            (path_join tempdir "contaminated")
            ncores contaminated_outfile reference (get_bam_header first))).
    fold (written_outputs (group_steps pass (path_join tempdir "pass")
            ncores pass_outfile reference (get_bam_header first))).
    by rewrite !group_steps_written.
  - unfold commands. rewrite !list_omap_app.
    fold (commands (group_steps control (path_join tempdir "control")
            ncores control_outfile reference (get_bam_header first))).
    fold (commands (group_steps contaminated
            (path_join tempdir "contaminated")
            ncores contaminated_outfile reference (get_bam_header first))).
    fold (commands (group_steps pass (path_join tempdir "pass")
            ncores pass_outfile reference (get_bam_header first))).
    by rewrite !group_steps_commands.
  - intros Hok. unfold outcome.
    match goal with
    | |- context [run_steps exec ?p w] =>
        by destruct (run_steps_all p w Hok) as [w' ->]
    end.
Qed.

(** X10: in a run on distinct cell ids, no artifact is handed to
    [helpers.merge_bams] twice: the artifacts handed over in the merges
    that the run reached are among those paired with a cell id, each at
    most once; and when the run ends without an exception they are all
    of them, so that every cell is in exactly one merged output. *)
Theorem generate_bams_merges_each_once (get_bam_header : string → list string)
    (infiles : list string) (reference : string) (cell_ids : list string)
    (metrics : list metrics_row)
    (control_outfile contaminated_outfile pass_outfile tempdir : string)
    (ncores : Z) (w : W) :
  infiles ≠ [] → list_to_set cell_ids = cell_id_set metrics → NoDup cell_ids →
  let run := generate_bams exec get_bam_header infiles reference cell_ids metrics
               control_outfile contaminated_outfile pass_outfile tempdir ncores w in
  merged_inputs run.1 ⊆+ (zip cell_ids infiles).*2
  ∧ (run.2 = None → merged_inputs run.1 ≡ₚ (zip cell_ids infiles).*2).
Proof.
  intros Hne Heq Hnd.
  destruct infiles as [|first rest] eqn:Hinf; [done|]. rewrite <- Hinf.
  destruct (ClassifierExtras.artifacts_partition infiles cell_ids metrics Heq Hnd)
    as (control & contaminated & pass & Hc & Hx & Hp & _ & _ & _ & Hperm).
  cbn zeta.
  rewrite (generate_bams_outcome _ _ _ _ _ _ _ _ _ _ _ control contaminated pass first)
    by (done || by rewrite Hinf).
  set (plan := group_steps control _ _ _ _ _ ++ _).
  assert (merged_inputs plan ≡ₚ (zip cell_ids infiles).*2) as Hplan.
  { unfold plan. rewrite !merged_inputs_app, !group_steps_inputs. unfold Dict.values.
    by rewrite <- Hperm, !fmap_app. }
  unfold outcome. destruct (run_steps_prefix plan w) as [Hpre Hall].
  destruct (run_steps exec plan w) as [made r]; cbn [fst snd] in *. split.
  - rewrite <- Hplan.
    destruct (merged_inputs_prefix made plan Hpre) as [k ->].
    by apply submseteq_inserts_r.
  - destruct r as [e|w']; [done|]. intros _. by rewrite (Hall w' eq_refl).
Qed.
End world.

(** A run in which [igvtools] is missing ends at the count of the first
    output: the control file is written and indexed, and the other two
    groups are never reached. *)
Example generate_bams_stops_at_failure :
  generate_bams exec_no_igvtools (λ _, ["@HD"]) ["a.bam"; "b.bam"; "c.bam"]
    "ref.fa" ["A"; "B"; "C"] abc_metrics "control.bam" "contaminated.bam"
    "pass.bam" "tmp" 4 0%nat
  = ([MakeDirs "tmp/control";
      Call (MergeBams ["a.bam"] "tmp/control/merged_all.bam" "tmp/control" 4);
      Call (GetNewHeader ["A"] "tmp/control/merged_all.bam" "tmp/control/header.sam");
      Call (Reheader "tmp/control/merged_all.bam" "tmp/control/header.sam"
              "control.bam");
      Call (RunCmd ["samtools"; "index"; "control.bam"]);
      Call (RunCmd ["igvtools"; "count"; "control.bam"; "control.bam.tdf"; "ref.fa"])],
     Some (Raised (Exception "igvtools: not found"))).
Proof. vm_compute. reflexivity. Qed.

Lemma generate_bams_fails_early_witness :
  generate_bams exec_ok (λ _, ["@HD"]) [] "ref.fa" [] [] "c.bam" "x.bam" "p.bam"
    "tmp" 4 ()
  = ([], Some (if bool_decide (([] : list string) = []) then IndexError
               else Raised AssertionError)).
Proof.
  apply (generate_bams_fails_early exec_ok (λ _, ["@HD"]) [] "ref.fa" [] []
           "c.bam" "x.bam" "p.bam" "tmp" 4 ()).
  left. reflexivity.
Defined.

Lemma generate_bams_outputs_witness :
  ∃ plan,
    generate_bams exec_ok (λ _, ["@HD"]) ["b.bam"; "c.bam"] "ref.fa" ["B"; "C"]
      [MetricsRow "B" false true; MetricsRow "C" false false]
      "control.bam" "contaminated.bam" "pass.bam" "tmp" 4 ()
    = outcome exec_ok plan ()
    ∧ written_outputs plan = ["control.bam"; "contaminated.bam"; "pass.bam"]
    ∧ commands plan
      = [["samtools"; "index"; "control.bam"];
         ["igvtools"; "count"; "control.bam"; "control.bam" +:+ ".tdf"; "ref.fa"];
         ["samtools"; "index"; "contaminated.bam"];
         ["igvtools"; "count"; "contaminated.bam"; "contaminated.bam" +:+ ".tdf";
          "ref.fa"];
         ["samtools"; "index"; "pass.bam"];
         ["igvtools"; "count"; "pass.bam"; "pass.bam" +:+ ".tdf"; "ref.fa"]]
    ∧ ((∀ s w, is_Some (match exec_ok s w with inr w' => Some w' | inl _ => None end)) →
       outcome exec_ok plan () = (plan, None)).
Proof.
  apply (generate_bams_outputs exec_ok (λ _, ["@HD"]) ["b.bam"; "c.bam"] "ref.fa"
           ["B"; "C"] [MetricsRow "B" false true; MetricsRow "C" false false]
           "control.bam" "contaminated.bam" "pass.bam" "tmp" 4 ()).
  - discriminate.
  - apply (bool_decide_eq_true_1 _). vm_compute. reflexivity.
Defined.

Lemma generate_bams_merges_each_once_witness :
  let run := generate_bams exec_ok (λ _, ["@HD"]) ["a.bam"; "b.bam"; "c.bam"]
               "ref.fa" ["A"; "B"; "C"] abc_metrics "control.bam"
               "contaminated.bam" "pass.bam" "tmp" 4 () in
  merged_inputs run.1 ⊆+ (zip ["A"; "B"; "C"] ["a.bam"; "b.bam"; "c.bam"]).*2
  ∧ (run.2 = None
     → merged_inputs run.1 ≡ₚ (zip ["A"; "B"; "C"] ["a.bam"; "b.bam"; "c.bam"]).*2).
Proof.
  apply (generate_bams_merges_each_once exec_ok (λ _, ["@HD"])
           ["a.bam"; "b.bam"; "c.bam"] "ref.fa" ["A"; "B"; "C"] abc_metrics
           "control.bam" "contaminated.bam" "pass.bam" "tmp" 4 ()).
  - discriminate.
  - apply (bool_decide_eq_true_1 _). vm_compute. reflexivity.
  - apply (bool_decide_eq_true_1 _). vm_compute. reflexivity.
Defined.

End PipelineProps.

(** * Properties of the merges of text files *)

Module VariantFilesProps.
Import VariantFiles.

Section lines.
Context (P : string → Prop) `{!∀ line, Decision (P line)}.

(** The loop that appends the kept lines of each file. *)
Lemma foldl_append_filter (init : list string) (files : list (list string)) :
  foldl (λ written infile, written ++ filter P infile) init files
  = init ++ concat (filter P <$> files).
Proof.
  revert init. induction files as [|f files IH]; intros init; simpl.
  - by rewrite app_nil_r.
  - by rewrite IH, app_assoc.
Qed.

Lemma filter_idemp (l : list string) : filter P (filter P l) = filter P l.
Proof. apply list_filter_filter_l. done. Qed.

Lemma filter_concat (ls : list (list string)) :
  filter P (concat ls) = concat (filter P <$> ls).
Proof.
  induction ls as [|l ls IH]; [done|]. simpl. by rewrite filter_app, IH.
Qed.

Lemma filter_all (l : list string) : Forall P l → filter P l = l.
Proof.
  induction 1 as [|x l Hx Hl IH]; [done|].
  by rewrite filter_cons_True, IH.
Qed.

Lemma filter_none (l : list string) : Forall (λ x, ¬ P x) l → filter P l = [].
Proof.
  induction 1 as [|x l Hx Hl IH]; [done|].
  by rewrite filter_cons_False.
Qed.
End lines.

Lemma get_header_comments (lines : list string) :
  Forall (λ line, is_comment line = true) (get_header lines).
Proof.
  induction lines as [|line lines IH]; simpl; [constructor|].
  destruct (is_comment line) eqn:Hc; by constructor.
Qed.

(** The header of a block of comments followed by lines that are not. *)
Lemma get_header_app (header body : list string) :
  Forall (λ line, is_comment line = true) header →
  Forall (λ line, is_comment line = false) body →
  get_header (header ++ body) = header.
Proof.
  intros Hh Hb. induction Hh as [|line header Hl Hh IH]; simpl.
  - destruct Hb as [|line body Hl Hb]; simpl; [done|]. by rewrite Hl.
  - by rewrite Hl, IH.
Qed.

Lemma not_comment_filter (l : list string) :
  Forall (λ line, is_comment line = false)
    (filter (λ line, is_comment line = false) l).
Proof. apply Forall_forall. by intros line [? _]%list_elem_of_filter. Qed.

Lemma Forall_concat {A : Type} (Q : A → Prop) (ls : list (list A)) :
  Forall (Forall Q) ls → Forall Q (concat ls).
Proof. induction 1; simpl; [constructor|]. by apply Forall_app. Qed.

Lemma data_lines_not_comment (files : list (list string)) :
  Forall (λ line, is_comment line = false)
    (concat (filter (λ line, is_comment line = false) <$> files)).
Proof.
  apply Forall_concat, Forall_fmap, Forall_forall. intros f _.
  apply not_comment_filter.
Qed.

Lemma merge_vcf_files_eq (first : list string) (rest : list (list string)) :
  merge_vcf_files (first :: rest)
  = inr (get_header first
         ++ concat (filter (λ line, is_comment line = false) <$> first :: rest)).
Proof. unfold merge_vcf_files. by rewrite foldl_append_filter. Qed.

(** X11: the merged VCF has one header, that of the first file, at its
    top: its leading comment lines are the header of the first file, it
    has no other comment line, and below the header come the lines of all
    files that are not comments, file after file in their order.  The
    headers of the other files are dropped without being compared. *)
Theorem merge_vcf_files_one_header (first : list string)
    (rest : list (list string)) :
  ∃ merged,
    merge_vcf_files (first :: rest) = inr merged
    ∧ get_header merged = get_header first
    ∧ filter (λ line, is_comment line = true) merged = get_header first
    ∧ drop (length (get_header first)) merged
      = concat (filter (λ line, is_comment line = false) <$> first :: rest).
Proof.
  rewrite merge_vcf_files_eq. eexists. split; [done|].
  pose proof (get_header_comments first) as Hh.
  pose proof (data_lines_not_comment (first :: rest)) as Hb.
  split_and!.
  - by apply get_header_app.
  - rewrite filter_app, (filter_all _ (get_header first)) by done.
    rewrite filter_none, app_nil_r; [done|].
    eapply Forall_impl; [exact Hb|]. intros line Hl. simpl in Hl. congruence.
  - by rewrite drop_app_length.
Qed.

(** X12: a file made of comment lines followed by lines that are not
    comments comes back unchanged when it is merged alone. *)
Theorem merge_vcf_files_single (header body : list string) :
  Forall (λ line, is_comment line = true) header →
  Forall (λ line, is_comment line = false) body →
  merge_vcf_files [header ++ body] = inr (header ++ body).
Proof.
  intros Hh Hb. rewrite merge_vcf_files_eq, get_header_app by done.
  simpl. rewrite app_nil_r, filter_app, (filter_all _ body) by done.
  rewrite filter_none; [done|].
  eapply Forall_impl; [exact Hh|]. intros line Hl. simpl in Hl. congruence.
Qed.

Lemma merge_vcf_files_single_witness :
  merge_vcf_files [["##fileformat=VCFv4.2"; "#CHROM POS"] ++ ["1 100"; "2 7"]]
  = inr (["##fileformat=VCFv4.2"; "#CHROM POS"] ++ ["1 100"; "2 7"]).
Proof.
  apply (merge_vcf_files_single ["##fileformat=VCFv4.2"; "#CHROM POS"]
           ["1 100"; "2 7"]).
  - repeat constructor.
  - repeat constructor.
Defined.

(** X13: merging is compositional: a merged file merged with further
    files gives what merging all the files at once gives. *)
Theorem merge_vcf_files_compose (first merged : list string)
    (rest more : list (list string)) :
  merge_vcf_files (first :: rest) = inr merged →
  merge_vcf_files (merged :: more) = merge_vcf_files (first :: rest ++ more).
Proof.
  rewrite !merge_vcf_files_eq. intros [= <-].
  pose proof (get_header_comments first) as Hh.
  pose proof (data_lines_not_comment (first :: rest)) as Hb.
  rewrite get_header_app by done. do 2 f_equal.
  set (B := concat (filter (λ line, is_comment line = false) <$> first :: rest))
    in *.
  assert (filter (λ line, is_comment line = false) (get_header first ++ B) = B)
    as HB.
  { rewrite filter_app, (filter_all _ B) by exact Hb.
    rewrite filter_none; [done|].
    eapply Forall_impl; [exact Hh|]. intros line Hl. simpl in Hl. congruence. }
  rewrite (fmap_cons _ (get_header first ++ B)). cbn [concat]. rewrite HB.
  unfold B. rewrite !fmap_cons, fmap_app. cbn [concat].
  by rewrite concat_app, app_assoc.
Qed.

Lemma merge_vcf_files_compose_witness :
  merge_vcf_files (["#h"; "1 100"; "#late"; "1 200"] :: [["#h2"; "2 5"]])
  = inr ["#h"; "1 100"; "1 200"; "2 5"]
  ∧ merge_vcf_files (["#h"; "1 100"; "1 200"; "2 5"] :: [["#h3"; "3 9"]])
    = merge_vcf_files (["#h"; "1 100"; "#late"; "1 200"]
                       :: [["#h2"; "2 5"]] ++ [["#h3"; "3 9"]]).
Proof.
  split; [vm_compute; reflexivity|].
  apply (merge_vcf_files_compose ["#h"; "1 100"; "#late"; "1 200"]
           ["#h"; "1 100"; "1 200"; "2 5"] [["#h2"; "2 5"]] [["#h3"; "3 9"]]).
  vm_compute. reflexivity.
Defined.

(** ** [merge_mafs] *)

Lemma maf_data_lines (files : list (list string)) :
  Forall (λ line, is_maf_header line = false)
    (concat (filter (λ line, is_maf_header line = false) <$> files)).
Proof.
  apply Forall_concat, Forall_fmap, Forall_forall. intros f _.
  apply Forall_forall. by intros line [? _]%list_elem_of_filter.
Qed.

Lemma merge_mafs_eq (first : list string) (rest : list (list string)) :
  String.prefix "#version" (readline first 0) = true →
  String.prefix "Hugo_Symbol" (readline first 1) = true →
  merge_mafs (first :: rest)
  = inr ([readline first 0; readline first 1]
         ++ concat (filter (λ line, is_maf_header line = false) <$> first :: rest)).
Proof.
  intros H1 H2. unfold merge_mafs. cbn zeta. rewrite H1, H2. cbn [negb].
  by rewrite foldl_append_filter.
Qed.

Lemma merge_mafs_inv (infiles : list (list string)) (merged : list string) :
  merge_mafs infiles = inr merged →
  ∃ first rest, infiles = first :: rest
    ∧ String.prefix "#version" (readline first 0) = true
    ∧ String.prefix "Hugo_Symbol" (readline first 1) = true.
Proof.
  unfold merge_mafs. destruct infiles as [|first rest]; [done|]. cbn zeta.
  destruct (String.prefix "#version" (readline first 0)) eqn:H1; [|done].
  destruct (String.prefix "Hugo_Symbol" (readline first 1)) eqn:H2; [|done].
  intros _. by exists first, rest.
Qed.

(** X14: a merged MAF has two header lines and no more: its first two
    lines are the first two lines of the first file, no other line
    starts with [#version] or [Hugo_Symbol], and below them come the
    other lines of all files, file after file. *)
Theorem merge_mafs_two_headers (infiles : list (list string))
    (merged : list string) :
  merge_mafs infiles = inr merged →
  ∃ first rest,
    infiles = first :: rest
    ∧ take 2 merged = [readline first 0; readline first 1]
    ∧ filter (λ line, is_maf_header line = true) merged
      = [readline first 0; readline first 1]
    ∧ drop 2 merged
      = concat (filter (λ line, is_maf_header line = false) <$> infiles).
Proof.
  intros Hm. destruct (merge_mafs_inv infiles merged Hm)
    as (first & rest & -> & H1 & H2).
  rewrite merge_mafs_eq in Hm by done. injection Hm as <-.
  exists first, rest. split; [done|]. split; [done|]. split; [|done].
  pose proof (maf_data_lines (first :: rest)) as Hb.
  change (filter (λ line, is_maf_header line = true)
            ([readline first 0; readline first 1]
             ++ concat (filter (λ line, is_maf_header line = false)
                          <$> first :: rest))
          = [readline first 0; readline first 1]).
  rewrite filter_app, filter_all.
  - rewrite filter_none, app_nil_r; [done|].
    eapply Forall_impl; [exact Hb|]. intros line Hl. simpl in Hl. congruence.
  - unfold is_maf_header. repeat constructor.
    + by rewrite H1.
    + by rewrite H2, orb_true_r.
Qed.

Lemma merge_mafs_two_headers_witness :
  ∃ first rest,
    [["#version 2.4"; "Hugo_Symbol x"; "TP53 1"];
     ["#version 2.4"; "Hugo_Symbol x"; "KRAS 2"]] = first :: rest
    ∧ take 2 ["#version 2.4"; "Hugo_Symbol x"; "TP53 1"; "KRAS 2"]
      = [readline first 0; readline first 1]
    ∧ filter (λ line, is_maf_header line = true)
        ["#version 2.4"; "Hugo_Symbol x"; "TP53 1"; "KRAS 2"]
      = [readline first 0; readline first 1]
    ∧ drop 2 ["#version 2.4"; "Hugo_Symbol x"; "TP53 1"; "KRAS 2"]
      = concat (filter (λ line, is_maf_header line = false)
                  <$> [["#version 2.4"; "Hugo_Symbol x"; "TP53 1"];
                       ["#version 2.4"; "Hugo_Symbol x"; "KRAS 2"]]).
Proof.
  apply (merge_mafs_two_headers
           [["#version 2.4"; "Hugo_Symbol x"; "TP53 1"];
            ["#version 2.4"; "Hugo_Symbol x"; "KRAS 2"]]
           ["#version 2.4"; "Hugo_Symbol x"; "TP53 1"; "KRAS 2"]).
  vm_compute. reflexivity.
Defined.

(** X15: when the first file has fewer than two lines the merge fails on
    an assertion, whatever the other files hold. *)
Theorem merge_mafs_short_first (first : list string) (rest : list (list string)) :
  (length first < 2)%nat → merge_mafs (first :: rest) = inl AssertionError.
Proof.
  intros Hlen. unfold merge_mafs. cbn zeta.
  destruct first as [|line1 [|line2 first]]; [done| |simpl in Hlen; lia].
  unfold readline. simpl.
  by destruct (String.prefix "#version" line1).
Qed.

Lemma merge_mafs_short_first_witness :
  merge_mafs (["#version 2.4"] :: [["#version 2.4"; "Hugo_Symbol x"; "KRAS 2"]])
  = inl AssertionError.
Proof.
  apply (merge_mafs_short_first ["#version 2.4"]
           [["#version 2.4"; "Hugo_Symbol x"; "KRAS 2"]]).
  simpl. lia.
Defined.

(** X16: merging MAF files is compositional: a merged file merged with
    further files gives what merging all the files at once gives. *)
Theorem merge_mafs_compose (first merged : list string)
    (rest more : list (list string)) :
  merge_mafs (first :: rest) = inr merged →
  merge_mafs (merged :: more) = merge_mafs (first :: rest ++ more).
Proof.
  intros Hm. destruct (merge_mafs_inv _ _ Hm) as (f & r & [= <- <-] & H1 & H2).
  rewrite merge_mafs_eq in Hm by done. injection Hm as <-.
  set (B := concat (filter (λ line, is_maf_header line = false) <$> first :: rest)).
  pose proof (maf_data_lines (first :: rest)) as Hb. fold B in Hb.
  rewrite !merge_mafs_eq by done. do 2 f_equal.
  assert (filter (λ line, is_maf_header line = false)
            ([readline first 0; readline first 1] ++ B) = B) as HB.
  { rewrite filter_app, (filter_all _ B) by exact Hb.
    rewrite filter_none; [done|].
    unfold is_maf_header. repeat constructor.
    - by rewrite H1.
    - by rewrite H2, orb_true_r. }
  rewrite (fmap_cons _ ([readline first 0; readline first 1] ++ B)).
  cbn [concat]. rewrite HB.
  unfold B. rewrite !fmap_cons, fmap_app. cbn [concat].
  by rewrite concat_app, app_assoc.
Qed.

Lemma merge_mafs_compose_witness :
  merge_mafs (["#version 2.4"; "Hugo_Symbol x"; "TP53 1"] :: [])
  = inr ["#version 2.4"; "Hugo_Symbol x"; "TP53 1"]
  ∧ merge_mafs (["#version 2.4"; "Hugo_Symbol x"; "TP53 1"]
                :: [["#version 2.4"; "Hugo_Symbol x"; "KRAS 2"]])
    = merge_mafs (["#version 2.4"; "Hugo_Symbol x"; "TP53 1"]
                  :: [] ++ [["#version 2.4"; "Hugo_Symbol x"; "KRAS 2"]]).
Proof.
  split; [vm_compute; reflexivity|].
  apply (merge_mafs_compose ["#version 2.4"; "Hugo_Symbol x"; "TP53 1"]
           ["#version 2.4"; "Hugo_Symbol x"; "TP53 1"] []
           [["#version 2.4"; "Hugo_Symbol x"; "KRAS 2"]]).
  vm_compute. reflexivity.
Defined.

(** ** [concatenate_csv] *)

Lemma concatenate_csv_eq (first : list string) (rest : list (list string)) :
  concatenate_csv (first :: rest)
  = inr (write [] (readline first 0)
         ++ concat (filter (λ line, String.prefix "chrom" line = false)
                      <$> first :: rest)).
Proof. unfold concatenate_csv. cbn zeta. by rewrite foldl_append_filter. Qed.

Lemma concatenate_csv_cons (header : string) (body : list string)
    (rest : list (list string)) :
  header ≠ EmptyString →
  concatenate_csv ((header :: body) :: rest)
  = inr (header
         :: (if String.prefix "chrom" header then [] else [header])
         ++ concat (filter (λ line, String.prefix "chrom" line = false)
                      <$> body :: rest)).
Proof.
  intros Hh. rewrite concatenate_csv_eq. unfold write, readline. cbn [lookup].
  simpl. rewrite bool_decide_eq_false_2 by done. simpl.
  destruct (String.prefix "chrom" header) eqn:Hp.
  - rewrite filter_cons_False by congruence. reflexivity.
  - rewrite filter_cons_True by done. reflexivity.
Qed.

(** X17: the first line of the first file is always written at the top.
    When it starts with [chrom] it is written once and the lines of all
    files that start with [chrom] are left out; when it does not, it is
    written a second time, as a line of the first file. *)
Theorem concatenate_csv_header (header : string) (body : list string)
    (rest : list (list string)) :
  header ≠ EmptyString →
  concatenate_csv ((header :: body) :: rest)
  = inr (header
         :: (if String.prefix "chrom" header then [] else [header])
         ++ concat (filter (λ line, String.prefix "chrom" line = false)
                      <$> body :: rest)).
Proof. apply concatenate_csv_cons. Qed.

Lemma concatenate_csv_header_witness :
  concatenate_csv (["position,count"; "1,5"] :: [["position,count"; "2,7"]])
  = inr ("position,count"
         :: (if String.prefix "chrom" "position,count" then []
             else ["position,count"])
         ++ concat (filter (λ line, String.prefix "chrom" line = false)
                      <$> ["1,5"] :: [["position,count"; "2,7"]])).
Proof.
  apply (concatenate_csv_header "position,count" ["1,5"]
           [["position,count"; "2,7"]]).
  discriminate.
Defined.

(** X18: for files whose header starts with [chrom], concatenation is
    compositional: a concatenated file concatenated with further files
    gives what concatenating all the files at once gives. *)
Theorem concatenate_csv_compose (first written : list string)
    (rest more : list (list string)) :
  String.prefix "chrom" (readline first 0) = true →
  concatenate_csv (first :: rest) = inr written →
  concatenate_csv (written :: more) = concatenate_csv (first :: rest ++ more).
Proof.
  intros Hp. destruct first as [|header body]; [done|].
  unfold readline in Hp. cbn in Hp.
  assert (header ≠ EmptyString) as Hne by (intros ->; done).
  rewrite concatenate_csv_cons, Hp by done. intros [= <-].
  cbn [app]. rewrite !concatenate_csv_cons, Hp by done. cbn [app].
  do 2 f_equal.
  set (B := concat (filter (λ line, String.prefix "chrom" line = false)
                      <$> body :: rest)).
  assert (Forall (λ line, String.prefix "chrom" line = false) B) as Hb.
  { apply Forall_concat, Forall_fmap, Forall_forall. intros f _.
    apply Forall_forall. by intros line [? _]%list_elem_of_filter. }
  rewrite (fmap_cons _ B). cbn [concat]. rewrite (filter_all _ B) by exact Hb.
  unfold B. rewrite !fmap_cons, fmap_app. cbn [concat].
  by rewrite concat_app, app_assoc.
Qed.

Lemma concatenate_csv_compose_witness :
  concatenate_csv (["chrom,pos"; "1,5"] :: [["chrom,pos"; "2,7"]])
  = inr ["chrom,pos"; "1,5"; "2,7"]
  ∧ concatenate_csv (["chrom,pos"; "1,5"; "2,7"] :: [["chrom,pos"; "3,9"]])
    = concatenate_csv (["chrom,pos"; "1,5"]
                       :: [["chrom,pos"; "2,7"]] ++ [["chrom,pos"; "3,9"]]).
Proof.
  split; [vm_compute; reflexivity|].
  apply (concatenate_csv_compose ["chrom,pos"; "1,5"]
           ["chrom,pos"; "1,5"; "2,7"] [["chrom,pos"; "2,7"]]
           [["chrom,pos"; "3,9"]]).
  - vm_compute. reflexivity.
  - vm_compute. reflexivity.
Defined.

(** ** [infer_type] *)

Lemma lefts_all (files : list (list (string * string))) :
  Forall (λ v, is_Some (Dict.get "left" v)) files →
  foldr (λ v acc,
           match Dict.get "left" v with
           | None => inl (KeyError "left")
           | Some filetype => rest ←! acc; inr (filetype :: rest)
           end) (inr []) files
  = inr (omap (Dict.get "left") files).
Proof.
  induction 1 as [|v files [t Ht] _ IH]; [done|].
  cbn [foldr]. rewrite IH, Ht. cbn. by rewrite Ht.
Qed.

Lemma lefts_missing (files : list (list (string * string))) :
  ¬ Forall (λ v, is_Some (Dict.get "left" v)) files →
  foldr (λ v acc,
           match Dict.get "left" v with
           | None => inl (KeyError "left")
           | Some filetype => rest ←! acc; inr (filetype :: rest)
           end) (inr []) files
  = inl (KeyError "left").
Proof.
  induction files as [|v files IH]; intros Hn.
  - by destruct Hn.
  - cbn [foldr]. destruct (Dict.get "left" v) as [t|] eqn:Ht; [|done].
    rewrite IH; [done|]. intros Hall. apply Hn. constructor; [by exists t|done].
Qed.

(** The file types that occur. *)
Lemma elem_of_filetypes (files : list (list (string * string))) (t : string) :
  t ∈ Contamination.sorted_set (omap (Dict.get "left") files)
  ↔ ∃ v, v ∈ files ∧ Dict.get "left" v = Some t.
Proof. by rewrite ContaminationProps.elem_of_sorted_set, list_elem_of_omap. Qed.

Lemma infer_type_invariant (files files' : list (list (string * string))) :
  (∀ v, v ∈ files ↔ v ∈ files') → infer_type files = infer_type files'.
Proof.
  intros Hsame. unfold infer_type.
  destruct (decide (Forall (λ v, is_Some (Dict.get "left" v)) files)) as [Hall|Hn].
  - assert (Forall (λ v, is_Some (Dict.get "left" v)) files') as Hall'.
    { rewrite Forall_forall in Hall |- *. intros v Hv. by apply Hall, Hsame. }
    rewrite !lefts_all by done. cbn [bind].
    assert (∀ t, bool_decide
                   (t ∈ Contamination.sorted_set (omap (Dict.get "left") files))
                 = bool_decide
                     (t ∈ Contamination.sorted_set (omap (Dict.get "left") files')))
      as Hb.
    { intros t. apply bool_decide_ext. rewrite !elem_of_filetypes.
      split; intros (v & Hv & Ht); exists v; (split; [by apply Hsame|done]). }
    by rewrite !Hb.
  - assert (¬ Forall (λ v, is_Some (Dict.get "left" v)) files') as Hn'.
    { intros Hall'. apply Hn. rewrite Forall_forall in Hall' |- *.
      intros v Hv. by apply Hall', Hsame. }
    by rewrite !lefts_missing by done.
Qed.

(** X19: the answer of [infer_type] depends on which entries there are,
    not on their order or on how often one occurs. *)
Theorem infer_type_set (files files' : list (list (string * string))) :
  (∀ v, v ∈ files ↔ v ∈ files') → infer_type files = infer_type files'.
Proof. apply infer_type_invariant. Qed.

Lemma infer_type_set_witness :
  infer_type [[("left", "museq_vcf")]; [("left", "consensus_maf")]]
  = infer_type [[("left", "consensus_maf")]; [("left", "museq_vcf")];
                [("left", "consensus_maf")]].
Proof.
  apply (infer_type_set [[("left", "museq_vcf")]; [("left", "consensus_maf")]]
           [[("left", "consensus_maf")]; [("left", "museq_vcf")];
            [("left", "consensus_maf")]]).
  intros v. rewrite !elem_of_cons, !elem_of_nil. tauto.
Defined.

(** X20: [infer_type] answers exactly when every entry has a [left] and
    the [left] of some entry is one of the five file types it knows; an
    entry without [left] is a [KeyError] even beside a known type. *)
Theorem infer_type_answers (files : list (list (string * string))) :
  (∃ wf_type, infer_type files = inr wf_type)
  ↔ Forall (λ v, is_Some (Dict.get "left" v)) files
    ∧ ∃ v t, v ∈ files ∧ Dict.get "left" v = Some t
        ∧ t ∈ ["consensus_maf"; "sample_consensus_vcf"; "mutect_vcf";
               "museq_vcf"; "strelka_indel"].
Proof.
  unfold infer_type.
  destruct (decide (Forall (λ v, is_Some (Dict.get "left" v)) files)) as [Hall|Hn].
  - rewrite lefts_all by done. cbn [bind]. split.
    + intros [wf Hwf]. split; [done|]. revert Hwf.
      repeat (let H := fresh "H" in
              case_bool_decide as H;
              [apply elem_of_filetypes in H as (v & Hv & Ht); intros _;
               exists v; eexists; split_and!; [done..|];
               rewrite !elem_of_cons; tauto|]).
      intros Hwf. discriminate Hwf.
    + intros (_ & v & t & Hv & Ht & Hk).
      assert (t ∈ Contamination.sorted_set (omap (Dict.get "left") files)) as Hin
        by (apply elem_of_filetypes; eauto).
      repeat case_bool_decide; eauto.
      rewrite !elem_of_cons, elem_of_nil in Hk.
      destruct Hk as [->|[->|[->|[->|[->|[]]]]]]; done.
  - rewrite lefts_missing by done. split; [by intros [? ?]|]. by intros [? _].
Qed.

(** ** [_get_sample_id] *)

Lemma samples_raised (e : exn) (readgroups : list (list (string * string))) :
  foldl (λ acc readgroup,
           samples ←! acc;
           match Dict.get "SM" readgroup with
           | None => inl (KeyError "SM")
           | Some sample => inr (samples ∪ {[sample]})
           end) (inl e) readgroups
  = (inl e : exn + gset string).
Proof. induction readgroups as [|rg rgs IH]; [done|]. exact IH. Qed.

Lemma samples_all (S : gset string) (readgroups : list (list (string * string))) :
  Forall (λ rg, is_Some (Dict.get "SM" rg)) readgroups →
  foldl (λ acc readgroup,
           samples ←! acc;
           match Dict.get "SM" readgroup with
           | None => inl (KeyError "SM")
           | Some sample => inr (samples ∪ {[sample]})
           end) (inr S) readgroups
  = inr (S ∪ list_to_set (omap (Dict.get "SM") readgroups)).
Proof.
  intros Hall. revert S. induction Hall as [|rg rgs [s Hs] _ IH]; intros S.
  - cbn. f_equal. by rewrite (right_id_L ∅ (∪)).
  - cbn [foldl bind]. rewrite Hs, IH. f_equal. cbn. rewrite Hs.
    by rewrite list_to_set_cons, (assoc_L (∪)).
Qed.

Lemma samples_missing (S : gset string) (readgroups : list (list (string * string))) :
  ¬ Forall (λ rg, is_Some (Dict.get "SM" rg)) readgroups →
  foldl (λ acc readgroup,
           samples ←! acc;
           match Dict.get "SM" readgroup with
           | None => inl (KeyError "SM")
           | Some sample => inr (samples ∪ {[sample]})
           end) (inr S) readgroups
  = inl (KeyError "SM").
Proof.
  revert S. induction readgroups as [|rg rgs IH]; intros S Hn.
  - by destruct Hn.
  - cbn [foldl bind]. destruct (Dict.get "SM" rg) as [s|] eqn:Hs.
    + apply IH. intros Hall. apply Hn. constructor; [by exists s|done].
    + apply samples_raised.
Qed.

(** X21: [_get_sample_id] returns a sample exactly when the file has a
    read group and every read group names that sample; with no read
    group, or with two samples, it fails on its assertion. *)
Theorem get_sample_id_unique (readgroups : list (list (string * string)))
    (sample : string) :
  _get_sample_id readgroups = inr sample
  ↔ readgroups ≠ []
    ∧ ∀ rg, rg ∈ readgroups → Dict.get "SM" rg = Some sample.
Proof.
  unfold _get_sample_id.
  destruct (decide (Forall (λ rg, is_Some (Dict.get "SM" rg)) readgroups))
    as [Hall|Hn].
  - rewrite samples_all by done. cbn [bind].
    rewrite (left_id_L ∅ (∪)).
    set (X := list_to_set (omap (Dict.get "SM") readgroups) : gset string).
    assert (∀ s, s ∈ X ↔ ∃ rg, rg ∈ readgroups ∧ Dict.get "SM" rg = Some s) as HX.
    { intros s. unfold X. by rewrite elem_of_list_to_set, list_elem_of_omap. }
    split.
    + intros Hel.
      assert (X = {[sample]}) as HXs.
      { rewrite <- (list_to_set_elements_L X).
        destruct (elements X) as [|s [|s' l]]; try done.
        injection Hel as ->. by rewrite list_to_set_singleton_L. }
      split.
      * intros ->. unfold X in HXs. cbn in HXs. set_solver.
      * intros rg Hrg. rewrite Forall_forall in Hall.
        destruct (Hall rg Hrg) as [s Hs]. rewrite Hs. f_equal.
        assert (s ∈ X) as Hin by (apply HX; eauto).
        rewrite HXs in Hin. set_solver.
    + intros [Hne Hsm].
      assert (X = {[sample]}) as ->.
      { apply set_eq. intros s. rewrite HX, elem_of_singleton. split.
        - intros (rg & Hrg & Hs). rewrite (Hsm rg Hrg) in Hs. congruence.
        - intros ->. destruct readgroups as [|rg rgs]; [done|].
          exists rg. split; [left|apply Hsm; left]. }
      by rewrite elements_singleton.
  - rewrite samples_missing by done. cbn [bind]. split; [done|].
    intros [_ Hsm]. destruct Hn. apply Forall_forall. intros rg Hrg.
    rewrite (Hsm rg Hrg). eauto.
Qed.

End VariantFilesProps.

(** * Further properties of the contamination detector *)

Module ContaminationExtras.
Import Binary64 Contamination ContaminationSamples ContaminationProps.

(** The fields of a split string hold no separator. *)
Lemma split_fields_free (sep : Ascii.ascii) (s : string) :
  Forall (λ w, free_of sep w = true) (split sep s).
Proof.
  induction s as [|c s IH]; cbn [split].
  - by repeat constructor.
  - destruct (decide (c = sep)) as [->|Hne].
    + by constructor.
    + destruct (split sep s) as [|w ws].
      { repeat constructor. cbn [free_of]. by rewrite bool_decide_eq_true_2. }
      apply Forall_cons in IH as [Hw Hws]. constructor; [|done].
      cbn [free_of]. by rewrite bool_decide_eq_true_2, Hw.
Qed.

Lemma organisms_free (df : dataframe) (o : string) :
  o ∈ organisms df → free_of "_" o = true.
Proof.
  intros (_ & col & _ & _ & <-)%elem_of_organisms.
  destruct (split "_" col !! 1%nat) as [w|] eqn:Hw; [|done]. simpl.
  pose proof (split_fields_free "_" col) as Hall.
  rewrite Forall_forall in Hall. apply Hall. by eapply list_elem_of_lookup_2.
Qed.

Lemma StronglySorted_filter {A : Type} (R : relation A) (P : A → Prop)
    `{!∀ x, Decision (P x)} (l : list A) :
  StronglySorted R l → StronglySorted R (filter P l).
Proof.
  induction 1 as [|x l Hl IH Hx]; [constructor|].
  destruct (decide (P x)).
  - rewrite filter_cons_True by done. constructor; [done|].
    apply Forall_forall. intros y [_ Hy]%list_elem_of_filter.
    rewrite Forall_forall in Hx. by apply Hx.
  - by rewrite filter_cons_False.
Qed.

Lemma organisms_sorted (df : dataframe) :
  Sorted String.le (organisms df) ∧ NoDup (organisms df).
Proof.
  unfold organisms. split.
  - apply StronglySorted_Sorted, StronglySorted_filter.
    apply (StronglySorted_merge_sort _).
  - apply NoDup_filter. unfold sorted_set.
    rewrite merge_sort_Permutation. apply NoDup_elements.
Qed.

(** X22: the genomes that [add_contamination_status] hands to the schema
    of the written table are sorted, distinct, have no underscore and are
    never [nohit] or [total]. *)
Theorem contamination_genomes (data : dataframe) (reference : string)
    (threshold : float) (w : written) :
  add_contamination_status data reference threshold = inr w →
  Sorted String.le (w_genomes w) ∧ NoDup (w_genomes w)
  ∧ Forall (λ o, free_of "_" o = true ∧ o ≠ "nohit" ∧ o ≠ "total") (w_genomes w).
Proof.
  unfold add_contamination_status. case_bool_decide; [done|].
  destruct (flag_loop _ _ _ _) as [e|flags]; [done|]. cbn [bind].
  intros [= <-]. cbn [w_genomes].
  destruct (organisms_sorted data) as [Hs Hn]. split_and!; [done..|].
  apply Forall_forall. intros o Ho. split; [by eapply organisms_free|].
  apply elem_of_organisms in Ho as [Hno _].
  rewrite !not_elem_of_cons in Hno. tauto.
Qed.

Lemma contamination_genomes_witness :
  Sorted String.le ["grch37"; "mm10"] ∧ NoDup ["grch37"; "mm10"]
  ∧ Forall (λ o, free_of "_" o = true ∧ o ≠ "nohit" ∧ o ≠ "total")
      ["grch37"; "mm10"].
Proof.
  apply (contamination_genomes sample_table "grch37" default_threshold
           (Written sample_table [false; true; true] ["grch37"; "mm10"])).
  vm_compute. reflexivity.
Defined.

(** ** Missing columns *)

Lemma unique_ratio_missing (df : dataframe) (o : string) :
  int_data df !! ("fastqscreen_" +:+ o) = None
  ∨ int_data df !! ("fastqscreen_" +:+ o +:+ "_multihit") = None →
  ∃ key, unique_ratio df o = inl (KeyError key).
Proof.
  unfold unique_ratio, _get_col_data, get_column. intros [H|H].
  - rewrite H. cbn. eauto.
  - destruct (int_data df !! ("fastqscreen_" +:+ o)); rewrite H; cbn; eauto.
Qed.

Lemma unique_ratio_cases (df : dataframe) (o : string) :
  (∃ key, unique_ratio df o = inl (KeyError key))
  ∨ ∃ rs, unique_ratio df o = inr rs.
Proof.
  unfold unique_ratio, _get_col_data, get_column.
  destruct (int_data df !! ("fastqscreen_" +:+ o)); cbn; [|eauto].
  destruct (int_data df !! ("fastqscreen_" +:+ o +:+ "_multihit")); cbn; [|eauto].
  destruct (int_data df !! "fastqscreen_total_reads"); cbn; eauto.
Qed.

Lemma flag_loop_missing (df : dataframe) (threshold : float) (alts : list string)
    (flags : list bool) (o : string) :
  o ∈ alts →
  int_data df !! ("fastqscreen_" +:+ o) = None
  ∨ int_data df !! ("fastqscreen_" +:+ o +:+ "_multihit") = None →
  ∃ key, flag_loop df alts threshold flags = inl (KeyError key).
Proof.
  intros Hin Hmiss. revert flags.
  induction alts as [|a alts IH]; intros flags; [by apply elem_of_nil in Hin|].
  cbn [flag_loop]. apply elem_of_cons in Hin as [<-|Hin].
  - destruct (unique_ratio_missing df o Hmiss) as [key ->]. cbn. eauto.
  - destruct (unique_ratio_cases df a) as [[key ->]|[rs ->]]; cbn; [eauto|].
    by apply IH.
Qed.

(** X23: when an organism other than the reference lacks its
    [fastqscreen_<organism>] or its [fastqscreen_<organism>_multihit]
    column, the call ends with a [KeyError] and writes nothing.  A genome
    whose name has an underscore does this: the organism is the part of
    the name before the underscore, and has no column of its own. *)
Theorem contamination_missing_counts (data : dataframe) (reference : string)
    (threshold : float) (o : string) :
  reference ∈ organisms data → o ∈ organisms data → o ≠ reference →
  int_data data !! ("fastqscreen_" +:+ o) = None
  ∨ int_data data !! ("fastqscreen_" +:+ o +:+ "_multihit") = None →
  ∃ key, add_contamination_status data reference threshold = inl (KeyError key).
Proof.
  intros Href Ho Hne Hmiss. unfold add_contamination_status.
  rewrite bool_decide_eq_false_2 by (intros Hn; by apply Hn).
  destruct (flag_loop_missing data threshold
              (filter (λ col, ¬ col = reference) (organisms data))
              (replicate (length (cell_id data)) false) o) as [key ->].
  - by apply list_elem_of_filter.
  - done.
  - cbn. eauto.
Qed.

Lemma contamination_missing_counts_witness :
  ∃ key, add_contamination_status underscore_table "grch37" default_threshold
         = inl (KeyError key).
Proof.
  apply (contamination_missing_counts underscore_table "grch37"
           default_threshold "homo").
  - apply (bool_decide_eq_true_1 _). vm_compute. reflexivity.
  - apply (bool_decide_eq_true_1 _). vm_compute. reflexivity.
  - discriminate.
  - left. vm_compute. reflexivity.
Defined.

(** ** The counts of the reference *)

Lemma free_of_append (sep : Ascii.ascii) (a b : string) :
  free_of sep (a +:+ b) = free_of sep a && free_of sep b.
Proof.
  induction a as [|c a IH]; [done|].
  change (String c a +:+ b) with (String c (a +:+ b)).
  cbn [free_of]. by rewrite IH, andb_assoc.
Qed.

Lemma multihit_inj (a b : string) :
  free_of "_" a = true → free_of "_" b = true →
  a +:+ "_multihit" = b +:+ "_multihit" → a = b.
Proof.
  intros Ha Hb Heq.
  assert (split "_" (a +:+ "_multihit") = split "_" (b +:+ "_multihit")) as Hs
    by by rewrite Heq.
  change "_multihit" with (String "_" "multihit") in Hs.
  rewrite !split_append in Hs by done. by injection Hs.
Qed.

(** The columns read for an organism other than the reference are not
    columns of the reference. *)
Lemma other_keys (reference o : string) :
  free_of "_" reference = true → free_of "_" o = true → o ≠ reference →
  ∀ key, key ∈ ["fastqscreen_" +:+ o; "fastqscreen_" +:+ o +:+ "_multihit";
                "fastqscreen_total_reads"] →
    key ≠ "fastqscreen_" +:+ reference
    ∧ key ≠ "fastqscreen_" +:+ reference +:+ "_multihit".
Proof.
  intros Hr Ho Hne key Hkey.
  assert (∀ a b : string, "fastqscreen_" +:+ a = "fastqscreen_" +:+ b → a = b)
    as Hinj by (intros a b; apply (inj (String.append "fastqscreen_"))).
  assert (∀ a : string, free_of "_" (a +:+ "_multihit") = false) as Hm.
  { intros a. rewrite free_of_append. apply andb_false_r. }
  rewrite !elem_of_cons, elem_of_nil in Hkey.
  destruct Hkey as [->|[->|[->|[]]]]; split; intros Heq.
  - by apply Hinj in Heq.
  - apply Hinj in Heq. subst o. by rewrite Hm in Ho.
  - apply Hinj in Heq. subst reference. by rewrite Hm in Hr.
  - apply Hinj in Heq. by apply multihit_inj in Heq.
  - change "fastqscreen_total_reads" with ("fastqscreen_" +:+ "total_reads") in Heq.
    apply Hinj in Heq. subst reference. done.
  - change "fastqscreen_total_reads" with ("fastqscreen_" +:+ "total_reads") in Heq.
    apply Hinj in Heq.
    assert (split "_" "total_reads" = split "_" (reference +:+ "_multihit")) as Hs
      by by rewrite Heq.
    change "_multihit" with (String "_" "multihit") in Hs.
    rewrite split_append in Hs by done. by vm_compute in Hs.
Qed.

Lemma flag_loop_agree (df df' : dataframe) (threshold : float)
    (alts : list string) (flags : list bool) :
  (∀ o key, o ∈ alts →
     key ∈ ["fastqscreen_" +:+ o; "fastqscreen_" +:+ o +:+ "_multihit";
            "fastqscreen_total_reads"] →
     int_data df' !! key = int_data df !! key) →
  flag_loop df' alts threshold flags = flag_loop df alts threshold flags.
Proof.
  revert flags. induction alts as [|o alts IH]; intros flags Hag; [done|].
  cbn [flag_loop].
  assert (unique_ratio df' o = unique_ratio df o) as ->.
  { unfold unique_ratio, _get_col_data, get_column.
    rewrite !(Hag o) by (rewrite ?elem_of_cons; auto). done. }
  destruct (unique_ratio df o) as [e|rs]; [done|]. cbn [bind].
  apply IH. intros o' key Ho'. apply Hag. by right.
Qed.

(** X24: the counts of the reference organism are never read: two
    tables that differ only in the data of [fastqscreen_<reference>] and
    [fastqscreen_<reference>_multihit] get the same flags, or the same
    exception. *)
Theorem contamination_ignores_reference (data data' : dataframe)
    (reference : string) (threshold : float) :
  columns data' = columns data → cell_id data' = cell_id data →
  (∀ key, key ≠ "fastqscreen_" +:+ reference →
          key ≠ "fastqscreen_" +:+ reference +:+ "_multihit" →
          int_data data' !! key = int_data data !! key) →
  (w ←! add_contamination_status data' reference threshold;
   inr (w_is_contaminated w, w_genomes w))
  = (w ←! add_contamination_status data reference threshold;
     inr (w_is_contaminated w, w_genomes w)).
Proof.
  intros Hcols Hcells Hag. unfold add_contamination_status.
  assert (organisms data' = organisms data) as -> by (unfold organisms; by rewrite Hcols).
  rewrite Hcells. case_bool_decide as Href; [done|].
  rewrite (flag_loop_agree data data').
  - by destruct (flag_loop data _ _ _).
  - intros o key [Hne Ho]%list_elem_of_filter Hkey.
    destruct (other_keys reference o) with (key := key) as [H1 H2];
      [by eapply organisms_free..|done|done|]. by apply Hag.
Qed.

Lemma contamination_ignores_reference_witness :
  (w ←! add_contamination_status sample_table_other_reference "grch37"
          default_threshold;
   inr (w_is_contaminated w, w_genomes w))
  = (w ←! add_contamination_status sample_table "grch37" default_threshold;
     inr (w_is_contaminated w, w_genomes w)).
Proof.
  apply (contamination_ignores_reference sample_table
           sample_table_other_reference "grch37" default_threshold).
  - reflexivity.
  - reflexivity.
  - intros key H1 H2. unfold sample_table_other_reference. cbn [int_data].
    rewrite !lookup_insert_ne by done. reflexivity.
Defined.

End ContaminationExtras.

(** * Properties of the input validation *)

Module ValidationProps.
Import Validation.

Implicit Types (meta : meta_data) (input_data : list sample_input).

Lemma is_false_spec v : is_false v = true ↔ v = VBool false.
Proof. destruct v as [|[]]; cbn; split; congruence. Qed.

Lemma required_field_ok meta field_name :
  _check_metadata_required_field meta field_name = inr ()
  ↔ ∀ cell fields, (cell, fields) ∈ cells meta → is_Some (Dict.get field_name fields).
Proof.
  unfold _check_metadata_required_field.
  destruct (forallb _ _) eqn:Hall.
  - split; [intros _|done]. intros cell fields Hin.
    rewrite forallb_forall in Hall.
    apply list_elem_of_In, Hall in Hin. by apply bool_decide_eq_true_1 in Hin.
  - split; [done|]. intros Hall'. exfalso.
    assert (forallb (λ kv : string * list (string * value),
              bool_decide (is_Some (Dict.get field_name kv.2))) (cells meta) = true)
      as Habs; [|congruence].
    apply forallb_forall. intros [cell fields] Hin%list_elem_of_In.
    apply bool_decide_eq_true_2. by eapply Hall'.
Qed.

Lemma non_control_samples_elem cs :
  Forall has_sample_fields cs →
  ∃ found, non_control_samples cs = inr found
    ∧ ∀ x, x ∈ found ↔ ∃ cell fields, (cell, fields) ∈ cs
                          ∧ non_control fields ∧ Dict.get "sample_id" fields = Some x.
Proof.
  induction 1 as [|[cell fields] cs [[c Hc] [s Hs]] _ (found & IH & Hfound)].
  - exists []. split; [done|]. intros x. split; [by intros ?%elem_of_nil|].
    by intros (? & ? & ?%elem_of_nil & _).
  - cbn [snd] in Hc, Hs. cbn [non_control_samples]. rewrite Hc, Hs, IH. cbn [ebind].
    destruct (is_false c) eqn:Hf.
    + apply is_false_spec in Hf as ->. exists (s :: found). split; [done|].
      intros x. rewrite elem_of_cons, Hfound. split.
      * intros [->|(cell' & fields' & Hin & Hnc)].
        -- exists cell, fields. split_and!; [left|done|done].
        -- exists cell', fields'. split; [by right|done].
      * intros (cell' & fields' & [Heq|Hin]%elem_of_cons & Hnc & Hx).
        -- injection Heq as -> ->. left. congruence.
        -- right. by exists cell', fields'.
    + exists found. split; [done|].
      intros x. rewrite Hfound. split.
      * intros (cell' & fields' & Hin & Hnc). exists cell', fields'. split; [by right|done].
      * intros (cell' & fields' & [Heq|Hin]%elem_of_cons & Hnc & Hx).
        -- injection Heq as -> ->. unfold non_control in Hnc.
           rewrite Hc in Hnc. injection Hnc as ->. discriminate Hf.
        -- by exists cell', fields'.
Qed.

Lemma at_most_one (l : list value) :
  (length (elements (list_to_set l : gset value)) ≤ 1)%nat
  ↔ ∀ x y, x ∈ l → y ∈ l → x = y.
Proof.
  split.
  - intros Hlen x y Hx Hy.
    assert (x ∈ elements (list_to_set l : gset value)) as Hx'
      by (apply elem_of_elements; set_solver).
    assert (y ∈ elements (list_to_set l : gset value)) as Hy'
      by (apply elem_of_elements; set_solver).
    destruct (elements _) as [|a [|b els]]; [by apply elem_of_nil in Hx'| |cbn in Hlen; lia].
    apply list_elem_of_singleton in Hx', Hy'. congruence.
  - intros Heq. destruct l as [|a l].
    + cbn [list_to_set]. rewrite elements_empty. cbn. lia.
    + assert ((list_to_set (a :: l) : gset value) = {[a]}) as ->.
      { apply set_eq. intros x. rewrite elem_of_list_to_set, elem_of_singleton.
        split; [|intros ->; left].
        intros Hx. apply Heq; [done|left]. }
      rewrite elements_singleton. cbn. lia.
Qed.

Lemma omap_get_str_length (l : list value) :
  forallb is_str l = true → length (omap get_str l) = length l.
Proof.
  induction l as [|[s|b] l IH]; cbn; [done| |done].
  intros Hl. by rewrite IH.
Qed.

Lemma omap_get_bool_length (l : list value) :
  forallb (λ v, negb (is_str v)) l = true → length (omap get_bool l) = length l.
Proof.
  induction l as [|[s|b] l IH]; cbn; [done|done|].
  intros Hl. by rewrite IH.
Qed.

Lemma sorted_values_length (X : gset value) l :
  sorted_values X = inr l → length l = length (elements X).
Proof.
  unfold sorted_values. case_bool_decide; [congruence|].
  destruct (forallb is_str _) eqn:Hs.
  - intros [= <-]. rewrite length_fmap.
    rewrite (Permutation_length (merge_sort_Permutation _ _)).
    by apply omap_get_str_length.
  - destruct (forallb (λ v, negb (is_str v)) _) eqn:Hb; [|done].
    intros [= <-]. rewrite length_fmap.
    rewrite (Permutation_length (merge_sort_Permutation _ _)).
    by apply omap_get_bool_length.
Qed.

Lemma uniqueness_ok meta :
  Forall has_sample_fields (cells meta) →
  _check_sample_id_uniqueness meta = inr ()
  ↔ ∀ cell1 fields1 cell2 fields2,
      (cell1, fields1) ∈ cells meta → (cell2, fields2) ∈ cells meta →
      non_control fields1 → non_control fields2 →
      Dict.get "sample_id" fields1 = Dict.get "sample_id" fields2.
Proof.
  intros Hall. destruct (non_control_samples_elem _ Hall) as (found & Hfound & Helem).
  unfold _check_sample_id_uniqueness. rewrite Hfound. cbn [ebind].
  trans (length (elements (list_to_set found : gset value)) ≤ 1)%nat.
  - destruct (sorted_values _) as [e|l] eqn:Hsorted; cbn [ebind].
    + split; [done|]. intros Hlen. exfalso. revert Hsorted. unfold sorted_values.
      by rewrite bool_decide_eq_true_2.
    + apply sorted_values_length in Hsorted. rewrite Hsorted.
      case_bool_decide; cbn [negb]; split; done.
  - rewrite at_most_one. split.
    + intros Heq cell1 fields1 cell2 fields2 Hin1 Hin2 Hnc1 Hnc2.
      rewrite Forall_forall in Hall.
      destruct (Hall _ Hin1) as [_ [s1 Hs1]]. destruct (Hall _ Hin2) as [_ [s2 Hs2]].
      cbn [snd] in Hs1, Hs2. rewrite Hs1, Hs2. f_equal.
      apply Heq; apply Helem; [by exists cell1, fields1|by exists cell2, fields2].
    + intros Heq x y (cell1 & fields1 & Hin1 & Hnc1 & Hx)%Helem
        (cell2 & fields2 & Hin2 & Hnc2 & Hy)%Helem.
      specialize (Heq _ _ _ _ Hin1 Hin2 Hnc1 Hnc2). congruence.
Qed.

Lemma fmap_omap_get_str (l : list value) :
  forallb is_str l = true → VStr <$> omap get_str l = l.
Proof.
  induction l as [|[s|b] l IH]; cbn; [done| |done].
  intros Hl. by rewrite IH.
Qed.

(** X25: when every cell has the fields [is_control] and [sample_id], the
    uniqueness check passes exactly when all cells that are not controls
    have the same sample id; a run of controls only passes. *)
Theorem check_sample_id_uniqueness_iff meta :
  Forall has_sample_fields (cells meta) →
  _check_sample_id_uniqueness meta = inr ()
  ↔ ∀ cell1 fields1 cell2 fields2,
      (cell1, fields1) ∈ cells meta → (cell2, fields2) ∈ cells meta →
      non_control fields1 → non_control fields2 →
      Dict.get "sample_id" fields1 = Dict.get "sample_id" fields2.
Proof. apply uniqueness_ok. Qed.

Lemma check_sample_id_uniqueness_iff_witness :
  _check_sample_id_uniqueness sample_meta = inr ()
  ↔ ∀ cell1 fields1 cell2 fields2,
      (cell1, fields1) ∈ cells sample_meta → (cell2, fields2) ∈ cells sample_meta →
      non_control fields1 → non_control fields2 →
      Dict.get "sample_id" fields1 = Dict.get "sample_id" fields2.
Proof.
  apply (check_sample_id_uniqueness_iff sample_meta).
  repeat constructor; vm_compute; eauto.
Defined.

(** X26: when the sample ids are strings and two cells that are not
    controls differ in theirs, the check raises [MultipleSamplesPerRun]
    with the sample ids of the cells that are not controls, each once and
    in sorted order. *)
Theorem check_sample_id_uniqueness_reports meta cell1 fields1 cell2 fields2 :
  Forall has_sample_fields (cells meta) →
  (∀ cell fields, (cell, fields) ∈ cells meta → non_control fields →
     ∃ s, Dict.get "sample_id" fields = Some (VStr s)) →
  (cell1, fields1) ∈ cells meta → (cell2, fields2) ∈ cells meta →
  non_control fields1 → non_control fields2 →
  Dict.get "sample_id" fields1 ≠ Dict.get "sample_id" fields2 →
  ∃ found, _check_sample_id_uniqueness meta
             = inl (MultipleSamplesPerRun (VStr <$> found))
    ∧ Sorted String.le found ∧ NoDup found
    ∧ ∀ s, s ∈ found ↔ ∃ cell fields, (cell, fields) ∈ cells meta
                          ∧ non_control fields
                          ∧ Dict.get "sample_id" fields = Some (VStr s).
Proof.
  intros Hall Hstr Hin1 Hin2 Hnc1 Hnc2 Hne.
  destruct (non_control_samples_elem _ Hall) as (found & Hfound & Helem).
  set (l := elements (list_to_set found : gset value)).
  assert (forallb is_str l = true) as Hl.
  { apply forallb_forall. intros x Hx%list_elem_of_In.
    apply elem_of_elements, elem_of_list_to_set, Helem in Hx
      as (cell & fields & Hin & Hnc & Hx).
    destruct (Hstr _ _ Hin Hnc) as [s Hs]. rewrite Hs in Hx. by injection Hx as <-. }
  assert (¬ (length l ≤ 1)%nat) as Hlen.
  { unfold l. rewrite at_most_one. intros Heq.
    destruct (Hstr _ _ Hin1 Hnc1) as [s1 Hs1]. destruct (Hstr _ _ Hin2 Hnc2) as [s2 Hs2].
    apply Hne. rewrite Hs1, Hs2. f_equal.
    apply Heq; apply Helem; [by exists cell1, fields1|by exists cell2, fields2]. }
  assert (sorted_values (list_to_set found)
          = inr (VStr <$> merge_sort String.le (omap get_str l))) as Hsorted.
  { unfold sorted_values. fold l. by rewrite bool_decide_eq_false_2, Hl. }
  exists (merge_sort String.le (omap get_str l)). split_and!.
  - unfold _check_sample_id_uniqueness. rewrite Hfound. cbn [ebind].
    rewrite Hsorted. cbn [ebind].
    rewrite (sorted_values_length _ _ Hsorted). fold l.
    by rewrite bool_decide_eq_false_2.
  - apply (Sorted_merge_sort _).
  - rewrite merge_sort_Permutation. apply (NoDup_fmap_1 VStr).
    rewrite fmap_omap_get_str by done. apply NoDup_elements.
  - intros s. rewrite merge_sort_Permutation, <- Helem.
    rewrite <- (elem_of_list_to_set (C := gset value)), <- elem_of_elements. fold l.
    rewrite <- (fmap_omap_get_str l) at 2 by done.
    rewrite list_elem_of_fmap. split.
    + intros Hs. by exists s.
    + by intros (s' & [= ->] & Hs).
Qed.

Lemma check_sample_id_uniqueness_reports_witness :
  ∃ found, _check_sample_id_uniqueness two_samples
             = inl (MultipleSamplesPerRun (VStr <$> found))
    ∧ Sorted String.le found ∧ NoDup found
    ∧ ∀ s, s ∈ found ↔ ∃ cell fields, (cell, fields) ∈ cells two_samples
                          ∧ non_control fields
                          ∧ Dict.get "sample_id" fields = Some (VStr s).
Proof.
  apply (check_sample_id_uniqueness_reports two_samples
           "c1" [("is_control", VBool false); ("sample_id", VStr "S2")]
           "c3" [("is_control", VBool false); ("sample_id", VStr "S1")]).
  - repeat constructor; vm_compute; eauto.
  - intros cell fields Hin _. cbn [two_samples cells] in Hin.
    repeat (apply elem_of_cons in Hin as [[= -> ->]|Hin]; [vm_compute; eauto|]).
    by apply elem_of_nil in Hin.
  - cbn [two_samples cells]. repeat constructor.
  - cbn [two_samples cells]. repeat constructor.
  - reflexivity.
  - reflexivity.
  - vm_compute. discriminate.
Defined.

(** ** Lanes and flowcells *)

Lemma covers_add_lane lane_data refs r :
  covers lane_data refs → covers (add_lane lane_data r) (refs ++ [r]).
Proof.
  intros (Hnd & Hfrom & Hto). destruct r as [fc0 l0]. unfold add_lane. cbn [flowcell_id lane_id].
  split_and!.
  - by apply DictProps.NoDup_keys_set.
  - intros fc S. destruct (decide (fc0 = fc)) as [->|Hne].
    + rewrite DictProps.get_set_eq. intros [= <-]. split.
      { intros Habs. apply (not_elem_of_empty (C := gset string) l0).
        rewrite <- Habs. apply elem_of_union. right. by apply elem_of_singleton. }
      intros l [Hl| ->%elem_of_singleton]%elem_of_union.
      * destruct (Dict.get fc lane_data) as [S0|] eqn:Hget; cbn in Hl;
          [|by apply not_elem_of_empty in Hl].
        apply elem_of_app. left. by apply (Hfrom _ _ Hget).
      * apply elem_of_app. right. left.
    + rewrite DictProps.get_set_ne by done. intros Hget.
      destruct (Hfrom _ _ Hget) as [Hne' Hl]. split; [done|].
      intros l Hin. apply elem_of_app. left. by apply Hl.
  - intros r' [Hin| ->%list_elem_of_singleton]%elem_of_app.
    + destruct (Hto _ Hin) as (S & Hget & Hl).
      destruct (decide (fc0 = flowcell_id r')) as [->|Hne].
      * rewrite DictProps.get_set_eq. eexists. split; [done|].
        rewrite Hget. cbn. apply elem_of_union. by left.
      * rewrite DictProps.get_set_ne by done. by exists S.
    + cbn [flowcell_id lane_id]. rewrite DictProps.get_set_eq.
      eexists. split; [done|]. apply elem_of_union. right. by apply elem_of_singleton.
Qed.

Lemma covers_foldl refs : ∀ lane_data done,
  covers lane_data done → covers (foldl add_lane lane_data refs) (done ++ refs).
Proof.
  induction refs as [|r refs IH]; intros lane_data done Hc.
  - by rewrite app_nil_r.
  - cbn [foldl].
    replace (done ++ r :: refs) with ((done ++ [r]) ++ refs) by (by rewrite <- app_assoc).
    apply IH.
    by apply covers_add_lane.
Qed.

Lemma foldl_in_lanes input_data : ∀ lane_data,
  foldl (λ lane_data val, foldl add_lane lane_data (in_lanes val)) lane_data input_data
  = foldl add_lane lane_data (input_data ≫= in_lanes).
Proof.
  induction input_data as [|val input_data IH]; intros lane_data; [done|].
  cbn [foldl]. rewrite IH. rewrite bind_cons. by rewrite foldl_app.
Qed.

Lemma check_lanes_ok meta_lanes flowcell lanes_ :
  check_lanes meta_lanes flowcell lanes_ = inr ()
  ↔ ∀ lane, lane ∈ lanes_ → is_Some (Dict.get lane meta_lanes).
Proof.
  unfold check_lanes.
  destruct (list_find _ _) as [[i lane]|] eqn:Hfind.
  - split; [done|]. intros Hall. exfalso.
    apply list_find_Some in Hfind as (Hi & Hnone & _).
    apply list_elem_of_lookup_2, Hall in Hi. rewrite Hnone in Hi. by destruct Hi.
  - split; [intros _|done]. apply list_find_None in Hfind.
    rewrite Forall_forall in Hfind. intros lane Hin.
    apply Hfind in Hin. by apply not_eq_None_Some.
Qed.

(** A check that raised leaves no way to pass. *)
Ltac raised :=
  split; [congruence|];
  let H := fresh in intros H; decompose [and] H; congruence.

Section set_order.
Context (set_order : gset string → list string).
Hypothesis set_order_elem : ∀ (X : gset string) x, x ∈ set_order X ↔ x ∈ X.

Lemma check_flowcells_ok meta lane_data :
  check_flowcells set_order meta lane_data = inr ()
  ↔ ∀ flowcell lanes_, (flowcell, lanes_) ∈ lane_data →
      ∃ meta_lanes, Dict.get flowcell (lanes meta) = Some meta_lanes
        ∧ ∀ lane, lane ∈ lanes_ → is_Some (Dict.get lane meta_lanes).
Proof.
  induction lane_data as [|[fc S] lane_data IH]; cbn [check_flowcells].
  - split; [|done]. by intros _ ? ? ?%elem_of_nil.
  - destruct (Dict.get fc (lanes meta)) as [ml|] eqn:Hml.
    + destruct (check_lanes ml fc (set_order S)) as [e|[]] eqn:Hcl; cbn [ebind].
      * split; [done|]. intros Hall. exfalso.
        destruct (Hall fc S) as (ml' & Hml' & Hl); [left|].
        assert (check_lanes ml fc (set_order S) = inr ()) as Habs; [|congruence].
        apply check_lanes_ok. intros lane Hin%set_order_elem.
        rewrite Hml in Hml'. injection Hml' as <-. by apply Hl.
      * rewrite IH. pose proof (proj1 (check_lanes_ok _ _ _) Hcl) as Hcl'. split.
        -- intros Hall fc' S' [[= -> ->]|Hin]%elem_of_cons; [|by apply Hall].
           exists ml. split; [done|]. intros lane Hin. by apply Hcl', set_order_elem.
        -- intros Hall fc' S' Hin. apply Hall. by right.
    + split; [done|]. intros Hall. exfalso.
      destruct (Hall fc S) as (ml' & Hml' & _); [left|congruence].
Qed.

Lemma lanes_and_flowcells_ok meta input_data :
  _check_lanes_and_flowcells set_order meta input_data = inr ()
  ↔ ∀ val lane, val ∈ input_data → lane ∈ in_lanes val →
      ∃ meta_lanes, Dict.get (flowcell_id lane) (lanes meta) = Some meta_lanes
        ∧ is_Some (Dict.get (lane_id lane) meta_lanes).
Proof.
  unfold _check_lanes_and_flowcells. rewrite foldl_in_lanes, check_flowcells_ok.
  assert (covers (foldl add_lane [] (input_data ≫= in_lanes)) (input_data ≫= in_lanes))
    as (Hnd & Hfrom & Hto).
  { apply (covers_foldl _ [] []). split_and!; [constructor|done|by intros ? ?%elem_of_nil]. }
  split.
  - intros Hall val lane Hval Hlane.
    destruct (Hto lane) as (S & Hget & Hin).
    { apply list_elem_of_bind. by exists val. }
    apply DictProps.get_Some_elem_of, Hall in Hget as (ml & Hml & Hl).
    exists ml. split; [done|]. by apply Hl.
  - intros Hall fc S Hin. apply DictProps.get_Some_NoDup in Hin; [|done].
    destruct (Hfrom _ _ Hin) as [Hne Hrefs].
    apply set_choose_L in Hne as [l0 Hl0].
    pose proof (Hrefs _ Hl0) as Hr0.
    apply list_elem_of_bind in Hr0 as (val0 & Hlane0 & Hval0).
    destruct (Hall _ _ Hval0 Hlane0) as (ml & Hml & _). cbn [flowcell_id] in Hml.
    exists ml. split; [done|]. intros l Hl.
    pose proof (Hrefs _ Hl) as Hr.
    apply list_elem_of_bind in Hr as (val & Hlane & Hval).
    destruct (Hall _ _ Hval Hlane) as (ml' & Hml' & Hsome).
    cbn [flowcell_id lane_id] in Hml', Hsome. congruence.
Qed.

Lemma sequencing_centre_ok meta :
  check_sequencing_centre meta = inr ()
  ↔ ∀ flowcell meta_lanes lane fields,
      (flowcell, meta_lanes) ∈ lanes meta → (lane, fields) ∈ meta_lanes →
      is_Some (Dict.get "sequencing_centre" fields).
Proof.
  unfold check_sequencing_centre.
  destruct (list_find _ _) as [[i [fc [lane fields]]]|] eqn:Hfind.
  - split; [done|]. intros Hall. exfalso.
    apply list_find_Some in Hfind as (Hi & Hnone & _). cbn [snd] in Hnone.
    apply list_elem_of_lookup_2, list_elem_of_In, in_flat_map in Hi
      as ([fc' ml] & Hfc%list_elem_of_In & Hin%list_elem_of_In).
    cbn [fst snd] in Hin. apply list_elem_of_fmap in Hin as ([lane' fields'] & [= -> -> ->] & Hin).
    specialize (Hall _ _ _ _ Hfc Hin). rewrite Hnone in Hall. by destruct Hall.
  - split; [intros _|done]. apply list_find_None in Hfind.
    rewrite Forall_forall in Hfind. intros fc ml lane fields Hfc Hin.
    apply not_eq_None_Some.
    apply (Hfind (fc, (lane, fields))).
    apply list_elem_of_In, in_flat_map. exists (fc, ml). split; [by apply list_elem_of_In|].
    apply list_elem_of_In. cbn [fst snd]. apply list_elem_of_fmap. by exists (lane, fields).
Qed.

(** X27: the lane check passes exactly when the metadata has, for every
    lane of every sample of the input, the flowcell of the lane and under
    it the lane, in whichever order the lane ids of a flowcell are
    visited. *)
Theorem check_lanes_and_flowcells_iff meta input_data :
  _check_lanes_and_flowcells set_order meta input_data = inr ()
  ↔ ∀ val lane, val ∈ input_data → lane ∈ in_lanes val →
      ∃ meta_lanes, Dict.get (flowcell_id lane) (lanes meta) = Some meta_lanes
        ∧ is_Some (Dict.get (lane_id lane) meta_lanes).
Proof. apply lanes_and_flowcells_ok. Qed.

(** X28: [input_validation] accepts a run exactly when every cell has the
    five required fields, the cells that are not controls agree on the
    sample id, every lane of the input is in the metadata, and every lane
    of the metadata, used by the input or not, has a sequencing centre. *)
Theorem input_validation_iff meta input_data :
  input_validation set_order meta input_data = inr ()
  ↔ (∀ cell fields field_name,
       (cell, fields) ∈ cells meta →
       field_name ∈ ["is_control"; "library_id"; "sample_id"; "pick_met"; "condition"] →
       is_Some (Dict.get field_name fields))
    ∧ (∀ cell1 fields1 cell2 fields2,
         (cell1, fields1) ∈ cells meta → (cell2, fields2) ∈ cells meta →
         non_control fields1 → non_control fields2 →
         Dict.get "sample_id" fields1 = Dict.get "sample_id" fields2)
    ∧ (∀ val lane, val ∈ input_data → lane ∈ in_lanes val →
         ∃ meta_lanes, Dict.get (flowcell_id lane) (lanes meta) = Some meta_lanes
           ∧ is_Some (Dict.get (lane_id lane) meta_lanes))
    ∧ (∀ flowcell meta_lanes lane fields,
         (flowcell, meta_lanes) ∈ lanes meta → (lane, fields) ∈ meta_lanes →
         is_Some (Dict.get "sequencing_centre" fields)).
Proof.
  unfold input_validation.
  assert ((∀ cell fields field_name,
       (cell, fields) ∈ cells meta →
       field_name ∈ ["is_control"; "library_id"; "sample_id"; "pick_met"; "condition"] →
       is_Some (Dict.get field_name fields))
     ↔ Forall (λ f, _check_metadata_required_field meta f = inr ())
         ["is_control"; "library_id"; "sample_id"; "pick_met"; "condition"]) as ->.
  { rewrite Forall_forall. split.
    - intros Hall f Hf. apply required_field_ok. intros cell fields Hin. by eapply Hall.
    - intros Hall cell fields f Hin Hf. by eapply required_field_ok; [apply Hall|]. }
  rewrite !Forall_cons, Forall_nil.
  destruct (_check_metadata_required_field meta "is_control") as [e|[]] eqn:H1;
    cbn [ebind]; [raised|].
  destruct (_check_metadata_required_field meta "library_id") as [e|[]] eqn:H2;
    cbn [ebind]; [raised|].
  destruct (_check_metadata_required_field meta "sample_id") as [e|[]] eqn:H3;
    cbn [ebind]; [raised|].
  destruct (_check_metadata_required_field meta "pick_met") as [e|[]] eqn:H4;
    cbn [ebind]; [raised|].
  destruct (_check_metadata_required_field meta "condition") as [e|[]] eqn:H5;
    cbn [ebind]; [raised|].
  assert (Forall has_sample_fields (cells meta)) as Hall.
  { apply Forall_forall. intros [cell fields] Hin. split; cbn [snd].
    - by eapply required_field_ok in H1.
    - by eapply required_field_ok in H3. }
  rewrite <- (uniqueness_ok _ Hall), <- lanes_and_flowcells_ok, <- sequencing_centre_ok.
  destruct (_check_sample_id_uniqueness meta) as [e|[]]; cbn [ebind]; [raised|].
  destruct (_check_lanes_and_flowcells set_order meta input_data) as [e|[]];
    cbn [ebind]; [raised|].
  split; [intros ?; by repeat split|by intros (_ & _ & _ & ?)].
Qed.
End set_order.

Lemma check_lanes_and_flowcells_iff_witness :
  _check_lanes_and_flowcells elements sample_meta sample_input_data = inr ()
  ↔ ∀ val lane, val ∈ sample_input_data → lane ∈ in_lanes val →
      ∃ meta_lanes, Dict.get (flowcell_id lane) (lanes sample_meta) = Some meta_lanes
        ∧ is_Some (Dict.get (lane_id lane) meta_lanes).
Proof.
  apply (check_lanes_and_flowcells_iff elements).
  intros X x. apply elem_of_elements.
Defined.

Lemma input_validation_iff_witness :
  input_validation elements sample_meta sample_input_data = inr ()
  ↔ (∀ cell fields field_name,
       (cell, fields) ∈ cells sample_meta →
       field_name ∈ ["is_control"; "library_id"; "sample_id"; "pick_met"; "condition"] →
       is_Some (Dict.get field_name fields))
    ∧ (∀ cell1 fields1 cell2 fields2,
         (cell1, fields1) ∈ cells sample_meta → (cell2, fields2) ∈ cells sample_meta →
         non_control fields1 → non_control fields2 →
         Dict.get "sample_id" fields1 = Dict.get "sample_id" fields2)
    ∧ (∀ val lane, val ∈ sample_input_data → lane ∈ in_lanes val →
         ∃ meta_lanes, Dict.get (flowcell_id lane) (lanes sample_meta) = Some meta_lanes
           ∧ is_Some (Dict.get (lane_id lane) meta_lanes))
    ∧ (∀ flowcell meta_lanes lane fields,
         (flowcell, meta_lanes) ∈ lanes sample_meta → (lane, fields) ∈ meta_lanes →
         is_Some (Dict.get "sequencing_centre" fields)).
Proof.
  apply (input_validation_iff elements).
  intros X x. apply elem_of_elements.
Defined.

End ValidationProps.
